(** * MarsDiskSimulation: the collision-outcome resolver

    A shallow embedding of the fragmentation model that the two REBOUND
    problem files of the repository share,
      - rebound/MarsRing/fragmentation/problem.c
      - rebound/MarsRing/mars_shearing_sheet/problem.c
    and the properties of it that the specification states.

    Numbers.  A C [double] is a real number here: the embedding is the
    program in exact real arithmetic.  Where the program relies on the
    IEEE values a real number cannot carry (an infinity from [1./0], a
    NaN from [0/0] or from the square root of a negative number), the
    definition says so and writes the C behaviour out.  A C [int] is an
    integer of [Z].  The conversion of a double to [int] is written out
    with its range ([to_int]); the sums of [int]s are the exact sums, and
    a property that depends on the fragment counter is stated for counts
    that stay in the range of [int] ([counts_fit]).  Particle indices,
    which are never negative, are natural numbers.  A pointer to a particle
    is the index of the particle in the store, so that a write through
    [target] reaches the stored body also after bodies have been added.
    The character buffers that hold the names of the fragments are not
    modelled: the one call that misuses them ends the run (see
    [snprintf_name]), and the ten bytes the correction loop of the
    fragmentation file formats a name into bound the indices for which the
    properties of that loop are stated ([last_index]).

    The two files differ in a few places (sanity assertions, wrapping of new
    bodies into the periodic box, a null test in the correction loop, the
    call that names the second-largest remnant, the default of
    [min_frag_mass]); the [variant] argument selects the file. *)

From Stdlib Require Import Reals Lra Lia ZArith.
From stdpp Require Import base list.

Open Scope R_scope.

(** ** C arithmetic over the reals *)

(** [#define MIN(a, b) ((a) > (b) ? (b) : (a))] *)
Definition MIN (a b : R) : R := if Rgt_dec a b then b else a.

(** [#define MAX(a, b) ((a) > (b) ? (a) : (b))] *)
Definition MAX (a b : R) : R := if Rgt_dec a b then a else b.

(** [pow(x, y)] of <math.h> at an exponent that is not an integer
    (the program uses 1./3., .5, 1.5, -1.5 and 2.5).  For a positive base
    it is [exp (y * ln x)]; [pow(0, y)] is 0 for the positive exponents.  A
    negative base gives NaN in C and [pow(0, -1.5)] gives an infinity:
    there the embedding returns 0 and is outside exact real arithmetic.
    Calls with the integer exponents 2 and 3 are written [x ^ 2], [x ^ 3]. *)
Definition powr (x y : R) : R := if Rlt_dec 0 x then Rpower x y else 0.

(** Truncation towards zero. *)
Definition trunc (x : R) : Z :=
  if Rle_dec 0 x then Int_part x else (- Int_part (- x))%Z.

(** The range of a C [int]. *)
Definition INT_MIN : Z := -2147483648.
Definition INT_MAX : Z := 2147483647.

(** The conversion [(int) x] of a double: truncation towards zero where
    the truncated value is in the range of [int].  For a value out of range
    the C standard leaves the conversion undefined; the conversion
    instruction of x86-64 returns [INT_MIN] then, and so does the
    embedding. *)
Definition to_int (x : R) : Z :=
  if decide (INT_MIN <= trunc x <= INT_MAX)%Z then trunc x else INT_MIN.

(** [(int)(a / b)].  For [b = 0] the quotient of the doubles is an infinity
    or a NaN, which is converted as a value out of range is. *)
Definition quotient_to_int (a b : R) : Z :=
  if Req_dec_T b 0 then INT_MIN else to_int (a / b).

(** [floor(x)] of <math.h>. *)
Definition floor (x : R) : R := IZR (Int_part x).

(** ** The host simulation (REBOUND)

    The particle store and its operations belong to the REBOUND library,
    whose sources are not part of the two problem files.  Only the fields
    and operations the resolver touches are modelled. *)
Module Rebound.

(** The [hash] of a particle.  The resolver names every body it creates
    "FRAG<i>" and looks bodies up by [reb_hash] of that name; the hash is
    taken collision-free, so the name stands for its hash. *)
Inductive reb_hash_t : Type :=
  | FRAG (i : Z)          (* reb_hash("FRAG%d") *)
  | NAMED (k : Z).        (* any other identifier *)

#[export] Instance reb_hash_eq_dec : EqDecision reb_hash_t.
Proof. solve_decision. Defined.

(** [struct reb_particle]. *)
Record reb_particle : Type := Particle {
  x : R; y : R; z : R;
  vx : R; vy : R; vz : R;
  m : R;
  r : R;
  last_collision : R;
  hash : reb_hash_t }.

(** [struct reb_particle p = {0}]. *)
Definition zero_particle : reb_particle :=
  Particle 0 0 0 0 0 0 0 0 0 (NAMED 0).

#[export] Instance reb_particle_inhabited : Inhabited reb_particle :=
  populate zero_particle.

(** [struct reb_simulation]: time, gravitational constant, the particle
    array (its length is [r->N]) and the extents of the periodic box. *)
Record reb_simulation : Type := Simulation {
  t : R;
  G : R;
  particles : list reb_particle;
  boxsize_x : R;
  boxsize_y : R }.

(** [struct reb_collision]: the indices of the two colliding particles. *)
Record reb_collision : Type := Collision { p1 : nat; p2 : nat }.

Definition N (sim : reb_simulation) : nat := length (particles sim).

Definition set_particles (sim : reb_simulation) (ps : list reb_particle)
  : reb_simulation :=
  Simulation (t sim) (G sim) ps (boxsize_x sim) (boxsize_y sim).

(** [r->particles[i]]; the host only reports indices of stored particles. *)
Definition particle_at (sim : reb_simulation) (i : nat) : reb_particle :=
  particles sim !!! i.

(** Modelled from the spec: [reb_particle_com_of_pair], a REBOUND function
    that is not among the sources.  The specification calls its result
    "the pair's center of mass" and "the true center-of-mass
    position/velocity of the original pair": the mass-weighted mean of the
    positions and of the velocities, with the total mass. *)
Definition reb_particle_com_of_pair (a b : reb_particle) : reb_particle :=
  let mt := m a + m b in
  Particle ((x a * m a + x b * m b) / mt)
           ((y a * m a + y b * m b) / mt)
           ((z a * m a + z b * m b) / mt)
           ((vx a * m a + vx b * m b) / mt)
           ((vy a * m a + vy b * m b) / mt)
           ((vz a * m a + vz b * m b) / mt)
           mt (r a) (last_collision a) (hash a).

(** Modelled from the spec: [reb_simulation_add], "the ability to append a
    new body" (the problem files read the new bodies back from the end of
    the array). *)
Definition reb_simulation_add (sim : reb_simulation) (p : reb_particle)
  : reb_simulation :=
  set_particles sim (particles sim ++ [p]).

(** Modelled from the spec: [reb_simulation_particle_by_hash], "lookup of a
    body by identifier": the index of the first stored particle with that
    hash, or nothing (a null pointer). *)
Definition reb_simulation_particle_by_hash (sim : reb_simulation)
    (h : reb_hash_t) : option nat :=
  fst <$> list_find (fun p => hash p = h) (particles sim).

End Rebound.

Import Rebound.

(** The two problem files. *)
Inductive variant : Type :=
  | Fragmentation     (* rebound/MarsRing/fragmentation/problem.c *)
  | ShearingSheet.    (* rebound/MarsRing/mars_shearing_sheet/problem.c *)

(** [double min_frag_mass = 1.4e-8;] and [= 1.0e-8;] *)
Definition default_min_frag_mass (v : variant) : R :=
  match v with Fragmentation => 1.4e-8 | ShearingSheet => 1.0e-8 end.

(** ** [struct collision_params] *)
Module Params.

Record collision_params : Type := CollisionParams {
  target : nat;
  projectile : nat;
  dx : R; dy : R; dz : R;
  b : R;
  Vix : R; Viy : R; Viz : R;
  Vi : R;
  l : R;
  rho1 : R;
  cstar : R;
  mu : R;
  QR : R;
  QpRD : R;
  V_esc : R;
  separation_distance : R;
  Mlr : R;
  Mslr : R;
  Q : R;
  Mlr_dag : R;
  Q_star : R;
  vrel : R;
  xrel : R;
  collision_type : Z;
  no_frags : Z }.

(** [params->Mlr = v;] *)
Definition set_Mlr (p : collision_params) (v : R) : collision_params :=
  CollisionParams (target p) (projectile p) (dx p) (dy p) (dz p) (b p)
    (Vix p) (Viy p) (Viz p) (Vi p) (l p) (rho1 p) (cstar p) (mu p) (QR p)
    (QpRD p) (V_esc p) (separation_distance p) v (Mslr p) (Q p)
    (Mlr_dag p) (Q_star p) (vrel p) (xrel p) (collision_type p) (no_frags p).

(** [params->Mslr = v;] *)
Definition set_Mslr (p : collision_params) (v : R) : collision_params :=
  CollisionParams (target p) (projectile p) (dx p) (dy p) (dz p) (b p)
    (Vix p) (Viy p) (Viz p) (Vi p) (l p) (rho1 p) (cstar p) (mu p) (QR p)
    (QpRD p) (V_esc p) (separation_distance p) (Mlr p) v (Q p)
    (Mlr_dag p) (Q_star p) (vrel p) (xrel p) (collision_type p) (no_frags p).

(** [params->collision_type = k;] *)
Definition set_collision_type (p : collision_params) (k : Z)
  : collision_params :=
  CollisionParams (target p) (projectile p) (dx p) (dy p) (dz p) (b p)
    (Vix p) (Viy p) (Viz p) (Vi p) (l p) (rho1 p) (cstar p) (mu p) (QR p)
    (QpRD p) (V_esc p) (separation_distance p) (Mlr p) (Mslr p) (Q p)
    (Mlr_dag p) (Q_star p) (vrel p) (xrel p) k (no_frags p).

(** [params->no_frags = n;] *)
Definition set_no_frags (p : collision_params) (n : Z) : collision_params :=
  CollisionParams (target p) (projectile p) (dx p) (dy p) (dz p) (b p)
    (Vix p) (Viy p) (Viz p) (Vi p) (l p) (rho1 p) (cstar p) (mu p) (QR p)
    (QpRD p) (V_esc p) (separation_distance p) (Mlr p) (Mslr p) (Q p)
    (Mlr_dag p) (Q_star p) (vrel p) (xrel p) (collision_type p) n.

End Params.

Import Params.

(** ** Program state and results *)

(** One line of "collision_report.txt", as [print_collision_array] writes
    it: time, outcome code, hash and mass of the target, hash of the
    projectile, then hash and mass of the last [no_frags] particles. *)
Record report_line : Type := ReportLine {
  rep_t : R;
  rep_type : Z;
  rep_target_hash : reb_hash_t;
  rep_target_m : R;
  rep_projectile_hash : reb_hash_t;
  rep_fragments : list (reb_hash_t * R) }.

(** The simulation together with the globals of the problem file and the
    report file.  What [printf] writes to the terminal is not modelled. *)
Record state : Type := State {
  sim : reb_simulation;
  min_frag_mass : R;
  tot_no_frags : Z;
  report : list report_line }.

Definition set_sim (s : state) (sm : reb_simulation) : state :=
  State sm (min_frag_mass s) (tot_no_frags s) (report s).

(** Why a run stops inside the resolver.  The first four are exits of the
    program.  The last two are places where the behaviour of the program is
    not defined by the C language: the embedding follows the program no
    further, and what is proved of a call that returns is proved of the
    calls that do not come by these places. *)
Inductive halt : Type :=
  | Exit_NaN_b               (* printf("NAN b \n"); exit(0); *)
  | Assert_min_frag_mass     (* assert(min_frag_mass > 0.0) *)
  | Assert_remaining_mass    (* assert(remaining_mass > 0.0) *)
  | Assert_no_frags          (* assert(no_frags > 0 && no_frags < 1000000) *)
  | Uninitialised_rho1       (* rho1 read without having been assigned *)
  | Undefined_snprintf.      (* snprintf called without its size argument *)

(** A call either returns a value in a new state or stops the run. *)
Inductive result (A : Type) : Type :=
  | Done (a : A) (s : state)
  | Stop (h : halt).
Arguments Done {A} a s.
Arguments Stop {A} h.

(** ** Vector and geometry utilities *)

Definition make_vector (x1 y1 z1 x2 y2 z2 : R) : R * R * R :=
  (x1 - x2, y1 - y2, z1 - z2).

Definition get_dot (x1 y1 z1 x2 y2 z2 : R) : R :=
  (x1 * x2) + (y1 * y2) + (z1 * z2).

Definition get_mag (x y z : R) : R := sqrt (x ^ 2 + y ^ 2 + z ^ 2).

Definition get_radii (m rho : R) : R := powr ((3 * m) / (4 * PI * rho)) (1 / 3).

(** ** The merge operator *)

(** [merge]: the target (index [params->target]) is overwritten in place. *)
Definition merge (s : state) (params : collision_params) : state :=
  let pi := particle_at (sim s) (target params) in
  let pj := particle_at (sim s) (projectile params) in
  let invmass := 1 / (m pi + m pj) in
  let targ_rho := m pi / (4 / 3 * PI * r pi ^ 3) in
  let vx' := (vx pi * m pi + vx pj * m pj) * invmass in
  let vy' := (vy pi * m pi + vy pj * m pj) * invmass in
  let vz' := (vz pi * m pi + vz pj * m pj) * invmass in
  let x' := (x pi * m pi + x pj * m pj) * invmass in
  let y' := (y pi * m pi + y pj * m pj) * invmass in
  let z' := (z pi * m pi + z pj * m pj) * invmass in
  let m' := m pi + m pj in
  let r' := powr ((3 * m') / (4 * PI * targ_rho)) (1 / 3) in
  let pi' := Particle x' y' z' vx' vy' vz' m' r' (t (sim s)) (hash pi) in
  set_sim s (set_particles (sim s) (<[target params := pi']> (particles (sim s)))).

(** ** Comparisons of doubles and assertions *)

#[export] Instance Rlt_decision (a b : R) : Decision (a < b) := Rlt_dec a b.
#[export] Instance Rle_decision (a b : R) : Decision (a <= b) := Rle_dec a b.
#[export] Instance Rgt_decision (a b : R) : Decision (a > b) := Rgt_dec a b.
#[export] Instance Rge_decision (a b : R) : Decision (a >= b) := Rge_dec a b.
#[export] Instance Req_decision : EqDecision R := Req_dec_T.

(** [assert(P)] of the shearing-sheet file: the run stops when [P] fails.
    The fragmentation file has no assertion at these places. *)
Definition c_assert {A : Type} (v : variant) (P : Prop) `{Decision P}
    (h : halt) (k : result A) : result A :=
  match v with
  | ShearingSheet => if decide P then k else Stop h
  | Fragmentation => k
  end.

(** The name of the second-largest remnant.  The shearing-sheet file
    writes it with [snprintf(hash, sizeof(hash), "FRAG%d", tot_no_frags+1)].
    The fragmentation file calls [snprintf(hash,"FRAG%d", tot_no_frags+1)]:
    the format string stands where the size is expected and the integer
    where the format is expected.  The behaviour of that call is undefined
    (it reads a format string at the address [tot_no_frags+1]); the
    embedding ends the run there. *)
Definition snprintf_name {A : Type} (v : variant) (big_frags : Z)
    (k : result A) : result A :=
  match v with
  | ShearingSheet => k
  | Fragmentation =>
      if decide (big_frags = 1%Z) then Stop Undefined_snprintf else k
  end.

(** ** The fragment synthesizer *)

Definition vec3 : Type := R * R * R.

(** [sum[0] += m*px; sum[1] += m*py; sum[2] += m*pz;] *)
Definition add_weighted (sum : vec3) (mass px py pz : R) : vec3 :=
  let '(s0, s1, s2) := sum in
  (s0 + mass * px, s1 + mass * py, s2 + mass * pz).

(** The unit vector along the relative velocity. *)
Definition unit_vi (params : collision_params) : vec3 :=
  (Vix params / vrel params, Viy params / vrel params, Viz params / vrel params).

(** The unit vector [o]: normal to the relative velocity in the collision
    plane, from [z = vrel x xrel] normalised and [o = z x vrel] normalised.
    For parallel relative position and velocity [z] is the null vector and
    the C program divides 0 by 0: the coordinates are NaN there, which a
    real number cannot carry, and the properties of the bodies placed with
    [o] are stated for pairs that are not parallel ([oblique]). *)
Definition unit_o (params : collision_params) : vec3 :=
  let zx := Viy params * dz params - Viz params * dy params in
  let zy := Viz params * dx params - Vix params * dz params in
  let zz := Vix params * dy params - Viy params * dx params in
  let z := get_mag zx zy zz in
  let zx := zx / z in
  let zy := zy / z in
  let zz := zz / z in
  let ox := zy * Viz params - zz * Viy params in
  let oy := zz * Vix params - zx * Viz params in
  let oz := zx * Viy params - zy * Vix params in
  let o := get_mag ox oy oz in
  (ox / o, oy / o, oz / o).

(** [double fragment_velocity = sqrt(1.1*pow(V_esc,2)
      - 2*r->G*initial_mass*(1./rtot - 1./separation_distance));] *)
Definition fragment_velocity (G initial_mass rtot : R)
    (params : collision_params) : R :=
  sqrt (1.1 * V_esc params ^ 2
        - 2 * G * initial_mass * (1 / rtot - 1 / separation_distance params)).

(** The wrap of a new body into the periodic box (shearing-sheet file only):
    [p.x -= Lx * floor((p.x + 0.5*Lx)/Lx);] and the same for [y]. *)
Definition wrap_into_box (v : variant) (sm : reb_simulation)
    (p : reb_particle) : reb_particle :=
  match v with
  | Fragmentation => p
  | ShearingSheet =>
      let Lx := boxsize_x sm in
      let Ly := boxsize_y sm in
      Particle (x p - Lx * floor ((x p + 0.5 * Lx) / Lx))
               (y p - Ly * floor ((y p + 0.5 * Ly) / Ly))
               (z p) (vx p) (vy p) (vz p) (m p) (r p)
               (last_collision p) (hash p)
  end.

(** The second-largest remnant [Slr1], placed at angle zero and named
    "FRAG<tot_no_frags+1>" (see [snprintf_name]). *)
Definition second_largest_remnant (com : reb_particle)
    (params : collision_params) (fv rho time : R) (tot : Z) : reb_particle :=
  let '(unit_vix, unit_viy, unit_viz) := unit_vi params in
  Particle (x com + separation_distance params * unit_vix)
           (y com + separation_distance params * unit_viy)
           (z com + separation_distance params * unit_viz)
           (vx com + fv * unit_vix)
           (vy com + fv * unit_viy)
           (vz com + fv * unit_viz)
           (Mslr params)
           (get_radii (Mslr params) rho)
           time
           (FRAG (tot + 1)).

(** The body of the fragment loop for index [i]: the fragment "FRAG<i>" at
    the angle [theta_inc * j], [j = i - new_beginning_frag_index + 1]. *)
Definition fragment (com : reb_particle) (params : collision_params)
    (fv rho time frag_mass theta_inc : R) (new_beginning_frag_index i : Z)
  : reb_particle :=
  let '(unit_vix, unit_viy, unit_viz) := unit_vi params in
  let '(ox, oy, oz) := unit_o params in
  let j := (i - new_beginning_frag_index + 1)%Z in
  let c := cos (theta_inc * IZR j) in
  let s := sin (theta_inc * IZR j) in
  Particle (x com + separation_distance params * (c * unit_vix + s * ox))
           (y com + separation_distance params * (c * unit_viy + s * oy))
           (z com + separation_distance params * (c * unit_viz + s * oz))
           (vx com + fv * (c * unit_vix + s * ox))
           (vy com + fv * (c * unit_viy + s * oy))
           (vz com + fv * (c * unit_viz + s * oz))
           frag_mass
           (get_radii frag_mass rho)
           time
           (FRAG i).

(** What the synthesizer carries through the creation of the new bodies:
    the two momentum sums and the simulation. *)
Definition synth : Type := vec3 * vec3 * reb_simulation.

(** A new body is counted in [mxsum] and [mvsum] at the place it was given,
    then wrapped into the box (shearing-sheet file) and added. *)
Definition add_body (v : variant) (acc : synth) (p : reb_particle) : synth :=
  let '(mxsum, mvsum, sm) := acc in
  (add_weighted mxsum (m p) (x p) (y p) (z p),
   add_weighted mvsum (m p) (vx p) (vy p) (vz p),
   reb_simulation_add sm (wrap_into_box v sm p)).

(** [q->x += xoff[0]*f; ... q->vz += voff[2]*f;] *)
Definition shift (xoff voff : vec3) (f : R) (q : reb_particle)
  : reb_particle :=
  let '(xoff0, xoff1, xoff2) := xoff in
  let '(voff0, voff1, voff2) := voff in
  Particle (x q + xoff0 * f) (y q + xoff1 * f) (z q + xoff2 * f)
           (vx q + voff0 * f) (vy q + voff1 * f) (vz q + voff2 * f)
           (m q) (r q) (last_collision q) (hash q).

(** The body of the correction loop for "FRAG<i>".  A hash that is not
    found is skipped in the shearing-sheet file; the fragmentation file
    dereferences the result without a test, on hashes that the same call
    has just added (see [correction_finds_every_fragment]).  The
    fragmentation file formats the name into ten bytes, which hold it up to
    "FRAG99999"; the buffer is not modelled, and the properties of the loop
    are stated for indices up to [last_index]. *)
Definition correct_fragment (xoff voff : vec3) (initial_mass : R)
    (sm : reb_simulation) (i : Z) : reb_simulation :=
  match reb_simulation_particle_by_hash sm (FRAG i) with
  | None => sm
  | Some k =>
      let q := particle_at sm k in
      let mass_fraction := m q / initial_mass in
      set_particles sm (<[k := shift xoff voff mass_fraction q]> (particles sm))
  end.

(** [add_fragments].  The returned parameters carry [params->no_frags]. *)
Definition add_fragments (v : variant) (s : state) (params : collision_params)
  : result collision_params :=
  let sm := sim s in
  let target := particle_at sm (Params.target params) in
  let projectile := particle_at sm (Params.projectile params) in
  let com := reb_particle_com_of_pair target projectile in
  let initial_mass := m target + m projectile in
  let remaining_mass := initial_mass - Mlr params in
  let rho := m target / (4 / 3 * PI * r target ^ 3) in
  let rtot := r target + r projectile in
  let remaining_mass :=
    if decide (Mslr params > 0) then remaining_mass - Mslr params
    else remaining_mass in
  let big_frags := if decide (Mslr params > 0) then 1%Z else 0%Z in
  c_assert v (min_frag_mass s > 0) Assert_min_frag_mass (
  c_assert v (remaining_mass > 0) Assert_remaining_mass (
  let no_frags := quotient_to_int remaining_mass (min_frag_mass s) in
  c_assert v (0 < no_frags < 1000000)%Z Assert_no_frags (
  let frag_mass := remaining_mass / IZR no_frags in
  let new_bodies := (no_frags + big_frags)%Z in
  let params := set_no_frags params new_bodies in
  (* the target takes Mlr and the place and velocity of the centre of mass;
     a single fragment at least as heavy as Mlr trades masses with it *)
  let swapped := decide (no_frags = 1%Z /\ Mlr params <= frag_mass) in
  let target_m := if swapped then frag_mass else Mlr params in
  let frag_mass := if swapped then Mlr params else frag_mass in
  let target :=
    Particle (x com) (y com) (z com) (vx com) (vy com) (vz com)
             target_m (get_radii target_m rho) (t sm) (hash target) in
  let sm := set_particles sm (<[Params.target params := target]> (particles sm)) in
  let mxsum := add_weighted (0, 0, 0) (m target) (x target) (y target) (z target) in
  let mvsum := add_weighted (0, 0, 0) (m target) (vx target) (vy target) (vz target) in
  let theta_inc := (2 * PI) / IZR new_bodies in
  let fv := fragment_velocity (G sm) initial_mass rtot params in
  snprintf_name v big_frags (
  let acc : synth := (mxsum, mvsum, sm) in
  let acc :=
    if decide (big_frags = 1%Z)
    then add_body v acc
           (second_largest_remnant com params fv rho (t sm) (tot_no_frags s))
    else acc in
  let new_beginning_frag_index := (tot_no_frags s + big_frags + 1)%Z in
  let '(mxsum, mvsum, sm) :=
    foldl (fun acc i =>
             add_body v acc
               (fragment com params fv rho (t sm) frag_mass theta_inc
                         new_beginning_frag_index i))
          acc (seqZ new_beginning_frag_index no_frags) in
  let tot := (tot_no_frags s + (big_frags + no_frags))%Z in
  (* the momentum correction *)
  let '(mx0, mx1, mx2) := mxsum in
  let '(mv0, mv1, mv2) := mvsum in
  let xoff : vec3 := (x com - mx0 / initial_mass, y com - mx1 / initial_mass,
                      z com - mx2 / initial_mass) in
  let voff : vec3 := (vx com - mv0 / initial_mass, vy com - mv1 / initial_mass,
                      vz com - mv2 / initial_mass) in
  let target :=
    Particle (x target + (x com - mx0 / initial_mass) * m target / initial_mass)
             (y target + (y com - mx1 / initial_mass) * m target / initial_mass)
             (z target + (z com - mx2 / initial_mass) * m target / initial_mass)
             (vx target + (vx com - mv0 / initial_mass) * m target / initial_mass)
             (vy target + (vy com - mv1 / initial_mass) * m target / initial_mass)
             (vz target + (vz com - mv2 / initial_mass) * m target / initial_mass)
             (m target) (r target) (last_collision target) (hash target) in
  let sm := set_particles sm (<[Params.target params := target]> (particles sm)) in
  let sm := foldl (correct_fragment xoff voff initial_mass) sm
                  (seqZ (tot - new_bodies + 1) new_bodies) in
  Done params (State sm (min_frag_mass s) tot (report s)))))).

(** Sequencing of calls that can stop the run. *)
Definition bind {A B : Type} (ra : result A) (k : A -> state -> result B)
  : result B :=
  match ra with
  | Done a s => k a s
  | Stop h => Stop h
  end.

(** ** The pairwise dynamics builder

    The local variables of [reb_collision_resolve_fragment], in the order of
    the source, for the gravitational constant [G], the heavier body [targ]
    (index [i]) and the lighter body [imp] (index [j]). *)
Module Dynamics.
Section Locals.

Variable G : R.
Variables targ imp : reb_particle.

Definition imp_r : R := r imp.
Definition targ_r : R := r targ.
Definition R_tot : R := imp_r + targ_r.
Definition imp_m : R := m imp.
Definition targ_m : R := m targ.
Definition M_tot : R := imp_m + targ_m.

Definition d : vec3 :=
  make_vector (x targ) (y targ) (z targ) (x imp) (y imp) (z imp).
Definition dx : R := d.1.1.
Definition dy : R := d.1.2.
Definition dz : R := d.2.
Definition x2rel : R := get_dot dx dy dz dx dy dz.

Definition V : vec3 :=
  make_vector (vx targ) (vy targ) (vz targ) (vx imp) (vy imp) (vz imp).
Definition Vix : R := V.1.1.
Definition Viy : R := V.1.2.
Definition Viz : R := V.2.
Definition v2rel : R := get_dot Vix Viy Viz Vix Viy Viz.

Definition xrel : R := sqrt x2rel.

Definition hx : R := dy * Viz - dz * Viy.
Definition hy : R := dz * Vix - dx * Viz.
Definition hz : R := dx * Viy - dy * Vix.
Definition h2 : R := get_dot hx hy hz hx hy hz.

(** [if (1./R_tot - 1./xrel < 0)]: the collision was detected after the
    physical contact.  For coincident centres [1./xrel] is [+inf] in C and
    the test holds. *)
Definition after_contact : Prop := xrel = 0 \/ 1 / R_tot - 1 / xrel < 0.

#[local] Instance after_contact_dec : Decision after_contact.
Proof. unfold after_contact; apply _. Defined.

(** [v2imp = v2rel + 2*G*M_tot*(1./R_tot - 1./xrel);
     if (1./R_tot - 1./xrel < 0) {v2imp = v2rel;}] *)
Definition v2imp : R :=
  if decide after_contact then v2rel
  else v2rel + 2 * G * M_tot * (1 / R_tot - 1 / xrel).

Definition Vi : R := sqrt v2imp.

(** [b = sqrt(h2/v2imp)], where it is a real number. *)
Definition b : R := sqrt (h2 / v2imp).

(** [b != b]: [b] is NaN.  With finite operands this is the quotient 0/0
    or the square root of a negative quotient. *)
Definition b_is_nan : Prop := (h2 = 0 /\ v2imp = 0) \/ h2 / v2imp < 0.

#[local] Instance b_is_nan_dec : Decision b_is_nan.
Proof. unfold b_is_nan; apply _. Defined.

Definition mu : R := (targ_m * imp_m) / M_tot.
Definition l : R := MIN (R_tot - b) (2 * imp_r).
Definition alpha : R := MIN 1 ((l ^ 2 * (3 * imp_r - l)) / (4 * imp_r ^ 3)).
Definition Q : R := 0.5 * v2imp * targ_m * imp_m / M_tot ^ 2.
Definition V_esc : R := powr (2 * G * M_tot / R_tot) 0.5.
Definition alphamu : R := (alpha * targ_m * imp_m) / (alpha * imp_m + targ_m).
Definition gamma : R := imp_m / targ_m.

Definition cstar : R := 1.8.

(** [double rho1; if (G==6.674e-8){rho1 =1;} if (G==6.674e-11){rho1 =1000;}
     if (G==39.476926421373 || G==1){rho1 = 1.684e6;}]: for any other [G]
    the variable stays unassigned. *)
Definition rho1 : option R :=
  let rho1 := None in
  let rho1 := if decide (G = 6.674e-8) then Some 1 else rho1 in
  let rho1 := if decide (G = 6.674e-11) then Some 1000 else rho1 in
  if decide (G = 39.476926421373 \/ G = 1) then Some 1.684e6 else rho1.

(** The variables that follow read [rho1]. *)
Variable rho : R.

Definition Rc1 : R := powr ((M_tot * 3) / (4 * PI * rho)) (1 / 3).
Definition Q0 : R := 0.8 * cstar * PI * rho * G * Rc1 ^ 2.

(** [Q_star], after the two overriding tests. *)
Definition Q_star : R :=
  let Q_star := powr (mu / alphamu) 1.5 * ((1 + gamma) ^ 2 / (4 * gamma)) * Q0 in
  let Q_star := if decide (alpha = 0) then 6364136223846793005 else Q_star in
  if decide (b = 0 /\ imp_m = targ_m) then Q0 else Q_star.

Definition qratio : R := Q / Q_star.

Definition Mlr : R :=
  if decide (qratio < 1.8) then M_tot * (1 - 0.5 * qratio)
  else 0.1 * M_tot * powr (qratio / 1.8) (-1.5).

Definition separation_distance : R := 4 * R_tot.

End Locals.
End Dynamics.

(** [create_collision_params] followed by the assignments that populate the
    structure, for target index [i] and projectile index [j].  The run ends
    here when [b] is NaN.  For a gravitational constant other than the four
    the source tests, the program goes on with whatever the unassigned
    [rho1] holds: that value is not determined, and the embedding stops
    there ([Uninitialised_rho1]). *)
Definition build_params (s : state) (i j : nat) : result collision_params :=
  let G := G (sim s) in
  let targ := particle_at (sim s) i in
  let imp := particle_at (sim s) j in
  if decide (Dynamics.b_is_nan G targ imp) then Stop Exit_NaN_b
  else
    match Dynamics.rho1 G with
    | None => Stop Uninitialised_rho1
    | Some rho1 =>
        Done (CollisionParams i j
                (Dynamics.dx targ imp) (Dynamics.dy targ imp) (Dynamics.dz targ imp)
                (Dynamics.b G targ imp)
                (Dynamics.Vix targ imp) (Dynamics.Viy targ imp) (Dynamics.Viz targ imp)
                (Dynamics.Vi G targ imp)
                (Dynamics.l G targ imp)
                rho1
                Dynamics.cstar
                (Dynamics.mu targ imp)
                0 0
                (Dynamics.V_esc G targ imp)
                (Dynamics.separation_distance targ imp)
                (Dynamics.Mlr G targ imp rho1)
                0
                (Dynamics.Q G targ imp)
                0 0
                (sqrt (Dynamics.v2rel targ imp))
                (Dynamics.xrel targ imp)
                0 0) s
    end.

(** [print_collision_array]: one more line in the report. *)
Definition print_collision_array (s : state) (params : collision_params)
  : state :=
  let sm := sim s in
  let line :=
    ReportLine (t sm) (collision_type params)
      (hash (particle_at sm (target params)))
      (m (particle_at sm (target params)))
      (hash (particle_at sm (projectile params)))
      ((fun q => (hash q, m q)) <$>
         drop (N sm - Z.to_nat (no_frags params)) (particles sm)) in
  State sm (min_frag_mass s) (tot_no_frags s) (report s ++ [line]).

Section Resolver.

(** The hard-sphere restitution resolver of REBOUND, called for an elastic
    bounce; it belongs to the host and is a parameter here. *)
Variable reb_collision_resolve_hardsphere :
  reb_simulation -> reb_collision -> reb_simulation.

(** [hit_and_run]: returns [swap] and the parameters. *)
Definition hit_and_run (v : variant) (s : state) (c : reb_collision)
    (params : collision_params) : result (Z * collision_params) :=
  let sm := sim s in
  let target := particle_at sm (Params.target params) in
  let projectile := particle_at sm (Params.projectile params) in
  let swap :=
    if decide (m (particle_at sm (p1 c)) < m (particle_at sm (p2 c)))
    then 1%Z else 2%Z in
  let phi := 2 * acos ((l params - r projectile) / r projectile) in
  let A_interact := r projectile ^ 2 * (PI - (phi - sin phi) / 2) in
  let L_interact :=
    2 * powr (r target ^ 2 - (r target - l params / 2) ^ 2) 0.5 in
  let beta := (A_interact * L_interact) / m target in
  let Rc1 :=
    powr (3 / (4 * PI * rho1 params) * (beta * m target + m projectile)) (1 / 3) in
  let Q0 := 0.8 * cstar params * PI * rho1 params * G sm * Rc1 ^ 2 in
  let gamma := (beta * m target) / m projectile in
  let Q_star := ((1 + gamma) ^ 2 / 4 * gamma) * Q0 in
  let mu := (beta * m target * m projectile) / (beta * m target + m projectile) in
  let Q := 0.5 * (mu * Vi params ^ 2) / (beta * m target + m projectile) in
  let c1 := 2.43 in
  let c2 := -0.0408 in
  let c3 := 1.86 in
  let c4 := 1.08 in
  let targ_m := m target in
  let imp_m := m projectile in
  let zeta := ((targ_m - imp_m) / (targ_m + imp_m)) ^ 2 in
  let fac := powr (1 - b params / (r target + r projectile)) 2.5 in
  let v_crit := V_esc params * (c1 * zeta * fac + c2 * zeta + c3 * fac + c4) in
  if decide (Vi params <= v_crit) then
    (* GRAZE AND MERGE *)
    let params := set_collision_type params 1 in
    Done (swap, params) (merge s params)
  else
    let params := set_Mlr params (MAX (Mlr params) (min_frag_mass s)) in
    if decide (Mlr params < targ_m) then
      if decide (targ_m + imp_m - Mlr params <= min_frag_mass s) then
        (* ELASTIC BOUNCE *)
        let params := set_collision_type params 0 in
        Done (0%Z, params) (set_sim s (reb_collision_resolve_hardsphere sm c))
      else
        (* GRAZING PARTIAL EROSION *)
        let params := set_collision_type params 3 in
        bind (add_fragments v s params) (fun params s => Done (swap, params) s)
    else
      let Mlr_dag :=
        (beta * m target + m projectile) / 10 * powr (Q / (1.8 * Q_star)) (-1.5) in
      let Mlr_dag :=
        if decide (Q < 1.8 * Q_star)
        then (beta * targ_m + imp_m) * (1 - Q / (2 * Q_star))
        else Mlr_dag in
      let projectile_mass_accreted := Mlr params - targ_m in
      let new_projectile_mass := m projectile - projectile_mass_accreted in
      let Mlr_dag := MAX Mlr_dag (min_frag_mass s) in
      if decide (new_projectile_mass - Mlr_dag < min_frag_mass s) then
        (* ELASTIC BOUNCE *)
        let params := set_collision_type params 0 in
        Done (0%Z, params) (set_sim s (reb_collision_resolve_hardsphere sm c))
      else
        (* HIT AND RUN *)
        let params := set_Mslr params Mlr_dag in
        let params := set_collision_type params 2 in
        bind (add_fragments v s params) (fun params s => Done (swap, params) s).

(** The classification at the end of [reb_collision_resolve_fragment] and
    the operator each branch calls.  [Mlr] is the local variable of that
    name, which [params->Mlr] equals on entry. *)
Definition resolve_outcome (v : variant) (s : state) (c : reb_collision)
    (params : collision_params) (swap : Z) : result (Z * collision_params) :=
  let sm := sim s in
  let targ := particle_at sm (target params) in
  let imp := particle_at sm (projectile params) in
  let Vi := Vi params in
  let V_esc := V_esc params in
  let b := b params in
  let targ_r := Dynamics.targ_r targ in
  let targ_m := Dynamics.targ_m targ in
  let M_tot := Dynamics.M_tot targ imp in
  let Mlr := Mlr params in
  if decide (Vi <= V_esc) then
    (* SIMPLY MERGED *)
    let params := set_collision_type params 1 in
    Done (swap, params) (merge s params)
  else if decide (b < targ_r) then
    if decide (M_tot - Params.Mlr params < min_frag_mass s) then
      (* EFFECTIVELY MERGED *)
      let params := set_collision_type params 1 in
      Done (swap, params) (merge s params)
    else if decide (Params.Mlr params < targ_m) then
      if decide (Params.Mlr params <= 0.1 * targ_m) then
        (* SUPER-CATASTROPHIC *)
        let params := set_collision_type params 4 in
        let params := set_Mlr params (MAX Mlr (min_frag_mass s)) in
        bind (add_fragments v s params) (fun params s => Done (swap, params) s)
      else
        (* PARTIAL EROSION *)
        let params := set_collision_type params 3 in
        let params := set_Mlr params (MAX Mlr (min_frag_mass s)) in
        bind (add_fragments v s params) (fun params s => Done (swap, params) s)
    else
      (* PARTIAL ACCRETION *)
      let params := set_collision_type params 2 in
      bind (add_fragments v s params) (fun params s => Done (swap, params) s)
  else
    hit_and_run v s c params.

(** [reb_collision_resolve_fragment]: the disposition code, 0 for "keep
    both", 1 for "remove c.p1", 2 for "remove c.p2". *)
Definition reb_collision_resolve_fragment (v : variant) (s : state)
    (c : reb_collision) : result Z :=
  let sm := sim s in
  if decide (last_collision (particle_at sm (p1 c)) = t sm
             \/ last_collision (particle_at sm (p2 c)) = t sm)
  then Done 0%Z s
  else
    let i := p1 c in
    let j := p2 c in
    if decide (i < j)%nat then Done 0%Z s
    else
      let lighter := decide (m (particle_at sm i) < m (particle_at sm j)) in
      let swap := if lighter then 1%Z else 2%Z in
      let i := if lighter then p2 c else p1 c in
      let j := if lighter then p1 c else p2 c in
      bind (build_params s i j) (fun params s =>
      bind (resolve_outcome v s c params swap) (fun '(swap, params) s =>
      Done swap (print_collision_array s params))).

End Resolver.

(** ** The statements of the specification *)

(** The terminal outcomes of the collision classifier (section 4.2); the
    last one hands the event to the hit-and-run sub-resolver. *)
Inductive outcome : Type :=
  | Merge
  | EffectiveMerge
  | SuperCatastrophic
  | PartialErosion
  | PartialAccretion
  | HitAndRunDelegated.

(** The transition rules of section 4.2, each with the conditions under
    which the specification reaches it. *)
Inductive classifies (Vi V_esc b r_target Mtot Mlr m_target min_fragment_mass : R)
  : outcome -> Prop :=
  | rule_merge :
      Vi <= V_esc ->
      classifies Vi V_esc b r_target Mtot Mlr m_target min_fragment_mass Merge
  | rule_effective_merge :
      ~ Vi <= V_esc -> b < r_target -> Mtot - Mlr < min_fragment_mass ->
      classifies Vi V_esc b r_target Mtot Mlr m_target min_fragment_mass
        EffectiveMerge
  | rule_super_catastrophic :
      ~ Vi <= V_esc -> b < r_target -> ~ Mtot - Mlr < min_fragment_mass ->
      Mlr < m_target -> Mlr <= 0.1 * m_target ->
      classifies Vi V_esc b r_target Mtot Mlr m_target min_fragment_mass
        SuperCatastrophic
  | rule_partial_erosion :
      ~ Vi <= V_esc -> b < r_target -> ~ Mtot - Mlr < min_fragment_mass ->
      Mlr < m_target -> Mlr > 0.1 * m_target ->
      classifies Vi V_esc b r_target Mtot Mlr m_target min_fragment_mass
        PartialErosion
  | rule_partial_accretion :
      ~ Vi <= V_esc -> b < r_target -> ~ Mtot - Mlr < min_fragment_mass ->
      Mlr >= m_target ->
      classifies Vi V_esc b r_target Mtot Mlr m_target min_fragment_mass
        PartialAccretion
  | rule_hit_and_run :
      ~ Vi <= V_esc -> b >= r_target ->
      classifies Vi V_esc b r_target Mtot Mlr m_target min_fragment_mass
        HitAndRunDelegated.

Section Operators.

Variable reb_collision_resolve_hardsphere :
  reb_simulation -> reb_collision -> reb_simulation.

(** The operator the resolver runs for each outcome: the merge operator,
    the fragment synthesizer (after the clamp of [Mlr] for the two erosive
    outcomes), or the hit-and-run sub-resolver. *)
Definition apply_outcome (v : variant) (s : state) (c : reb_collision)
    (params : collision_params) (swap : Z) (k : outcome)
  : result (Z * collision_params) :=
  let synthesize params :=
    bind (add_fragments v s params) (fun params s => Done (swap, params) s) in
  let clamp params := set_Mlr params (MAX (Mlr params) (min_frag_mass s)) in
  match k with
  | Merge | EffectiveMerge =>
      let params := set_collision_type params 1 in
      Done (swap, params) (merge s params)
  | SuperCatastrophic => synthesize (clamp (set_collision_type params 4))
  | PartialErosion => synthesize (clamp (set_collision_type params 3))
  | PartialAccretion => synthesize (set_collision_type params 2)
  | HitAndRunDelegated =>
      hit_and_run reb_collision_resolve_hardsphere v s c params
  end.

End Operators.

(** The critical disruption energy of section 4.1 without its two special
    cases: [(mu / alpha_mu) ^ 1.5 * (1 + gamma) ^ 2 / (4 * gamma) * Q0]. *)
Definition Q_star_general (G : R) (targ imp : reb_particle) (rho : R) : R :=
  powr (Dynamics.mu targ imp / Dynamics.alphamu G targ imp) 1.5
  * ((1 + Dynamics.gamma targ imp) ^ 2 / (4 * Dynamics.gamma targ imp))
  * Dynamics.Q0 G targ imp rho.

(** The "effectively-infinite sentinel value" of the critical energy. *)
Definition Q_star_sentinel : R := 6364136223846793005.

(** ** The synthesizer, variable by variable

    The local variables of [add_fragments] as functions of the state and
    the parameters it is called with, and the state it returns;
    [add_fragments_eq] below proves that the function computes them. *)
Module Synth.
Section Locals.

Variable v : variant.
Variable s : state.
Variable params : collision_params.

Definition target : reb_particle := particle_at (sim s) (Params.target params).
Definition projectile : reb_particle :=
  particle_at (sim s) (Params.projectile params).
Definition com : reb_particle := reb_particle_com_of_pair target projectile.
Definition initial_mass : R := m target + m projectile.
Definition rho : R := m target / (4 / 3 * PI * r target ^ 3).
Definition rtot : R := r target + r projectile.
Definition big_frags : Z := if decide (Mslr params > 0) then 1%Z else 0%Z.
Definition remaining_mass : R :=
  if decide (Mslr params > 0) then initial_mass - Mlr params - Mslr params
  else initial_mass - Mlr params.
Definition no_frags : Z := quotient_to_int remaining_mass (min_frag_mass s).
Definition new_bodies : Z := (no_frags + big_frags)%Z.

(** The single fragment and the target trade masses. *)
Definition swapped : Prop :=
  no_frags = 1%Z /\ Mlr params <= remaining_mass / IZR no_frags.
Definition target_mass : R :=
  if decide swapped then remaining_mass / IZR no_frags else Mlr params.
Definition frag_mass : R :=
  if decide swapped then Mlr params else remaining_mass / IZR no_frags.

(** The target as it enters the momentum sums. *)
Definition placed_target : reb_particle :=
  Particle (x com) (y com) (z com) (vx com) (vy com) (vz com)
           target_mass (get_radii target_mass rho) (t (sim s)) (hash target).

Definition fv : R := fragment_velocity (G (sim s)) initial_mass rtot params.

(** The new bodies in the order of their creation, as they enter the sums
    (before the wrap into the box). *)
Definition created : list reb_particle :=
  (if decide (Mslr params > 0)
   then [second_largest_remnant com params fv rho (t (sim s)) (tot_no_frags s)]
   else [])
  ++ ((fun i => fragment com params fv rho (t (sim s)) frag_mass
                  (2 * PI / IZR new_bodies) (tot_no_frags s + big_frags + 1) i)
        <$> seqZ (tot_no_frags s + big_frags + 1) no_frags).

Definition sum_positions (acc : vec3) (bodies : list reb_particle) : vec3 :=
  foldl (fun a p => add_weighted a (m p) (x p) (y p) (z p)) acc bodies.
Definition sum_velocities (acc : vec3) (bodies : list reb_particle) : vec3 :=
  foldl (fun a p => add_weighted a (m p) (vx p) (vy p) (vz p)) acc bodies.

Definition mxsum : vec3 := sum_positions (0, 0, 0) (placed_target :: created).
Definition mvsum : vec3 := sum_velocities (0, 0, 0) (placed_target :: created).
Definition xoff : vec3 :=
  (x com - mxsum.1.1 / initial_mass, y com - mxsum.1.2 / initial_mass,
   z com - mxsum.2 / initial_mass).
Definition voff : vec3 :=
  (vx com - mvsum.1.1 / initial_mass, vy com - mvsum.1.2 / initial_mass,
   vz com - mvsum.2 / initial_mass).

Definition corrected_target : reb_particle :=
  Particle (x com + xoff.1.1 * target_mass / initial_mass)
           (y com + xoff.1.2 * target_mass / initial_mass)
           (z com + xoff.2 * target_mass / initial_mass)
           (vx com + voff.1.1 * target_mass / initial_mass)
           (vy com + voff.1.2 * target_mass / initial_mass)
           (vz com + voff.2 * target_mass / initial_mass)
           target_mass (get_radii target_mass rho) (t (sim s)) (hash target).

(** The simulation when the correction loop starts. *)
Definition before_correction : reb_simulation :=
  set_particles (sim s)
    (<[Params.target params := corrected_target]>
       (<[Params.target params := placed_target]> (particles (sim s))
        ++ (wrap_into_box v (sim s) <$> created))).

Definition tot : Z := (tot_no_frags s + (big_frags + no_frags))%Z.

(** The state [add_fragments] returns. *)
Definition final : state :=
  State (foldl (correct_fragment xoff voff initial_mass) before_correction
               (seqZ (tot - new_bodies + 1) new_bodies))
        (min_frag_mass s) tot (report s).

End Locals.
End Synth.

(** How a call of the synthesizer is entered: with the two bodies of the
    event and, when the minimum fragment mass is positive and the clamped
    remnant mass was not negative, with a residual mass that is not
    negative. *)
Definition synthesis_of (v : variant) (s : state) (params pf p' : collision_params)
    (s1 : state) : Prop :=
  add_fragments v s pf = Done p' s1
  /\ target pf = target params /\ projectile pf = projectile params
  /\ V_esc pf = V_esc params
  /\ separation_distance pf = separation_distance params
  /\ (0 < min_frag_mass s -> 0 <= Mlr params ->
      0 <= Synth.remaining_mass s pf).

(** The state with another report file. *)
Definition set_report (s : state) (rep : list report_line) : state :=
  State (sim s) (min_frag_mass s) (tot_no_frags s) rep.

(** A change of the state a call returns. *)
Definition on_state {A : Type} (g : state -> state) (ra : result A)
  : result A :=
  match ra with
  | Done a s => Done a (g s)
  | Stop h => Stop h
  end.

(** ** Masses, survivors and created bodies *)

Definition total_mass (bodies : list reb_particle) : R :=
  foldr Rplus 0 (m <$> bodies).

(** The bodies the host keeps after a call that returned the disposition
    code [d] for the event [c]: code 1 discards [c.p1], code 2 discards
    [c.p2], code 0 discards nothing. *)
Definition survivors (d : Z) (c : reb_collision) (bodies : list reb_particle)
  : list reb_particle :=
  if decide (d = 1%Z) then delete (p1 c) bodies
  else if decide (d = 2%Z) then delete (p2 c) bodies
  else bodies.

(** The hashes of the bodies a call added to the store. *)
Definition created_by (s s' : state) : list reb_hash_t :=
  hash <$> drop (N (sim s)) (particles (sim s')).

(** The sum of [m * f] over some bodies. *)
Definition weighted_sum (f : reb_particle -> R) (bodies : list reb_particle)
  : R :=
  foldr (fun p acc => m p * f p + acc) 0 bodies.

(** What the resolver relies on in the hard-sphere resolver of the host: it
    keeps the time, the number of particles and their masses, and it either
    leaves the simulation as it is (the bodies do not approach) or stamps
    the two bodies with the current time. *)
Definition hardsphere_contract
    (hardsphere : reb_simulation -> reb_collision -> reb_simulation) : Prop :=
  forall (sm : reb_simulation) (c : reb_collision),
    t (hardsphere sm c) = t sm
    /\ m <$> particles (hardsphere sm c) = m <$> particles sm
    /\ (hardsphere sm c = sm
        \/ (last_collision (particle_at (hardsphere sm c) (p1 c)) = t sm
            /\ last_collision (particle_at (hardsphere sm c) (p2 c)) = t sm)).

(** An event the host can report: two stored bodies of positive mass, and a
    positive minimum fragment mass. *)
Definition valid_event (s : state) (c : reb_collision) : Prop :=
  (p1 c < N (sim s))%nat /\ (p2 c < N (sim s))%nat
  /\ 0 < m (particle_at (sim s) (p1 c))
  /\ 0 < m (particle_at (sim s) (p2 c))
  /\ 0 < min_frag_mass s.

(** The last index a call may reach.  The correction loop of the
    fragmentation file formats the name with [sprintf] into [char frag[10]],
    which holds the names up to "FRAG99999"; the shearing-sheet file formats
    it with [snprintf] into twenty bytes, and there the bound is the range
    of [int], less the one by which the loops count past the last index. *)
Definition last_index (v : variant) : Z :=
  match v with
  | Fragmentation => 99999
  | ShearingSheet => INT_MAX - 1
  end.

(** The counts of a call stay in range: the fragment counter is not
    negative, and the counter, advanced by the name of a second-largest
    remnant and by as many fragments as the mass of the pair can make, does
    not pass [last_index]. *)
Definition counts_fit (v : variant) (s : state) (c : reb_collision) : Prop :=
  (0 <= tot_no_frags s)%Z
  /\ IZR (tot_no_frags s) + 1
     + (m (particle_at (sim s) (p1 c)) + m (particle_at (sim s) (p2 c)))
       / min_frag_mass s
     <= IZR (last_index v).

Section Runs.

Variable hardsphere : reb_simulation -> reb_collision -> reb_simulation.
Variable v : variant.

(** A run of the host: it resolves collision events whose counts stay in
    range and, in between, does anything to the simulation (integration,
    removal of discarded bodies) that leaves the fragment counter alone.
    [run s ids s'] collects the hashes of the bodies the resolver created
    on the way from [s] to [s']. *)
Inductive run : state -> list reb_hash_t -> state -> Prop :=
  | run_stop (s : state) : run s [] s
  | run_resolve (s s' s'' : state) (c : reb_collision) (d : Z)
        (ids : list reb_hash_t) :
      valid_event s c -> counts_fit v s c ->
      reb_collision_resolve_fragment hardsphere v s c = Done d s' ->
      run s' ids s'' ->
      run s (created_by s s' ++ ids) s''
  | run_host (s s' s'' : state) (ids : list reb_hash_t) :
      tot_no_frags s' = tot_no_frags s ->
      run s' ids s'' ->
      run s ids s''.

End Runs.

(** The hard-sphere resolver that finds the bodies not approaching. *)
Definition no_bounce (sm : reb_simulation) (c : reb_collision)
  : reb_simulation := sm.

(** The target of the impact scenario: a body of mass [mass] and radius
    1e-5 that moves at speed 10 towards the projectile, off-centre by half
    its radius. *)
Definition impact_target (mass : R) : reb_particle :=
  Particle 1.2e-5 0.5e-5 0 (-10) 0 0 mass 1e-5 0 (NAMED 1).

(** The projectile of the impact scenario: an equal body at rest at the origin. *)
Definition impact_projectile (mass : R) : reb_particle :=
  Particle 0 0 0 0 0 0 mass 1e-5 0 (NAMED 0).

(** The impact scenario: the two bodies at time 1 with [G = 1], the
    globals of the fragmentation file at their initial values, and the
    event that names the target first. *)
Definition impact_state (mass : R) : state :=
  State (Simulation 1 1 [impact_projectile mass; impact_target mass] 1 1)
        (default_min_frag_mass Fragmentation) 0 [].

Definition impact_event : reb_collision := Collision 1 0.

(** The parameters with which the impact scenario enters the synthesizer:
    the super-catastrophic outcome, the remnant mass clamped to the minimum
    fragment mass. *)
Definition impact_params (mass : R) : collision_params :=
  CollisionParams 1 0 1.2e-5 0.5e-5 0 0.5e-5 (-10) 0 0 10 1.5e-5 1.684e6 1.8
    (mass / 2) 0 0 (sqrt (2e5 * mass)) 8e-5 1.4e-8 0 12.5 0 0 10 1.3e-5 4 0.

(** The impact scenario of two bodies of mass 1e-8 with the minimum
    fragment mass set to 1e-18: the residual mass makes more fragments than
    an [int] can count. *)
Definition fine_impact : state :=
  State (sim (impact_state 1e-8)) 1e-18 0 [].

(** The parameters with which it enters the synthesizer: the
    super-catastrophic outcome and the mass of the largest remnant the
    builder computed, clamped from below. *)
Definition fine_impact_params : collision_params :=
  set_Mlr (impact_params 1e-8)
    (MAX (Dynamics.Mlr 1 (impact_target 1e-8) (impact_projectile 1e-8) 1.684e6)
         1e-18).

(** The sum of a list of reals. *)
Definition sumR (l : list R) : R := foldr Rplus 0 l.

(** ** The coefficient of restitution

    [coefficient_of_restitution_bridges], the same function in
    rebound/shearing_sheet.c and in the shearing-sheet problem file; the
    simulation it is passed is not read.  At [v = 0] the C program computes
    [pow(0, -0.234)], an infinity, and the first clamp returns 1. *)
Definition coefficient_of_restitution_bridges (sim : reb_simulation) (v : R)
  : R :=
  if decide (v = 0) then 1
  else
    let eps := 0.32 * powr (Rabs v * 100) (-0.234) in
    let eps := if decide (eps > 1) then 1 else eps in
    if decide (eps < 0) then 0 else eps.

(** ** The diagnostics of rebound/shearing_sheet.c *)
Module Diagnostics.

(** The simulation with the two further fields the diagnostics read:
    [r->ri_sei.OMEGA] and [r->collisions_plog]. *)
Record shearing_sheet : Type := Sheet {
  r_sim : reb_simulation;
  ri_sei_OMEGA : R;
  collisions_plog : R }.

(** [mean_normal_geometric_optical_depth] *)
Definition mean_normal_geometric_optical_depth (sim : reb_simulation) : R :=
  let area := foldl (fun area p => area + PI * r p * r p) 0 (particles sim) in
  area / (boxsize_x sim * boxsize_y sim).

(** [midplane_fillingfactor] *)
Definition midplane_fillingfactor (sim : reb_simulation) : R :=
  let area :=
    foldl (fun area p =>
             let R2 := r p * r p - z p * z p in
             if decide (R2 > 0) then area + PI * R2 else area)
          0 (particles sim) in
  area / (boxsize_x sim * boxsize_y sim).

(** The body of the loop of [velocity_dispersion] for the particle [p] at
    index [i]: the running mean [A] and the running sum of squares [Q] of
    the velocity with the shear removed. *)
Definition dispersion_step (OMEGA : R) (acc : nat * vec3 * vec3)
    (p : reb_particle) : nat * vec3 * vec3 :=
  let '(i, (Ax, Ay, Az), (Qx, Qy, Qz)) := acc in
  let Ax' := Ax + (vx p - Ax) / INR (i + 1) in
  let Ay' := Ay + (vy p + 1.5 * OMEGA * x p - Ay) / INR (i + 1) in
  let Az' := Az + (vz p - Az) / INR (i + 1) in
  let Qx' := Qx + (vx p - Ax) * (vx p - Ax') in
  let Qy' := Qy + (vy p + 1.5 * OMEGA * x p - Ay)
                  * (vy p + 1.5 * OMEGA * x p - Ay') in
  let Qz' := Qz + (vz p - Az) * (vz p - Az') in
  (S i, (Ax', Ay', Az'), (Qx', Qy', Qz')).

(** [velocity_dispersion].  Without particles the C program takes the
    square root of 0/0. *)
Definition velocity_dispersion (sh : shearing_sheet) : vec3 :=
  let '(_, _, (Qx, Qy, Qz)) :=
    foldl (dispersion_step (ri_sei_OMEGA sh))
          (0%nat, (0, 0, 0), (0, 0, 0)) (particles (r_sim sh)) in
  let n := INR (N (r_sim sh)) in
  (sqrt (Qx / n), sqrt (Qy / n), sqrt (Qz / n)).

(** [translational_viscosity] *)
Definition translational_viscosity (sh : shearing_sheet) : R :=
  let Wxy :=
    foldl (fun Wxy p =>
             let vx := vx p in
             let vy := vy p + 1.5 * ri_sei_OMEGA sh * x p in
             Wxy + vx * vy)
          0 (particles (r_sim sh)) in
  2 / 3 * Wxy / INR (N (r_sim sh)) / ri_sei_OMEGA sh.

End Diagnostics.

(** The mean and the variance (of the population) of some numbers. *)
Definition mean (l : list R) : R := sumR l / INR (length l).

Definition variance (l : list R) : R :=
  sumR ((fun u => (u - mean l) ^ 2) <$> l) / INR (length l).

(** The running mean and the running sum of squares of one component, as
    [dispersion_step] computes them for three. *)
Definition welford_step (acc : nat * R * R) (u : R) : nat * R * R :=
  let '(i, A, Q) := acc in
  let A' := A + (u - A) / INR (i + 1) in
  (S i, A', Q + (u - A) * (u - A')).

(** ** The mass grid of the coagulation solver (src/smoluchowski.c) *)

#[export] Instance R_inhabited : Inhabited R := populate 0.

Module Smoluchowski.

(** [#define N_BIN 36] *)
Definition N_BIN : nat := 36.

(** [SmolData]: four arrays of [N_BIN] doubles. *)
Record SmolData : Type := Smol {
  m : list R;
  n : list R;
  v : list R;
  sigma : list R }.

(** The arrays have [N_BIN] entries each. *)
Definition sized (d : SmolData) : Prop :=
  length (m d) = N_BIN /\ length (n d) = N_BIN
  /\ length (v d) = N_BIN /\ length (sigma d) = N_BIN.

(** The body of the loop of [smol_init] for the bin [i]. *)
Definition init_bin (d : SmolData) (i : nat) : SmolData :=
  Smol (<[i := powr 10 (-3 + 0.1 * INR i)]> (m d))
       (<[i := 0]> (n d))
       (<[i := 0]> (v d))
       (<[i := 0]> (sigma d)).

(** [smol_init] *)
Definition smol_init (d : SmolData) : SmolData :=
  foldl init_bin d (seq 0 N_BIN).

(** [v_rel], for the bins [i] and [j] of the arrays. *)
Definition v_rel (d : SmolData) (i j : nat) : R :=
  sqrt (v d !!! i * v d !!! i + v d !!! j * v d !!! j).

End Smoluchowski.

(** ** The outcomes of a call, case by case *)

(** What is known of the parameters [pf] the synthesizer is called with,
    for the parameters [params] of the builder: the two bodies, the outcome
    code, the second-largest remnant, the residual mass and the mass of the
    largest remnant; the outcome code and the two remnant masses are the
    only fields that are written after the builder. *)
Definition synthesis_entry (s : state) (params pf : collision_params) : Prop :=
  let mfm := min_frag_mass s in
  let M := m (particle_at (sim s) (target params))
           + m (particle_at (sim s) (projectile params)) in
  target pf = target params /\ projectile pf = projectile params
  /\ (2 <= collision_type pf <= 4)%Z
  /\ (Mslr pf = 0 \/ (collision_type pf = 2%Z /\ mfm <= Mslr pf))
  /\ (0 < mfm -> 0 <= Mlr params -> 0 <= Synth.remaining_mass s pf)
  /\ (0 < mfm -> mfm <= Mlr params \/ 2 * mfm <= M ->
      mfm <= Synth.remaining_mass s pf)
  /\ (mfm <= Mlr pf
      \/ (m (particle_at (sim s) (target params)) <= Mlr pf /\ Mslr pf = 0))
  /\ pf = set_Mslr (set_Mlr (set_collision_type params (collision_type pf))
                            (Mlr pf)) (Mslr pf).

Section Cases.

Variable hardsphere : reb_simulation -> reb_collision -> reb_simulation.

(** The three ways a classified event ends: a merge, an elastic bounce, a
    call of the synthesizer. *)
Definition outcome_cases (v : variant) (s : state) (c : reb_collision)
    (params p' : collision_params) (d : Z) (s1 : state) : Prop :=
  let swap :=
    if decide (m (particle_at (sim s) (p1 c)) < m (particle_at (sim s) (p2 c)))
    then 1%Z else 2%Z in
  target p' = target params /\ projectile p' = projectile params
  /\ ((d = swap /\ collision_type p' = 1%Z /\ no_frags p' = 0%Z
       /\ s1 = merge s p')
      \/ (d = 0%Z /\ collision_type p' = 0%Z /\ no_frags p' = 0%Z
          /\ s1 = set_sim s (hardsphere (sim s) c))
      \/ (d = swap
          /\ exists pf, add_fragments v s pf = Done p' s1
                        /\ synthesis_entry s params pf)).

End Cases.

(** The relative velocity and the relative position of the two bodies are
    not parallel: the vector [z] of [add_fragments] is not null. *)
Definition oblique (params : collision_params) : Prop :=
  ~ (Viy params * dz params - Viz params * dy params = 0
     /\ Viz params * dx params - Vix params * dz params = 0
     /\ Vix params * dy params - Viy params * dx params = 0).

(** No stored body carries a fragment name that the counter has not yet
    reached. *)
Definition fresh_counter (s : state) : Prop :=
  forall (q : reb_particle) (k : Z),
    q ∈ particles (sim s) -> hash q = FRAG k -> (k <= tot_no_frags s)%Z.

(** The hard-sphere resolver of the host keeps the names of the bodies. *)
Definition keeps_hashes
    (hardsphere : reb_simulation -> reb_collision -> reb_simulation) : Prop :=
  forall (sm : reb_simulation) (c : reb_collision),
    hash <$> particles (hardsphere sm c) = hash <$> particles sm.

(** The sum of the squares of the mass fractions of some bodies. *)
Definition squared_fractions (M : R) (bodies : list reb_particle) : R :=
  sumR ((fun q => (m q / M) ^ 2) <$> bodies).

(** The synthesizer computes with finite numbers and with names that fit:
    the mass of the pair is not null (centre of mass and offsets), the
    relative velocity is not null and not parallel to the relative position
    (the unit vectors), the contact distance and the separation distance
    are not null and the radicand of the ejection speed is not negative,
    the fragment count is not negative (hence in the range of [int]), and
    the counter is not negative and stays within [last_index]. *)
Definition finite_synthesis (v : variant) (s : state) (pf : collision_params)
  : Prop :=
  Synth.initial_mass s pf <> 0
  /\ vrel pf <> 0 /\ oblique pf
  /\ Synth.rtot s pf <> 0 /\ separation_distance pf <> 0
  /\ 0 <= 1.1 * V_esc pf ^ 2
          - 2 * G (sim s) * Synth.initial_mass s pf
            * (1 / Synth.rtot s pf - 1 / separation_distance pf)
  /\ (0 <= tot_no_frags s)%Z /\ (0 <= Synth.no_frags s pf)%Z
  /\ (Synth.tot s pf <= last_index v)%Z.



(** The impact scenario in which one fragment is created, and the state
    the fragmentation file returns for it. *)
Definition single_impact : state := impact_state 1.5e-8.

Definition single_impact_result : state :=
  print_collision_array
    (Synth.final Fragmentation single_impact (impact_params 1.5e-8))
    (set_no_frags (impact_params 1.5e-8)
       (Synth.new_bodies single_impact (impact_params 1.5e-8))).

(**  * Properties *)

(** ** The arithmetic of the embedding *)

Ltac decide_true := rewrite decide_True by (try done; try lra; try lia).
Ltac decide_false := rewrite decide_False by (try done; try lra; try lia).

Lemma MAX_ge_l (a b : R) : a <= MAX a b.
Proof. unfold MAX; destruct (Rgt_dec a b); lra. Qed.

Lemma MAX_ge_r (a b : R) : b <= MAX a b.
Proof. unfold MAX; destruct (Rgt_dec a b); lra. Qed.

Lemma MAX_cases (a b : R) : (a > b /\ MAX a b = a) \/ (a <= b /\ MAX a b = b).
Proof. unfold MAX; destruct (Rgt_dec a b); [left | right]; split; lra. Qed.

Lemma MIN_cases (a b : R) : (a > b /\ MIN a b = b) \/ (a <= b /\ MIN a b = a).
Proof. unfold MIN; destruct (Rgt_dec a b); [left | right]; split; lra. Qed.

Lemma powr_pos (x y : R) : 0 < x -> 0 < powr x y.
Proof.
  intros Hx; unfold powr; destruct (Rlt_dec 0 x); [| contradiction].
  unfold Rpower; apply exp_pos.
Qed.

Lemma powr_nonneg (x y : R) : 0 <= powr x y.
Proof.
  unfold powr; destruct (Rlt_dec 0 x); [| lra].
  left; unfold Rpower; apply exp_pos.
Qed.

Lemma powr_half (x : R) : 0 <= x -> powr x 0.5 = sqrt x.
Proof.
  intros Hx; unfold powr; destruct (Rlt_dec 0 x) as [Hp | Hn].
  - replace 0.5 with (/ 2) by lra. now apply Rpower_sqrt.
  - replace x with 0 by lra. now rewrite sqrt_0.
Qed.


(** ** The guards of the resolver *)

Section Guards.

Variable hardsphere : reb_simulation -> reb_collision -> reb_simulation.

Lemma already_resolved_noop (v : variant) (s : state) (c : reb_collision) :
  last_collision (particle_at (sim s) (p1 c)) = t (sim s)
  \/ last_collision (particle_at (sim s) (p2 c)) = t (sim s) ->
  reb_collision_resolve_fragment hardsphere v s c = Done 0%Z s.
Proof.
  intros H; unfold reb_collision_resolve_fragment.
  now rewrite decide_True.
Qed.

(** C9: an event whose first index is below its second is never
    processed: the resolver returns 0 and the state it was given, whatever
    the time stamps, masses and geometry of the two bodies. *)
Theorem lower_first_index_noop (v : variant) (s : state) (c : reb_collision) :
  (p1 c < p2 c)%nat ->
  reb_collision_resolve_fragment hardsphere v s c = Done 0%Z s.
Proof.
  intros Hlt; unfold reb_collision_resolve_fragment.
  destruct (decide _) as [_ | _]; [reflexivity |].
  now rewrite decide_True.
Qed.

End Guards.

(** ** The merge operator *)

(** C6: the merged target carries the mass-weighted means of position and
    velocity, the sum of the masses, the radius of that mass at the
    density the target had, and the current time; its hash, the projectile
    and every other particle, and the rest of the state are as before. *)
Theorem merge_operator (s : state) (params : collision_params)
    (pi pj : reb_particle) :
  particles (sim s) !! target params = Some pi ->
  particles (sim s) !! projectile params = Some pj ->
  target params <> projectile params ->
  let M := m pi + m pj in
  let density := m pi / (4 / 3 * PI * r pi ^ 3) in
  let s' := merge s params in
  particles (sim s') !! target params =
    Some (Particle ((x pi * m pi + x pj * m pj) / M)
                   ((y pi * m pi + y pj * m pj) / M)
                   ((z pi * m pi + z pj * m pj) / M)
                   ((vx pi * m pi + vx pj * m pj) / M)
                   ((vy pi * m pi + vy pj * m pj) / M)
                   ((vz pi * m pi + vz pj * m pj) / M)
                   M (get_radii M density) (t (sim s)) (hash pi))
  /\ particles (sim s') !! projectile params = Some pj
  /\ (forall k : nat, k <> target params ->
        particles (sim s') !! k = particles (sim s) !! k)
  /\ length (particles (sim s')) = length (particles (sim s))
  /\ t (sim s') = t (sim s) /\ G (sim s') = G (sim s)
  /\ boxsize_x (sim s') = boxsize_x (sim s)
  /\ boxsize_y (sim s') = boxsize_y (sim s)
  /\ min_frag_mass s' = min_frag_mass s
  /\ tot_no_frags s' = tot_no_frags s
  /\ report s' = report s.
Proof.
  intros Hi Hj Hne M density s'.
  assert (Hlen : (target params < length (particles (sim s)))%nat)
    by (eapply lookup_lt_Some; eassumption).
  subst s'; unfold merge, particle_at; simpl.
  rewrite (list_lookup_total_correct _ _ _ Hi),
          (list_lookup_total_correct _ _ _ Hj).
  repeat split.
  - rewrite list_lookup_insert_eq by assumption.
    unfold get_radii; subst M density.
    do 2 f_equal; unfold Rdiv; ring.
  - rewrite list_lookup_insert_ne by assumption. exact Hj.
  - intros k Hk. now rewrite list_lookup_insert_ne by congruence.
  - apply length_insert.
Qed.

(** ** The pairwise dynamics builder *)

Lemma b_nonneg (G : R) (targ imp : reb_particle) : 0 <= Dynamics.b G targ imp.
Proof. unfold Dynamics.b; apply sqrt_pos. Qed.

Lemma alpha_pos_head_on (G : R) (targ imp : reb_particle) :
  0 < r imp -> 0 < r targ -> Dynamics.b G targ imp = 0 ->
  0 < Dynamics.alpha G targ imp.
Proof.
  intros Hi Ht Hb.
  unfold Dynamics.alpha, Dynamics.l, Dynamics.R_tot, Dynamics.imp_r,
    Dynamics.targ_r.
  rewrite Hb.
  set (ri := r imp) in *; set (rt := r targ) in *.
  assert (Hl : 0 < MIN (ri + rt - 0) (2 * ri) <= 2 * ri).
  { destruct (MIN_cases (ri + rt - 0) (2 * ri)) as [[? ->] | [? ->]]; lra. }
  set (l := MIN (ri + rt - 0) (2 * ri)) in *.
  assert (Hq : 0 < l ^ 2 * (3 * ri - l) / (4 * ri ^ 3)).
  { apply Rdiv_lt_0_compat.
    - apply Rmult_lt_0_compat; [| lra].
      apply pow_lt; lra.
    - apply Rmult_lt_0_compat; [lra |]. apply pow_lt; lra. }
  destruct (MIN_cases 1 (l ^ 2 * (3 * ri - l) / (4 * ri ^ 3)))
    as [[? ->] | [? ->]]; lra.
Qed.

(** C5: the provisional largest-remnant mass is
    [Mtot * (1 - 0.5 * Q / Qstar)] for [Q / Qstar < 1.8] and
    [0.1 * Mtot * (Q / (1.8 * Qstar)) ^ (-1.5)] otherwise; [Qstar] is the
    sentinel for [alpha = 0], [Q0] for a head-on encounter of equal masses,
    and [(mu / alpha_mu) ^ 1.5 * (1 + gamma) ^ 2 / (4 * gamma) * Q0] in every
    other case; this mass is what the builder stores in the parameters. *)
Theorem largest_remnant_mass (G : R) (targ imp : reb_particle) (rho : R) :
  0 < r imp -> 0 < r targ ->
  let Mtot := Dynamics.M_tot targ imp in
  let Q := Dynamics.Q G targ imp in
  let Qstar := Dynamics.Q_star G targ imp rho in
  let Mlr := Dynamics.Mlr G targ imp rho in
  (Q / Qstar < 1.8 -> Mlr = Mtot * (1 - 0.5 * Q / Qstar))
  /\ (Q / Qstar >= 1.8 -> Mlr = 0.1 * Mtot * powr (Q / (1.8 * Qstar)) (-1.5))
  /\ (Dynamics.alpha G targ imp = 0 -> Qstar = Q_star_sentinel)
  /\ (Dynamics.b G targ imp = 0 /\ m imp = m targ ->
      Qstar = Dynamics.Q0 G targ imp rho)
  /\ (Dynamics.alpha G targ imp <> 0 ->
      ~ (Dynamics.b G targ imp = 0 /\ m imp = m targ) ->
      Qstar = Q_star_general G targ imp rho)
  /\ (forall (s s' : state) (i j : nat) (params : collision_params),
        G = Rebound.G (sim s) -> targ = particle_at (sim s) i ->
        imp = particle_at (sim s) j ->
        Dynamics.rho1 G = Some rho ->
        build_params s i j = Done params s' ->
        Params.Mlr params = Mlr).
Proof.
  intros Hi Ht Mtot Q Qstar Mlr.
  subst Mtot Q Qstar Mlr.
  unfold Dynamics.Mlr, Dynamics.qratio.
  repeat split.
  - intros Hq. rewrite decide_True by assumption.
    f_equal. unfold Rdiv; ring.
  - intros Hq. rewrite decide_False by lra.
    do 2 f_equal. unfold Rdiv. rewrite Rinv_mult. ring.
  - intros Ha. unfold Dynamics.Q_star.
    rewrite decide_False.
    + now rewrite decide_True.
    + intros [Hb _].
      pose proof (alpha_pos_head_on G targ imp Hi Ht Hb). lra.
  - intros Hb. unfold Dynamics.Q_star. now rewrite decide_True.
  - intros Ha Hb. unfold Dynamics.Q_star, Q_star_general.
    rewrite (decide_False (P := _ /\ _)) by assumption.
    now rewrite decide_False.
  - intros s s' i j params -> -> -> Hrho.
    unfold build_params. destruct (decide _); [discriminate |].
    rewrite Hrho. intros [= <- _]. reflexivity.
Qed.

(** ** The collision classifier *)

(** C3: on every derived context exactly one rule of the classifier
    applies, and the resolver runs the operator of that outcome: the
    if-chain of the source has no other branch. *)
Theorem classifier_total
    (hardsphere : reb_simulation -> reb_collision -> reb_simulation)
    (v : variant) (s : state) (c : reb_collision)
    (params : collision_params) (swap : Z) :
  let r_target := r (particle_at (sim s) (target params)) in
  let m_target := m (particle_at (sim s) (target params)) in
  let Mtot := m (particle_at (sim s) (projectile params)) + m_target in
  exists k : outcome,
    classifies (Vi params) (V_esc params) (b params) r_target Mtot
               (Mlr params) m_target (min_frag_mass s) k
    /\ (forall k' : outcome,
          classifies (Vi params) (V_esc params) (b params) r_target Mtot
                     (Mlr params) m_target (min_frag_mass s) k' -> k' = k)
    /\ resolve_outcome hardsphere v s c params swap
       = apply_outcome hardsphere v s c params swap k.
Proof.
  intros r_target m_target Mtot.
  unfold resolve_outcome, Dynamics.M_tot, Dynamics.targ_r, Dynamics.targ_m,
    Dynamics.imp_m.
  fold r_target m_target Mtot.
  destruct (decide (Vi params <= V_esc params)) as [H1 | H1].
  { exists Merge; split; [now apply rule_merge | split; [| reflexivity]].
    intros k' Hk; inversion Hk; try reflexivity; contradiction. }
  destruct (decide (b params < r_target)) as [H2 | H2].
  2:{ exists HitAndRunDelegated.
      split; [apply rule_hit_and_run; [assumption | lra] |].
      split; [| reflexivity].
      intros k' Hk; inversion Hk; try reflexivity; try contradiction; lra. }
  destruct (decide (Mtot - Mlr params < min_frag_mass s)) as [H3 | H3].
  { exists EffectiveMerge.
    split; [now apply rule_effective_merge | split; [| reflexivity]].
    intros k' Hk; inversion Hk; try reflexivity; try contradiction; lra. }
  destruct (decide (Mlr params < m_target)) as [H4 | H4].
  2:{ exists PartialAccretion.
      split; [apply rule_partial_accretion; try assumption; lra |].
      split; [| reflexivity].
      intros k' Hk; inversion Hk; try reflexivity; try contradiction; lra. }
  destruct (decide (Mlr params <= 0.1 * m_target)) as [H5 | H5].
  - exists SuperCatastrophic.
    split; [now apply rule_super_catastrophic | split; [| reflexivity]].
    intros k' Hk; inversion Hk; try reflexivity; try contradiction; lra.
  - exists PartialErosion.
    split; [apply rule_partial_erosion; try assumption; lra |].
    split; [| reflexivity].
    intros k' Hk; inversion Hk; try reflexivity; try contradiction; lra.
Qed.

(** ** The fragment synthesizer *)

Lemma creation_loop (v : variant) (f : Z -> reb_particle) (l : list Z)
    (mx mv : vec3) (sm : reb_simulation) :
  foldl (fun acc i => add_body v acc (f i)) (mx, mv, sm) l
  = (Synth.sum_positions mx (f <$> l), Synth.sum_velocities mv (f <$> l),
     set_particles sm (particles sm ++ (wrap_into_box v sm <$> (f <$> l)))).
Proof.
  revert mx mv sm; induction l as [| i l IH]; intros mx mv sm; simpl.
  - unfold set_particles. rewrite app_nil_r. now destruct sm.
  - rewrite IH. unfold Synth.sum_positions, Synth.sum_velocities; simpl.
    f_equal. unfold reb_simulation_add, set_particles; simpl.
    rewrite <- app_assoc. simpl. f_equal.
Qed.

Ltac name_sums mx0 mx1 mx2 Hmx mv0 mv1 mv2 Hmv :=
  match goal with |- context [Synth.sum_positions ?a ?l] =>
    replace (Synth.sum_positions a l) with (mx0, mx1, mx2)
      by (symmetry; exact Hmx) end;
  match goal with |- context [Synth.sum_velocities ?a ?l] =>
    replace (Synth.sum_velocities a l) with (mv0, mv1, mv2)
      by (symmetry; exact Hmv) end.

(** [add_fragments] computes the variables of [Synth]. *)
Lemma add_fragments_eq (v : variant) (s : state) (params : collision_params) :
  add_fragments v s params
  = c_assert v (min_frag_mass s > 0) Assert_min_frag_mass
      (c_assert v (Synth.remaining_mass s params > 0) Assert_remaining_mass
         (c_assert v (0 < Synth.no_frags s params < 1000000)%Z Assert_no_frags
            (snprintf_name v (Synth.big_frags params)
               (Done (set_no_frags params (Synth.new_bodies s params))
                     (Synth.final v s params))))).
Proof.
  unfold add_fragments. cbv zeta.
  assert (Hmx : exists mx0 mx1 mx2, Synth.mxsum s params = (mx0, mx1, mx2)).
  { destruct (Synth.mxsum s params) as [[a b] c]; eauto. }
  assert (Hmv : exists mv0 mv1 mv2, Synth.mvsum s params = (mv0, mv1, mv2)).
  { destruct (Synth.mvsum s params) as [[a b] c]; eauto. }
  destruct Hmx as (mx0 & mx1 & mx2 & Hmx), Hmv as (mv0 & mv1 & mv2 & Hmv).
  unfold Synth.final, Synth.before_correction, Synth.corrected_target,
    Synth.xoff, Synth.voff.
  rewrite Hmx, Hmv.
  unfold Synth.mxsum, Synth.mvsum in Hmx, Hmv.
  unfold Synth.created, Synth.placed_target, Synth.target_mass,
    Synth.frag_mass, Synth.swapped, Synth.new_bodies, Synth.tot,
    Synth.no_frags, Synth.remaining_mass, Synth.big_frags in *.
  destruct (decide (Mslr params > 0)) as [Hbig | Hbig]; cbv beta iota.
  - rewrite (decide_True (P := (1 = 1)%Z)) by reflexivity.
    cbn [add_body]. rewrite creation_loop.
    name_sums mx0 mx1 mx2 Hmx mv0 mv1 mv2 Hmv.
    unfold reb_simulation_add, set_particles.
    cbn [particles t G boxsize_x boxsize_y].
    rewrite <- app_assoc.
    reflexivity.
  - rewrite (decide_False (P := (0 = 1)%Z)) by discriminate.
    rewrite creation_loop.
    name_sums mx0 mx1 mx2 Hmx mv0 mv1 mv2 Hmv.
    reflexivity.
Qed.

(** The correction loop moves bodies and touches nothing else. *)
Lemma correct_fragment_keeps {A : Type} (f : reb_particle -> A)
    (xoff voff : vec3) (M : R) (sm : reb_simulation) (i : Z) :
  (forall (k : R) (q : reb_particle), f (shift xoff voff k q) = f q) ->
  f <$> particles (correct_fragment xoff voff M sm i) = f <$> particles sm.
Proof.
  intros Hf. unfold correct_fragment, reb_simulation_particle_by_hash.
  destruct (list_find _ (particles sm)) as [[k q] |] eqn:Hfind; simpl;
    [| reflexivity].
  apply list_find_Some in Hfind as (Hk & _ & _).
  rewrite list_fmap_insert, Hf. unfold particle_at.
  rewrite (list_lookup_total_correct _ _ _ Hk).
  apply list_insert_id. now rewrite list_lookup_fmap, Hk.
Qed.

Lemma correct_fragment_frame (xoff voff : vec3) (M : R)
    (sm : reb_simulation) (i : Z) :
  t (correct_fragment xoff voff M sm i) = t sm
  /\ G (correct_fragment xoff voff M sm i) = G sm.
Proof.
  unfold correct_fragment.
  destruct (reb_simulation_particle_by_hash sm (FRAG i)); split; reflexivity.
Qed.

Lemma correction_loop_keeps {A : Type} (f : reb_particle -> A)
    (xoff voff : vec3) (M : R) (l : list Z) (sm : reb_simulation) :
  (forall (k : R) (q : reb_particle), f (shift xoff voff k q) = f q) ->
  f <$> particles (foldl (correct_fragment xoff voff M) sm l)
  = f <$> particles sm.
Proof.
  intros Hf. revert sm; induction l as [| i l IH]; intros sm; simpl.
  - reflexivity.
  - rewrite IH. now apply correct_fragment_keeps.
Qed.

Lemma correction_loop_frame (xoff voff : vec3) (M : R) (l : list Z)
    (sm : reb_simulation) :
  t (foldl (correct_fragment xoff voff M) sm l) = t sm
  /\ G (foldl (correct_fragment xoff voff M) sm l) = G sm.
Proof.
  revert sm; induction l as [| i l IH]; intros sm; simpl.
  - split; reflexivity.
  - destruct (IH (correct_fragment xoff voff M sm i)) as [-> ->].
    apply correct_fragment_frame.
Qed.

Lemma shift_keeps_m xoff voff k q : m (shift xoff voff k q) = m q.
Proof. now destruct xoff as [[? ?] ?], voff as [[? ?] ?]. Qed.
Lemma shift_keeps_hash xoff voff k q : hash (shift xoff voff k q) = hash q.
Proof. now destruct xoff as [[? ?] ?], voff as [[? ?] ?]. Qed.
Lemma shift_keeps_last_collision xoff voff k q :
  last_collision (shift xoff voff k q) = last_collision q.
Proof. now destruct xoff as [[? ?] ?], voff as [[? ?] ?]. Qed.

(** What the synthesizer leaves in the store, field by field: for a field
    [f] that neither the wrap nor the correction changes, the target slot
    holds [f] of the placed target and the new bodies follow the old ones. *)
Lemma final_fields {A : Type} (f : reb_particle -> A) (v : variant)
    (s : state) (params : collision_params) :
  (forall xoff voff (k : R) (q : reb_particle), f (shift xoff voff k q) = f q) ->
  (forall sm (q : reb_particle), f (wrap_into_box v sm q) = f q) ->
  f (Synth.corrected_target s params) = f (Synth.placed_target s params) ->
  (target params < N (sim s))%nat ->
  f <$> particles (sim (Synth.final v s params))
  = <[target params := f (Synth.placed_target s params)]>
      (f <$> particles (sim s))
    ++ (f <$> Synth.created s params).
Proof.
  intros Hshift Hwrap Hcorr Hin. unfold Synth.final; cbn [sim].
  rewrite correction_loop_keeps by apply Hshift.
  unfold Synth.before_correction, set_particles; cbn [particles].
  rewrite insert_app_l by (now rewrite length_insert).
  rewrite list_insert_insert_eq, fmap_app, list_fmap_insert, Hcorr.
  f_equal. rewrite <- list_fmap_compose. apply list_fmap_ext.
  intros ? q _. apply Hwrap.
Qed.

Lemma final_frame (v : variant) (s : state) (params : collision_params) :
  t (sim (Synth.final v s params)) = t (sim s)
  /\ G (sim (Synth.final v s params)) = G (sim s)
  /\ min_frag_mass (Synth.final v s params) = min_frag_mass s
  /\ tot_no_frags (Synth.final v s params) = Synth.tot s params
  /\ report (Synth.final v s params) = report s.
Proof.
  unfold Synth.final; cbn [sim min_frag_mass tot_no_frags report].
  destruct (correction_loop_frame (Synth.xoff s params) (Synth.voff s params)
              (Synth.initial_mass s params)
              (seqZ (Synth.tot s params - Synth.new_bodies s params + 1)
                    (Synth.new_bodies s params))
              (Synth.before_correction v s params)) as [-> ->].
  repeat split.
Qed.

Lemma wrap_keeps_m v sm q : m (wrap_into_box v sm q) = m q.
Proof. now destruct v. Qed.
Lemma wrap_keeps_hash v sm q : hash (wrap_into_box v sm q) = hash q.
Proof. now destruct v. Qed.
Lemma wrap_keeps_last_collision v sm q :
  last_collision (wrap_into_box v sm q) = last_collision q.
Proof. now destruct v. Qed.

Lemma fragment_hash com params fv rho time fm th nb i :
  hash (fragment com params fv rho time fm th nb i) = FRAG i.
Proof.
  unfold fragment. now destruct (unit_vi params) as [[? ?] ?],
    (unit_o params) as [[? ?] ?].
Qed.

Lemma fragment_m com params fv rho time fm th nb i :
  m (fragment com params fv rho time fm th nb i) = fm.
Proof.
  unfold fragment. now destruct (unit_vi params) as [[? ?] ?],
    (unit_o params) as [[? ?] ?].
Qed.

Lemma remnant_hash com params fv rho time tot :
  hash (second_largest_remnant com params fv rho time tot) = FRAG (tot + 1).
Proof.
  unfold second_largest_remnant. now destruct (unit_vi params) as [[? ?] ?].
Qed.

Lemma remnant_m com params fv rho time tot :
  m (second_largest_remnant com params fv rho time tot) = Mslr params.
Proof.
  unfold second_largest_remnant. now destruct (unit_vi params) as [[? ?] ?].
Qed.

(** The new bodies are named "FRAG<tot+1>", ..., "FRAG<tot+new_bodies>". *)
Lemma created_hashes (s : state) (params : collision_params) :
  (0 <= Synth.no_frags s params)%Z \/ Synth.big_frags params = 0%Z ->
  hash <$> Synth.created s params
  = FRAG <$> seqZ (tot_no_frags s + 1) (Synth.new_bodies s params).
Proof.
  intros Hn. unfold Synth.created, Synth.new_bodies, Synth.big_frags in *.
  rewrite fmap_app, <- list_fmap_compose.
  rewrite (list_fmap_ext _ FRAG
             (seqZ _ (Synth.no_frags s params)))
    by (intros ? i _; apply fragment_hash).
  destruct (decide (Mslr params > 0)) as [Hbig | Hbig].
  - destruct Hn as [Hn | Hn]; [| discriminate].
    replace (Synth.no_frags s params + 1)%Z
      with (1 + Synth.no_frags s params)%Z by lia.
    rewrite seqZ_app by lia. rewrite fmap_app. f_equal.
  - simpl. do 2 f_equal; lia.
Qed.

Lemma created_masses (s : state) (params : collision_params) :
  m <$> Synth.created s params
  = (if decide (Mslr params > 0) then [Mslr params] else [])
    ++ replicate (Z.to_nat (Synth.no_frags s params)) (Synth.frag_mass s params).
Proof.
  unfold Synth.created. rewrite fmap_app, <- list_fmap_compose. f_equal.
  - destruct (decide (Mslr params > 0)); reflexivity.
  - rewrite (list_fmap_ext _ (fun _ => Synth.frag_mass s params)
               (seqZ _ (Synth.no_frags s params)))
      by (intros ? i _; apply fragment_m).
    rewrite <- (length_seqZ (tot_no_frags s + Synth.big_frags params + 1)
                  (Synth.no_frags s params)).
    generalize (seqZ (tot_no_frags s + Synth.big_frags params + 1)
                     (Synth.no_frags s params)).
    intros l; induction l as [| a l IH]; simpl; [reflexivity |].
    f_equal. exact IH.
Qed.

Lemma created_length (s : state) (pf : collision_params) :
  (0 <= Synth.no_frags s pf)%Z \/ Synth.big_frags pf = 0%Z ->
  length (Synth.created s pf) = Z.to_nat (Synth.new_bodies s pf).
Proof.
  intros Hn. rewrite <- (length_fmap hash), created_hashes by assumption.
  rewrite length_fmap, length_seqZ. reflexivity.
Qed.

Lemma final_length (v : variant) (s : state) (pf : collision_params) :
  (0 <= Synth.no_frags s pf)%Z \/ Synth.big_frags pf = 0%Z ->
  (target pf < N (sim s))%nat ->
  N (sim (Synth.final v s pf))
  = (N (sim s) + Z.to_nat (Synth.new_bodies s pf))%nat.
Proof.
  intros Hn Ht. unfold N at 1. rewrite <- (length_fmap hash).
  rewrite (final_fields hash) by
    (try apply shift_keeps_hash; try apply wrap_keeps_hash;
     try reflexivity; exact Ht).
  rewrite length_app, length_insert, !length_fmap.
  now rewrite created_length.
Qed.

(** The correction loop finds every hash it looks up: the null pointer that
    the fragmentation file would dereference does not occur. *)
Lemma correction_finds_every_fragment (v : variant) (s : state)
    (pf : collision_params) (i : Z) :
  (0 <= Synth.no_frags s pf)%Z \/ Synth.big_frags pf = 0%Z ->
  (target pf < N (sim s))%nat ->
  i ∈ seqZ (Synth.tot s pf - Synth.new_bodies s pf + 1) (Synth.new_bodies s pf) ->
  forall l : list Z,
    is_Some (reb_simulation_particle_by_hash
               (foldl (correct_fragment (Synth.xoff s pf) (Synth.voff s pf)
                         (Synth.initial_mass s pf))
                      (Synth.before_correction v s pf) l)
               (FRAG i)).
Proof.
  intros Hn Ht Hi l.
  unfold reb_simulation_particle_by_hash.
  apply fmap_is_Some.
  assert (Hin : FRAG i ∈ hash <$> particles
            (foldl (correct_fragment (Synth.xoff s pf) (Synth.voff s pf)
                      (Synth.initial_mass s pf))
                   (Synth.before_correction v s pf) l)).
  { rewrite correction_loop_keeps by apply shift_keeps_hash.
    unfold Synth.before_correction, set_particles; cbn [particles].
    rewrite insert_app_l by (now rewrite length_insert).
    rewrite fmap_app. apply elem_of_app. right.
    rewrite <- list_fmap_compose.
    rewrite (list_fmap_ext _ hash (Synth.created s pf))
      by (intros ? q _; apply wrap_keeps_hash).
    rewrite created_hashes by assumption.
    apply list_elem_of_fmap. exists i. split; [reflexivity |].
    replace (tot_no_frags s + 1)%Z
      with (Synth.tot s pf - Synth.new_bodies s pf + 1)%Z; [exact Hi |].
    unfold Synth.tot, Synth.new_bodies. lia. }
  apply list_elem_of_fmap in Hin as (q & Hq & Hqin).
  apply list_find_elem_of with q; [exact Hqin | now symmetry].
Qed.

(** ** The paths through the resolver *)

Lemma Mlr_nonneg (G : R) (targ imp : reb_particle) (rho : R) :
  0 <= m imp + m targ -> 0 <= Dynamics.Mlr G targ imp rho.
Proof.
  intros HM. unfold Dynamics.Mlr, Dynamics.M_tot, Dynamics.imp_m,
    Dynamics.targ_m.
  destruct (decide (Dynamics.qratio G targ imp rho < 1.8)) as [Hq | Hq].
  - apply Rmult_le_pos; lra.
  - apply Rmult_le_pos; [lra | apply powr_nonneg].
Qed.

Lemma build_params_inv (s s' : state) (i j : nat) (params : collision_params) :
  build_params s i j = Done params s' ->
  s' = s /\ target params = i /\ projectile params = j /\ Mslr params = 0
  /\ V_esc params
     = Dynamics.V_esc (G (sim s)) (particle_at (sim s) i) (particle_at (sim s) j)
  /\ separation_distance params
     = Dynamics.separation_distance (particle_at (sim s) i) (particle_at (sim s) j)
  /\ exists rho : R,
       Dynamics.rho1 (G (sim s)) = Some rho
       /\ Mlr params
          = Dynamics.Mlr (G (sim s)) (particle_at (sim s) i)
                         (particle_at (sim s) j) rho.
Proof.
  unfold build_params. destruct (decide _); [discriminate |].
  destruct (Dynamics.rho1 (G (sim s))) as [rho |]; [| discriminate].
  intros [= <- <-]. repeat split. now exists rho.
Qed.

Section Paths.

Variable hardsphere : reb_simulation -> reb_collision -> reb_simulation.

Lemma hit_and_run_inv (v : variant) (s s1 : state) (c : reb_collision)
    (params p' : collision_params) (d : Z) :
  Mslr params = 0 ->
  hit_and_run hardsphere v s c params = Done (d, p') s1 ->
  let swap :=
    if decide (m (particle_at (sim s) (p1 c)) < m (particle_at (sim s) (p2 c)))
    then 1%Z else 2%Z in
  (d = swap /\ exists pm, s1 = merge s pm /\ target pm = target params
                          /\ projectile pm = projectile params)
  \/ (d = 0%Z /\ s1 = set_sim s (hardsphere (sim s) c))
  \/ (d = swap /\ exists pf, synthesis_of v s params pf p' s1).
Proof.
  intros HMslr. unfold hit_and_run. cbv zeta.
  destruct (decide (Vi params <= _)) as [H1 | H1].
  { intros [= <- <- <-]. left. split; [reflexivity |]. eexists; eauto. }
  destruct (decide (Mlr (set_Mlr params _) < _)) as [H2 | H2].
  - destruct (decide (_ <= min_frag_mass s)) as [H3 | H3].
    + intros [= <- <- <-]. right; left. now split.
    + destruct (add_fragments v s _) as [pa sa |] eqn:Ha; [| discriminate].
      cbn [bind]. intros [= <- <- <-]. right; right.
      split; [reflexivity |]. eexists. split; [exact Ha |].
      repeat split.
      intros Hmfm _. unfold Synth.remaining_mass. cbn [Mslr Mlr set_collision_type set_Mlr] in *.
      rewrite HMslr. rewrite decide_False by lra.
      unfold Synth.initial_mass, Synth.target, Synth.projectile.
      cbn [target projectile set_collision_type set_Mlr]. lra.
  - destruct (decide (_ < min_frag_mass s)) as [H3 | H3].
    + intros [= <- <- <-]. right; left. now split.
    + destruct (add_fragments v s _) as [pa sa |] eqn:Ha; [| discriminate].
      cbn [bind]. intros [= <- <- <-]. right; right.
      split; [reflexivity |]. eexists. split; [exact Ha |].
      repeat split.
      intros Hmfm _. unfold Synth.remaining_mass.
      cbn [Mslr Mlr set_collision_type set_Mlr set_Mslr] in *.
      match goal with |- context [MAX ?a (min_frag_mass s)] =>
        pose proof (MAX_ge_r a (min_frag_mass s)) as Hmax;
        set (Mdag := MAX a (min_frag_mass s)) in * end.
      rewrite decide_True by lra.
      unfold Synth.initial_mass, Synth.target, Synth.projectile.
      cbn [target projectile set_collision_type set_Mlr set_Mslr]. lra.
Qed.

Lemma resolve_outcome_inv (v : variant) (s s1 : state) (c : reb_collision)
    (params p' : collision_params) (d : Z) :
  Mslr params = 0 ->
  let swap :=
    if decide (m (particle_at (sim s) (p1 c)) < m (particle_at (sim s) (p2 c)))
    then 1%Z else 2%Z in
  resolve_outcome hardsphere v s c params swap = Done (d, p') s1 ->
  (d = swap /\ exists pm, s1 = merge s pm /\ target pm = target params
                          /\ projectile pm = projectile params)
  \/ (d = 0%Z /\ s1 = set_sim s (hardsphere (sim s) c))
  \/ (d = swap /\ exists pf, synthesis_of v s params pf p' s1).
Proof.
  intros HMslr swap. unfold resolve_outcome. cbv zeta.
  unfold Dynamics.M_tot, Dynamics.targ_m, Dynamics.imp_m, Dynamics.targ_r.
  destruct (decide (Vi params <= _)) as [H1 | H1].
  { intros [= <- <- <-]. left. split; [reflexivity |]. eexists; eauto. }
  destruct (decide (b params < _)) as [H2 | H2];
    [| now apply hit_and_run_inv].
  destruct (decide (_ < min_frag_mass s)) as [H3 | H3].
  { intros [= <- <- <-]. left. split; [reflexivity |]. eexists; eauto. }
  assert (Hclamp : forall k : Z,
    0 < min_frag_mass s -> 0 <= Mlr params ->
    0 <= Synth.remaining_mass s
           (set_Mlr (set_collision_type params k)
                    (MAX (Mlr params) (min_frag_mass s)))).
  { intros k Hmfm HMlr. unfold Synth.remaining_mass.
    cbn [Mslr Mlr set_collision_type set_Mlr]. rewrite HMslr.
    rewrite decide_False by lra.
    unfold Synth.initial_mass, Synth.target, Synth.projectile.
    cbn [target projectile set_collision_type set_Mlr].
    destruct (MAX_cases (Mlr params) (min_frag_mass s)) as [[? ->] | [? ->]];
      lra. }
  destruct (decide (Mlr params < _)) as [H4 | H4].
  - destruct (decide (Mlr params <= _)) as [H5 | H5];
      (destruct (add_fragments v s _) as [pa sa |] eqn:Ha; [| discriminate];
       cbn [bind]; intros [= <- <- <-]; right; right;
       split; [reflexivity |]; eexists; split; [exact Ha |];
       repeat split; apply Hclamp).
  - destruct (add_fragments v s _) as [pa sa |] eqn:Ha; [| discriminate].
    cbn [bind]. intros [= <- <- <-]. right; right.
    split; [reflexivity |]. eexists. split; [exact Ha |].
    repeat split.
    intros Hmfm _. unfold Synth.remaining_mass.
    cbn [Mslr Mlr set_collision_type]. rewrite HMslr.
    rewrite decide_False by lra.
    unfold Synth.initial_mass, Synth.target, Synth.projectile.
    cbn [target projectile set_collision_type]. lra.
Qed.


(** Every call that returns has done nothing, or has built the parameters
    for the heavier body [i] and the lighter body [j], run one operator and
    written the report line. *)
Lemma resolve_inv (v : variant) (s s' : state) (c : reb_collision) (d : Z) :
  reb_collision_resolve_fragment hardsphere v s c = Done d s' ->
  (d = 0%Z /\ s' = s)
  \/ exists (i j : nat) (params p' : collision_params) (s1 : state),
       let lighter :=
         m (particle_at (sim s) (p1 c)) < m (particle_at (sim s) (p2 c)) in
       let swap := if decide lighter then 1%Z else 2%Z in
       ((lighter /\ i = p2 c /\ j = p1 c) \/ (~ lighter /\ i = p1 c /\ j = p2 c))
       /\ build_params s i j = Done params s
       /\ s' = print_collision_array s1 p'
       /\ ((d = swap /\ exists pm, s1 = merge s pm /\ target pm = i
                                   /\ projectile pm = j)
           \/ (d = 0%Z /\ s1 = set_sim s (hardsphere (sim s) c))
           \/ (d = swap /\ exists pf, synthesis_of v s params pf p' s1)).
Proof.
  unfold reb_collision_resolve_fragment. cbv zeta.
  destruct (decide (_ \/ _)) as [_ | _]; [intros [= <- <-]; now left |].
  destruct (decide (p1 c < p2 c)%nat) as [_ | _];
    [intros [= <- <-]; now left |].
  set (lighter := m (particle_at (sim s) (p1 c))
                  < m (particle_at (sim s) (p2 c))).
  set (i := if decide lighter then p2 c else p1 c).
  set (j := if decide lighter then p1 c else p2 c).
  destruct (build_params s i j) as [params s0 |] eqn:Hb; [| discriminate].
  destruct (build_params_inv _ _ _ _ _ Hb)
    as (-> & Hi & Hj & HMslr & _ & _ & _).
  cbn [bind].
  destruct (resolve_outcome hardsphere v s c params _)
    as [[d1 p1'] s1 |] eqn:Ho; [| discriminate].
  cbn [bind]. intros [= <- <-]. right.
  exists i, j, params, p1', s1. cbv zeta.
  split.
  { subst i j. destruct (decide lighter); [left | right]; tauto. }
  split; [exact Hb |]. split; [reflexivity |].
  apply resolve_outcome_inv in Ho; [| exact HMslr].
  rewrite Hi, Hj in Ho. exact Ho.
Qed.

End Paths.

(** Every call of the synthesizer works on the two bodies of the event and
    on the escape velocity and separation distance of the builder. *)
Lemma synthesis_fields (v : variant) (s s1 : state) (i j : nat)
    (params pf p' : collision_params) :
  build_params s i j = Done params s ->
  synthesis_of v s params pf p' s1 ->
  let targ := particle_at (sim s) i in
  let imp := particle_at (sim s) j in
  Synth.initial_mass s pf = m targ + m imp
  /\ Synth.rtot s pf = r targ + r imp
  /\ V_esc pf = Dynamics.V_esc (G (sim s)) targ imp
  /\ separation_distance pf = Dynamics.separation_distance targ imp.
Proof.
  intros Hb (_ & Htf & Hpf & HV & Hsep & _) targ imp.
  destruct (build_params_inv _ _ _ _ _ Hb) as (_ & Hti & Htj & _ & HV' & Hs' & _).
  unfold Synth.initial_mass, Synth.rtot, Synth.target, Synth.projectile.
  rewrite Htf, Hpf, Hti, Htj, HV, Hsep, HV', Hs'. repeat split.
Qed.

(** ** The fragment counter and the identifiers *)

Lemma trunc_nonneg (a : R) : 0 <= a -> (0 <= trunc a)%Z.
Proof.
  intros Ha. unfold trunc. destruct (Rle_dec 0 a); [| contradiction].
  unfold Int_part.
  destruct (archimed a) as [Hup _].
  assert (0 < IZR (up a)) by lra.
  apply lt_IZR in H. lia.
Qed.

Lemma trunc_below (a : R) : 0 <= a -> IZR (trunc a) <= a.
Proof.
  intros Ha. unfold trunc. destruct (Rle_dec 0 a); [| contradiction].
  destruct (base_Int_part a) as [H1 _]. exact H1.
Qed.

Lemma to_int_fits (a : R) :
  (INT_MIN <= trunc a <= INT_MAX)%Z -> to_int a = trunc a.
Proof. intros H. unfold to_int. now rewrite decide_True. Qed.

Lemma to_int_cases (a : R) : to_int a = trunc a \/ to_int a = INT_MIN.
Proof. unfold to_int. destruct (decide _); [now left | now right]. Qed.

(** A quotient that is converted to a count of at least 1, or of 0 at
    least where the divisor is positive, was in the range of [int]. *)
Lemma quotient_to_int_nonneg (a b : R) :
  (0 <= quotient_to_int a b)%Z ->
  b <> 0 /\ quotient_to_int a b = trunc (a / b).
Proof.
  unfold quotient_to_int, INT_MIN.
  destruct (Req_dec_T b 0) as [Hb | Hb]; [lia |].
  intros H. split; [exact Hb |].
  destruct (to_int_cases (a / b)) as [E | E]; [exact E |].
  rewrite E in H. unfold INT_MIN in H. lia.
Qed.

Lemma quotient_to_int_fits (a b : R) :
  0 < b -> 0 <= a -> a / b <= IZR INT_MAX ->
  quotient_to_int a b = trunc (a / b) /\ (0 <= trunc (a / b) <= INT_MAX)%Z.
Proof.
  intros Hb Ha Hq.
  assert (Hab : 0 <= a / b).
  { apply Rmult_le_pos; [assumption |]. left; now apply Rinv_0_lt_compat. }
  pose proof (trunc_nonneg _ Hab) as H0.
  pose proof (trunc_below _ Hab) as H1.
  assert (H2 : (trunc (a / b) <= INT_MAX)%Z) by (apply le_IZR; lra).
  split; [| lia].
  unfold quotient_to_int.
  destruct (Req_dec_T b 0) as [E | _]; [lra |].
  apply to_int_fits. unfold INT_MIN. lia.
Qed.

(** The fragment count of a residual mass that is not negative and makes
    no more fragments than an [int] can count. *)
Lemma no_frags_nonneg (s : state) (pf : collision_params) :
  0 < min_frag_mass s -> 0 <= Synth.remaining_mass s pf ->
  Synth.remaining_mass s pf / min_frag_mass s <= IZR INT_MAX ->
  (0 <= Synth.no_frags s pf)%Z.
Proof.
  intros Hmfm Hrem Hfit. unfold Synth.no_frags.
  destruct (quotient_to_int_fits _ _ Hmfm Hrem Hfit) as [-> H]. lia.
Qed.

(** A call of the synthesizer that returns has counted at least one
    fragment (shearing-sheet file) or has no second-largest remnant
    (fragmentation file). *)
Lemma add_fragments_counted (v : variant) (s s1 : state)
    (pf p' : collision_params) :
  add_fragments v s pf = Done p' s1 ->
  (0 <= Synth.no_frags s pf)%Z \/ Synth.big_frags pf = 0%Z.
Proof.
  rewrite add_fragments_eq. unfold c_assert, snprintf_name. destruct v.
  - destruct (decide (Synth.big_frags pf = 1%Z)) as [_ | Hb]; [discriminate |].
    intros _. right. unfold Synth.big_frags in *.
    destruct (decide (Mslr pf > 0)); [contradiction | reflexivity].
  - repeat (destruct (decide _); [| discriminate]).
    intros _. left. lia.
Qed.

Lemma add_fragments_done (v : variant) (s s1 : state)
    (pf p' : collision_params) :
  add_fragments v s pf = Done p' s1 ->
  s1 = Synth.final v s pf
  /\ (v = ShearingSheet ->
      min_frag_mass s > 0 /\ Synth.remaining_mass s pf > 0
      /\ (0 < Synth.no_frags s pf < 1000000)%Z).
Proof.
  rewrite add_fragments_eq. unfold c_assert, snprintf_name. destruct v.
  - destruct (decide _); [discriminate |].
    intros [= _ <-]. split; [reflexivity | discriminate].
  - repeat (destruct (decide _); [| discriminate]).
    intros [= _ <-]. split; [reflexivity | tauto].
Qed.

Lemma created_by_same_length (s s' : state) :
  length (particles (sim s')) = length (particles (sim s)) ->
  created_by s s' = [].
Proof.
  intros Hlen. unfold created_by, N. rewrite <- Hlen.
  now rewrite drop_all.
Qed.


(** ** Resolving the same event again *)

(** The resolver reads the report file nowhere: with another report it
    takes the same path. *)
Lemma build_params_report (s : state) (rep : list report_line) (i j : nat) :
  build_params (set_report s rep) i j
  = on_state (fun s' => set_report s' rep) (build_params s i j).
Proof.
  unfold build_params; cbn [sim set_report].
  destruct (decide _); [reflexivity |].
  destruct (Dynamics.rho1 (G (sim s))); reflexivity.
Qed.

Lemma add_fragments_report (v : variant) (s : state)
    (rep : list report_line) (params : collision_params) :
  add_fragments v (set_report s rep) params
  = on_state (fun s' => set_report s' rep) (add_fragments v s params).
Proof.
  rewrite !add_fragments_eq. unfold c_assert, snprintf_name.
  change (min_frag_mass (set_report s rep)) with (min_frag_mass s).
  change (Synth.remaining_mass (set_report s rep) params)
    with (Synth.remaining_mass s params).
  change (Synth.no_frags (set_report s rep) params)
    with (Synth.no_frags s params).
  destruct v; [destruct (decide _); reflexivity |].
  repeat (destruct (decide _); [| reflexivity]). reflexivity.
Qed.

Section Again.

Variable hardsphere : reb_simulation -> reb_collision -> reb_simulation.

Lemma hit_and_run_report (v : variant) (s : state) (rep : list report_line)
    (c : reb_collision) (params : collision_params) :
  hit_and_run hardsphere v (set_report s rep) c params
  = on_state (fun s' => set_report s' rep)
             (hit_and_run hardsphere v s c params).
Proof.
  unfold hit_and_run. cbv zeta. cbn [sim set_report min_frag_mass].
  rewrite !add_fragments_report.
  repeat (destruct (decide _); try reflexivity);
    destruct (add_fragments v s _); reflexivity.
Qed.

Lemma resolve_outcome_report (v : variant) (s : state)
    (rep : list report_line) (c : reb_collision) (params : collision_params)
    (swap : Z) :
  resolve_outcome hardsphere v (set_report s rep) c params swap
  = on_state (fun s' => set_report s' rep)
             (resolve_outcome hardsphere v s c params swap).
Proof.
  unfold resolve_outcome. cbv zeta. cbn [sim set_report min_frag_mass].
  rewrite hit_and_run_report, !add_fragments_report.
  repeat (destruct (decide _); try reflexivity);
    destruct (add_fragments v s _); reflexivity.
Qed.

Lemma resolve_report (v : variant) (s s' : state) (rep : list report_line)
    (c : reb_collision) (d : Z) :
  reb_collision_resolve_fragment hardsphere v s c = Done d s' ->
  exists s'' : state,
    reb_collision_resolve_fragment hardsphere v (set_report s rep) c
    = Done d s''.
Proof.
  unfold reb_collision_resolve_fragment. cbv zeta. cbn [sim set_report].
  destruct (decide (_ \/ _)); [intros [= <- <-]; eauto |].
  destruct (decide (_ < _)%nat); [intros [= <- <-]; eauto |].
  rewrite build_params_report.
  destruct (build_params s _ _) as [params s0 |]; [| discriminate].
  cbn [bind on_state]. rewrite resolve_outcome_report.
  destruct (resolve_outcome hardsphere v s0 c params _) as [[d1 p'] s1 |];
    [| discriminate].
  cbn [bind on_state]. intros [= <- <-]. eauto.
Qed.


Hypothesis contract : hardsphere_contract hardsphere.

Lemma stamped_target (sm : reb_simulation) (l : list reb_particle)
    (i : nat) (time : R) :
  (last_collision <$> l) !! i = Some time ->
  last_collision (particle_at (set_particles sm l) i) = time.
Proof.
  intros Hl. rewrite list_lookup_fmap in Hl.
  destruct (l !! i) as [q |] eqn:Hq; [| discriminate].
  injection Hl as <-. unfold particle_at; cbn [particles set_particles].
  now rewrite (list_lookup_total_correct _ _ _ Hq).
Qed.

(** C7: an event that names a body already resolved at the current time is
    a no-op: the resolver returns 0 and the state it was given.
    Consequently, on the state a first call has returned, a second call for
    the same event returns 0. *)
Theorem resolved_once (v : variant) (s : state) (c : reb_collision) :
  (p1 c < N (sim s))%nat -> (p2 c < N (sim s))%nat ->
  (last_collision (particle_at (sim s) (p1 c)) = t (sim s)
   \/ last_collision (particle_at (sim s) (p2 c)) = t (sim s) ->
   reb_collision_resolve_fragment hardsphere v s c = Done 0%Z s)
  /\ (forall (d : Z) (s' : state),
        reb_collision_resolve_fragment hardsphere v s c = Done d s' ->
        exists s'' : state,
          reb_collision_resolve_fragment hardsphere v s' c = Done 0%Z s'').
Proof.
  intros Hp1 Hp2. split; [apply already_resolved_noop |].
  intros d s' Hres.
  destruct (resolve_inv _ _ _ _ _ _ Hres) as [[-> ->] | Hcase].
  { eauto. }
  destruct Hcase as (i & j & params & p' & s1 & Hij & Hb & -> & Hcase).
  cbv zeta in *.
  assert (Hi : (i < N (sim s))%nat /\ (i = p1 c \/ i = p2 c)).
  { destruct Hij as [(_ & -> & _) | (_ & -> & _)]; split; auto. }
  destruct Hi as [Hi Hi12].
  destruct (build_params_inv _ _ _ _ _ Hb) as (_ & Hti & _).
  assert (Hguard : forall s1 : state,
    t (sim s1) = t (sim s) ->
    last_collision (particle_at (sim s1) i) = t (sim s) ->
    exists s'' : state,
      reb_collision_resolve_fragment hardsphere v
        (print_collision_array s1 p') c = Done 0%Z s'').
  { intros s2 Ht Hl. eexists. apply already_resolved_noop.
    unfold print_collision_array; cbn [sim]. rewrite Ht.
    destruct Hi12 as [<- | <-]; [left | right]; exact Hl. }
  destruct Hcase as [(_ & pm & -> & Htm & _) | [(-> & ->) | (_ & pf & Hsyn)]].
  - apply Hguard; [reflexivity |].
    unfold merge, set_sim; cbn [sim]. apply stamped_target.
    rewrite list_fmap_insert, Htm. cbn [last_collision].
    apply list_lookup_insert_eq. now rewrite length_fmap.
  - destruct (contract (sim s) c) as (Ht & _ & [Hsame | [Hl1 Hl2]]).
    + rewrite Hsame.
      replace (print_collision_array (set_sim s (sim s)) p')
        with (set_report s (report (print_collision_array s p')))
        by (now destruct s).
      rewrite Hsame in Hres.
      replace (print_collision_array (set_sim s (sim s)) p')
        with (print_collision_array s p') in Hres by (now destruct s).
      eapply resolve_report. exact Hres.
    + eexists. apply already_resolved_noop.
      unfold print_collision_array, set_sim; cbn [sim]. rewrite Ht.
      now left.
  - destruct Hsyn as (Ha & Htf & _).
    apply add_fragments_done in Ha as [-> _].
    destruct (final_frame v s pf) as (Ht & _).
    apply Hguard; [exact Ht |].
    pose proof (final_fields last_collision v s pf) as Hf.
    rewrite Htf, Hti in Hf.
    specialize (Hf shift_keeps_last_collision (wrap_keeps_last_collision v)
                   eq_refl Hi).
    destruct (sim (Synth.final v s pf)) as [t' G' l' bx by'] eqn:Hsim.
    cbn [particles] in Hf.
    change (Simulation t' G' l' bx by') with
      (set_particles (Simulation t' G' l' bx by') l').
    apply stamped_target. rewrite Hf.
    rewrite lookup_app_l by (now rewrite length_insert, length_fmap).
    apply list_lookup_insert_eq. now rewrite length_fmap.
Qed.

End Again.

(** ** Evaluating the embedding *)

Lemma sqrt_of_square (a b : R) : 0 <= b -> a = b * b -> sqrt a = b.
Proof. intros Hb ->. now apply sqrt_square. Qed.

Lemma trunc_eq (a : R) (k : Z) :
  (0 <= k)%Z -> IZR k <= a < IZR k + 1 -> trunc a = k.
Proof.
  intros Hk [Hlo Hhi].
  assert (0 <= a) by (apply IZR_le in Hk; lra).
  unfold trunc. destruct (Rle_dec 0 a); [| contradiction].
  unfold Int_part.
  assert (Hup : (k + 1)%Z = up a).
  { apply tech_up; rewrite plus_IZR; lra. }
  lia.
Qed.

Lemma quotient_to_int_eq (a b : R) (k : Z) :
  0 < b -> (0 <= k <= INT_MAX)%Z -> IZR k <= a / b < IZR k + 1 ->
  quotient_to_int a b = k.
Proof.
  intros Hb Hk Hq. unfold quotient_to_int.
  destruct (Req_dec_T b 0) as [E | _]; [lra |].
  assert (Ht : trunc (a / b) = k) by (apply trunc_eq; [lia | exact Hq]).
  rewrite to_int_fits; [exact Ht |]. rewrite Ht. unfold INT_MIN. lia.
Qed.

Lemma powr_le_l (a b c : R) : 0 <= c -> 0 < a <= b -> powr a c <= powr b c.
Proof.
  intros Hc [Ha Hab]. unfold powr.
  destruct (Rlt_dec 0 a); [| contradiction].
  destruct (Rlt_dec 0 b); [| lra].
  now apply Rle_Rpower_l.
Qed.

Lemma powr_le_r (a c c' : R) : 1 <= a -> c <= c' -> powr a c <= powr a c'.
Proof.
  intros Ha Hc. unfold powr. destruct (Rlt_dec 0 a); [| lra].
  now apply Rle_Rpower.
Qed.

Lemma powr_2 (a : R) : 0 < a -> powr a 2 = a * a.
Proof.
  intros Ha. unfold powr. destruct (Rlt_dec 0 a); [| contradiction].
  replace 2 with (INR 2) by (simpl; lra).
  rewrite Rpower_pow by assumption. simpl; ring.
Qed.

Lemma powr_inv (a : R) : 0 < a -> powr a (-1) = / a.
Proof.
  intros Ha. unfold powr. destruct (Rlt_dec 0 a); [| contradiction].
  replace (-1) with (- (1)) by lra.
  rewrite Rpower_Ropp, Rpower_1; [reflexivity | assumption].
Qed.

Lemma powr_cube_root (a : R) : 0 < a -> powr (a * a * a) (1 / 3) = a.
Proof.
  intros Ha. unfold powr.
  assert (0 < a * a * a) by (repeat apply Rmult_lt_0_compat; assumption).
  destruct (Rlt_dec 0 (a * a * a)); [| contradiction].
  replace (a * a * a) with (Rpower a (INR 3))
    by (rewrite Rpower_pow by assumption; simpl; ring).
  rewrite Rpower_mult.
  replace (INR 3 * (1 / 3)) with 1 by (simpl; lra).
  now apply Rpower_1.
Qed.

Lemma Rdiv_le_bound (a b c : R) : 0 < b -> a <= c * b -> a / b <= c.
Proof.
  intros Hb H. apply (Rmult_le_reg_r b); [assumption |].
  unfold Rdiv. rewrite Rmult_assoc, Rinv_l by lra. lra.
Qed.

Lemma Rdiv_ge_bound (a b c : R) : 0 < b -> c * b <= a -> c <= a / b.
Proof.
  intros Hb H. apply (Rmult_le_reg_r b); [assumption |].
  unfold Rdiv. rewrite Rmult_assoc, Rinv_l by lra. lra.
Qed.

Lemma PI_bounds : 3 < PI <= 4.
Proof. split; [pose proof PI2_3_2; unfold PI2 in *; lra | apply PI_4]. Qed.

Section Impact.

Variable mass : R.
Hypothesis mass_range : 1e-8 <= mass <= 1.5e-8.

#[local] Abbreviation targ := (impact_target mass).
#[local] Abbreviation imp := (impact_projectile mass).

Ltac fields :=
  cbn [x y z vx vy vz m r last_collision hash fst snd
       impact_target impact_projectile].

Lemma impact_v2rel : Dynamics.v2rel targ imp = 100.
Proof.
  unfold Dynamics.v2rel, Dynamics.Vix, Dynamics.Viy, Dynamics.Viz, Dynamics.V,
    make_vector, get_dot; fields. lra.
Qed.

Lemma impact_xrel : Dynamics.xrel targ imp = 1.3e-5.
Proof.
  unfold Dynamics.xrel, Dynamics.x2rel, Dynamics.dx, Dynamics.dy, Dynamics.dz,
    Dynamics.d, make_vector, get_dot; fields.
  apply sqrt_of_square; lra.
Qed.

Lemma impact_h2 : Dynamics.h2 targ imp = 25e-10.
Proof.
  unfold Dynamics.h2, Dynamics.hx, Dynamics.hy, Dynamics.hz,
    Dynamics.Vix, Dynamics.Viy, Dynamics.Viz, Dynamics.V,
    Dynamics.dx, Dynamics.dy, Dynamics.dz, Dynamics.d, make_vector, get_dot;
    fields. lra.
Qed.

Lemma impact_v2imp : Dynamics.v2imp 1 targ imp = 100.
Proof.
  unfold Dynamics.v2imp. rewrite decide_True; [apply impact_v2rel |].
  right. rewrite impact_xrel. unfold Dynamics.R_tot, Dynamics.imp_r,
    Dynamics.targ_r; fields. lra.
Qed.


Lemma impact_Vi : Dynamics.Vi 1 targ imp = 10.
Proof.
  unfold Dynamics.Vi. rewrite impact_v2imp. apply sqrt_of_square; lra.
Qed.

Lemma impact_b : Dynamics.b 1 targ imp = 0.5e-5.
Proof.
  unfold Dynamics.b. rewrite impact_v2imp, impact_h2.
  apply sqrt_of_square; lra.
Qed.

Lemma impact_b_is_real : ~ Dynamics.b_is_nan 1 targ imp.
Proof.
  unfold Dynamics.b_is_nan. rewrite impact_v2imp, impact_h2. lra.
Qed.

Lemma impact_l : Dynamics.l 1 targ imp = 1.5e-5.
Proof.
  unfold Dynamics.l. rewrite impact_b.
  unfold Dynamics.R_tot, Dynamics.imp_r, Dynamics.targ_r; fields.
  destruct (MIN_cases (1e-5 + 1e-5 - 0.5e-5) (2 * 1e-5)) as [[? ->] | [? ->]];
    lra.
Qed.

Lemma impact_alpha : Dynamics.alpha 1 targ imp = 0.84375.
Proof.
  unfold Dynamics.alpha. rewrite impact_l. unfold Dynamics.imp_r; fields.
  replace (1.5e-5 ^ 2 * (3 * 1e-5 - 1.5e-5) / (4 * 1e-5 ^ 3)) with 0.84375
    by (field_simplify_eq; lra).
  destruct (MIN_cases 1 0.84375) as [[? ->] | [? ->]]; lra.
Qed.

Lemma impact_Q : Dynamics.Q 1 targ imp = 12.5.
Proof.
  unfold Dynamics.Q. rewrite impact_v2imp.
  unfold Dynamics.M_tot, Dynamics.imp_m, Dynamics.targ_m; fields.
  field_simplify_eq; lra.
Qed.

Lemma impact_V_esc :
  0 < Dynamics.V_esc 1 targ imp < 10.
Proof.
  unfold Dynamics.V_esc, Dynamics.M_tot, Dynamics.R_tot, Dynamics.imp_m,
    Dynamics.targ_m, Dynamics.imp_r, Dynamics.targ_r; fields.
  replace (2 * 1 * (mass + mass) / (1e-5 + 1e-5)) with (2e5 * mass) by lra.
  split; [apply powr_pos; lra |].
  rewrite powr_half by lra.
  replace 10 with (sqrt 100) by (apply sqrt_of_square; lra).
  apply sqrt_lt_1_alt; lra.
Qed.

Lemma impact_Q0 : 0 < Dynamics.Q0 1 targ imp 1.684e6 <= 0.1.
Proof.
  pose proof PI_bounds as [Hpi3 Hpi4].
  assert (Hbase : 0 < (mass + mass) * 3 / (4 * PI * 1.684e6) <= 1e-4 * 1e-4 * 1e-4).
  { split.
    - apply Rdiv_lt_0_compat; lra.
    - apply Rdiv_le_bound; nra. }
  assert (HRc : 0 < Dynamics.Rc1 targ imp 1.684e6 <= 1e-4).
  { unfold Dynamics.Rc1, Dynamics.M_tot, Dynamics.imp_m, Dynamics.targ_m;
      fields.
    split; [apply powr_pos; lra |].
    apply Rle_trans with (powr (1e-4 * 1e-4 * 1e-4) (1 / 3)).
    - apply powr_le_l; lra.
    - rewrite powr_cube_root by lra. lra. }
  unfold Dynamics.Q0, Dynamics.cstar.
  set (Rc := Dynamics.Rc1 targ imp 1.684e6) in *.
  assert (0 < Rc ^ 2 <= 1e-8) by nra.
  split; nra.
Qed.

Lemma impact_Q_star : 0 < Dynamics.Q_star 1 targ imp 1.684e6 <= 0.12.
Proof.
  pose proof impact_Q0 as [HQ0 HQ0'].
  unfold Dynamics.Q_star.
  rewrite (decide_False (P := _ /\ _)) by (rewrite impact_b; lra).
  rewrite decide_False by (rewrite impact_alpha; lra).
  assert (Hratio : Dynamics.mu targ imp / Dynamics.alphamu 1 targ imp
                   = 1.84375 / 1.6875).
  { unfold Dynamics.alphamu, Dynamics.mu. rewrite impact_alpha.
    unfold Dynamics.M_tot, Dynamics.imp_m, Dynamics.targ_m; fields.
    field_simplify_eq; lra. }
  assert (Hgamma : (1 + Dynamics.gamma targ imp) ^ 2
                   / (4 * Dynamics.gamma targ imp) = 1).
  { unfold Dynamics.gamma, Dynamics.imp_m, Dynamics.targ_m; fields.
    field_simplify_eq; lra. }
  rewrite Hratio, Hgamma.
  assert (Hp : 0 < powr (1.84375 / 1.6875) 1.5 <= 1.2).
  { split; [apply powr_pos; lra |].
    apply Rle_trans with (powr (1.84375 / 1.6875) 2).
    - apply powr_le_r; lra.
    - rewrite powr_2 by lra. lra. }
  set (p := powr (1.84375 / 1.6875) 1.5) in *.
  split; nra.
Qed.

Lemma impact_Mlr : 0 < Dynamics.Mlr 1 targ imp 1.684e6 <= 1e-9.
Proof.
  pose proof impact_Q_star as [HQs HQs'].
  unfold Dynamics.Mlr, Dynamics.qratio. rewrite impact_Q.
  set (Qs := Dynamics.Q_star 1 targ imp 1.684e6) in *.
  assert (Hq : 57 <= 12.5 / Qs / 1.8).
  { unfold Rdiv. rewrite Rmult_assoc, <- Rinv_mult.
    apply Rdiv_ge_bound; nra. }
  rewrite decide_False by lra.
  set (q := 12.5 / Qs / 1.8) in *.
  assert (Hp : 0 < powr q (-1.5) <= / 57).
  { split; [apply powr_pos; lra |].
    apply Rle_trans with (powr q (-1)).
    - apply powr_le_r; lra.
    - rewrite powr_inv by lra. apply Rinv_le_contravar; lra. }
  unfold Dynamics.M_tot, Dynamics.imp_m, Dynamics.targ_m; fields.
  set (p := powr q (-1.5)) in *.
  split; nra.
Qed.


Lemma impact_rho1 : Dynamics.rho1 1 = Some 1.684e6.
Proof.
  unfold Dynamics.rho1. cbv zeta.
  rewrite (decide_True (P := _ \/ _)) by (right; reflexivity). reflexivity.
Qed.

(** The builder reads the simulation only: the impact scenario gives the
    same parameters whatever the globals are. *)
Lemma impact_build_params_at (s : state) :
  sim s = sim (impact_state mass) ->
  build_params s 1 0
  = Done (CollisionParams 1 0 1.2e-5 0.5e-5 0 0.5e-5 (-10) 0 0 10 1.5e-5
            1.684e6 1.8 (mass / 2) 0 0 (sqrt (2e5 * mass)) 8e-5
            (Dynamics.Mlr 1 targ imp 1.684e6) 0 12.5 0 0 10 1.3e-5 0 0)
         s.
Proof.
  intros Hs. unfold build_params. rewrite Hs.
  change (particle_at (sim (impact_state mass)) 1) with targ.
  change (particle_at (sim (impact_state mass)) 0) with imp.
  change (G (sim (impact_state mass))) with 1.
  rewrite decide_False by apply impact_b_is_real.
  rewrite impact_rho1. f_equal.
  rewrite impact_b, impact_Vi, impact_l, impact_Q, impact_xrel, impact_v2rel.
  f_equal.
  - unfold Dynamics.dx, Dynamics.d, make_vector; fields. lra.
  - unfold Dynamics.dy, Dynamics.d, make_vector; fields. lra.
  - unfold Dynamics.dz, Dynamics.d, make_vector; fields. lra.
  - unfold Dynamics.Vix, Dynamics.V, make_vector; fields. lra.
  - unfold Dynamics.Viy, Dynamics.V, make_vector; fields. lra.
  - unfold Dynamics.Viz, Dynamics.V, make_vector; fields. lra.
  - unfold Dynamics.mu, Dynamics.M_tot, Dynamics.imp_m, Dynamics.targ_m;
      fields. field_simplify_eq; lra.
  - unfold Dynamics.V_esc, Dynamics.M_tot, Dynamics.R_tot, Dynamics.imp_m,
      Dynamics.targ_m, Dynamics.imp_r, Dynamics.targ_r; fields.
    replace (2 * 1 * (mass + mass) / (1e-5 + 1e-5)) with (2e5 * mass) by lra.
    apply powr_half; lra.
  - unfold Dynamics.separation_distance, Dynamics.R_tot, Dynamics.imp_r,
      Dynamics.targ_r; fields. lra.
  - apply sqrt_of_square; lra.
Qed.

Lemma impact_build_params :
  build_params (impact_state mass) 1 0
  = Done (CollisionParams 1 0 1.2e-5 0.5e-5 0 0.5e-5 (-10) 0 0 10 1.5e-5
            1.684e6 1.8 (mass / 2) 0 0 (sqrt (2e5 * mass)) 8e-5
            (Dynamics.Mlr 1 targ imp 1.684e6) 0 12.5 0 0 10 1.3e-5 0 0)
         (impact_state mass).
Proof. now apply impact_build_params_at. Qed.

(** The impact scenario is classified super-catastrophic and enters the
    synthesizer with [impact_params]; the disposition is 2. *)
Lemma impact_resolve
    (hardsphere : reb_simulation -> reb_collision -> reb_simulation)
    (v : variant) :
  reb_collision_resolve_fragment hardsphere v (impact_state mass) impact_event
  = bind (add_fragments v (impact_state mass) (impact_params mass))
         (fun p s1 => Done 2%Z (print_collision_array s1 p)).
Proof.
  pose proof impact_Mlr as [HM HM']. pose proof impact_V_esc as [HV HV'].
  unfold reb_collision_resolve_fragment. cbv zeta.
  change (particle_at (sim (impact_state mass)) (p1 impact_event)) with targ.
  change (particle_at (sim (impact_state mass)) (p2 impact_event)) with imp.
  rewrite (decide_False (P := _ \/ _))
    by (cbn [last_collision impact_target impact_projectile
             sim impact_state t]; lra).
  rewrite (decide_False (P := (_ < _)%nat)) by (cbn; lia).
  rewrite !(decide_False (P := m targ < m imp)) by (fields; lra).
  change (p1 impact_event) with 1%nat. change (p2 impact_event) with 0%nat.
  rewrite impact_build_params. cbn [bind].
  unfold resolve_outcome. cbv zeta.
  cbn [Vi V_esc b target projectile Mlr].
  change (particle_at (sim (impact_state mass)) 1) with targ.
  change (particle_at (sim (impact_state mass)) 0) with imp.
  change (min_frag_mass (impact_state mass)) with 1.4e-8.
  unfold Dynamics.M_tot, Dynamics.targ_m, Dynamics.imp_m, Dynamics.targ_r.
  assert (HVe : sqrt (2e5 * mass) = Dynamics.V_esc 1 targ imp).
  { unfold Dynamics.V_esc, Dynamics.M_tot, Dynamics.R_tot, Dynamics.imp_m,
      Dynamics.targ_m, Dynamics.imp_r, Dynamics.targ_r; fields.
    replace (2 * 1 * (mass + mass) / (1e-5 + 1e-5)) with (2e5 * mass) by lra.
    symmetry; apply powr_half; lra. }
  rewrite (decide_False (P := 10 <= _)) by (rewrite HVe; lra).
  rewrite (decide_True (P := 0.5e-5 < _)) by (fields; lra).
  rewrite (decide_False (P := _ < 1.4e-8)) by (fields; lra).
  rewrite (decide_True (P := _ < m targ)) by (fields; lra).
  rewrite (decide_True (P := _ <= 0.1 * m targ)) by (fields; lra).
  replace (MAX (Dynamics.Mlr 1 targ imp 1.684e6) 1.4e-8) with 1.4e-8.
  2:{ destruct (MAX_cases (Dynamics.Mlr 1 targ imp 1.684e6) 1.4e-8)
        as [[? ->] | [? ->]]; lra. }
  match goal with |- context [add_fragments v _ ?p] =>
    change p with (impact_params mass) end.
  destruct (add_fragments v (impact_state mass) (impact_params mass));
    reflexivity.
Qed.

End Impact.

Lemma impact_big_frags (mass : R) :
  Synth.big_frags (impact_params mass) = 0%Z.
Proof.
  unfold Synth.big_frags. cbn [Mslr impact_params].
  now rewrite decide_False by lra.
Qed.

(** The synthesizer of the fragmentation file on the parameters of the
    impact scenario. *)
Lemma impact_add_fragments (mass : R) :
  add_fragments Fragmentation (impact_state mass) (impact_params mass)
  = Done (set_no_frags (impact_params mass)
            (Synth.new_bodies (impact_state mass) (impact_params mass)))
         (Synth.final Fragmentation (impact_state mass) (impact_params mass)).
Proof.
  rewrite add_fragments_eq. unfold c_assert, snprintf_name.
  rewrite impact_big_frags. now rewrite decide_False by discriminate.
Qed.

(** ** The impact scenario with a residual mass below one fragment *)

Lemma light_impact_no_frags :
  Synth.remaining_mass (impact_state 1e-8) (impact_params 1e-8) = 0.6e-8
  /\ Synth.no_frags (impact_state 1e-8) (impact_params 1e-8) = 0%Z.
Proof.
  assert (Hrem : Synth.remaining_mass (impact_state 1e-8) (impact_params 1e-8)
                 = 0.6e-8).
  { unfold Synth.remaining_mass, Synth.initial_mass, Synth.target,
      Synth.projectile.
    cbn [Mslr Mlr impact_params]. rewrite decide_False by lra.
    change (particle_at _ (target (impact_params 1e-8)))
      with (impact_target 1e-8).
    change (particle_at _ (projectile (impact_params 1e-8)))
      with (impact_projectile 1e-8).
    cbn [m impact_target impact_projectile]. lra. }
  split; [exact Hrem |].
  unfold Synth.no_frags. rewrite Hrem.
  change (min_frag_mass (impact_state 1e-8)) with 1.4e-8.
  apply quotient_to_int_eq; [lra | unfold INT_MAX; lia |].
  assert (0 <= 0.6e-8 / 1.4e-8 <= 0.5)
    by (split; [apply Rdiv_ge_bound | apply Rdiv_le_bound]; lra).
  lra.
Qed.

Lemma light_impact_masses (v : variant) :
  m <$> particles (sim (Synth.final v (impact_state 1e-8) (impact_params 1e-8)))
  = [1e-8; 1.4e-8].
Proof.
  destruct light_impact_no_frags as [Hrem Hn].
  rewrite (final_fields m)
    by (try apply shift_keeps_m; try apply wrap_keeps_m; try reflexivity;
        cbn; lia).
  rewrite created_masses. cbn [Mslr impact_params].
  rewrite decide_False by lra. rewrite Hn.
  cbn [Z.to_nat replicate app].
  unfold Synth.placed_target, Synth.target_mass, Synth.swapped.
  cbn [m]. rewrite Hn. rewrite decide_False by (intros [? _]; discriminate).
  reflexivity.
Qed.

Lemma light_impact_run
    (hardsphere : reb_simulation -> reb_collision -> reb_simulation) :
  reb_collision_resolve_fragment hardsphere Fragmentation
    (impact_state 1e-8) impact_event
  = Done 2%Z
      (print_collision_array
         (Synth.final Fragmentation (impact_state 1e-8) (impact_params 1e-8))
         (set_no_frags (impact_params 1e-8)
            (Synth.new_bodies (impact_state 1e-8) (impact_params 1e-8)))).
Proof.
  rewrite impact_resolve by lra. now rewrite impact_add_fragments.
Qed.

(** C2 does not hold in the fragmentation file: there a
    super-catastrophic impact of two bodies of mass 1e-8 each, with the
    minimum fragment mass 1.4e-8, returns the disposition 2 and creates no
    body; the surviving target has the mass 1.4e-8, and 0.6e-8 of the
    2e-8 the pair had is lost. *)
Theorem mass_lost_without_fragments
    (hardsphere : reb_simulation -> reb_collision -> reb_simulation) :
  exists s' : state,
    reb_collision_resolve_fragment hardsphere Fragmentation
      (impact_state 1e-8) impact_event = Done 2%Z s'
    /\ N (sim s') = N (sim (impact_state 1e-8))
    /\ total_mass (survivors 2 impact_event (particles (sim s'))) = 1.4e-8
    /\ m (particle_at (sim (impact_state 1e-8)) (p1 impact_event))
       + m (particle_at (sim (impact_state 1e-8)) (p2 impact_event)) = 2e-8
    /\ total_mass (survivors 2 impact_event (particles (sim s')))
       <> m (particle_at (sim (impact_state 1e-8)) (p1 impact_event))
          + m (particle_at (sim (impact_state 1e-8)) (p2 impact_event)).
Proof.
  eexists. split; [apply light_impact_run |].
  unfold print_collision_array; cbn [sim].
  pose proof (light_impact_masses Fragmentation) as Hm.
  destruct (particles (sim (Synth.final Fragmentation (impact_state 1e-8)
                              (impact_params 1e-8))))
    as [| q1 [| q2 [| q3 l]]] eqn:Hl; try discriminate.
  injection Hm as Hm1 Hm2.
  unfold N. rewrite Hl.
  assert (Ht : total_mass (survivors 2 impact_event [q1; q2]) = 1.4e-8).
  { unfold survivors, total_mass.
    rewrite decide_False by discriminate. rewrite decide_True by reflexivity.
    cbn [p2 impact_event delete fmap list_fmap foldr]. simpl. rewrite Hm2. lra. }
  split; [reflexivity |]. split; [exact Ht |].
  change (particle_at (sim (impact_state 1e-8)) (p1 impact_event))
    with (impact_target 1e-8).
  change (particle_at (sim (impact_state 1e-8)) (p2 impact_event))
    with (impact_projectile 1e-8).
  cbn [m impact_target impact_projectile].
  split; [lra |]. rewrite Ht. lra.
Qed.

(** C4 does not hold in the fragmentation file: the same impact enters
    the synthesizer with a fragment count of 0.  The fragmentation file
    checks nothing and returns; the shearing-sheet file stops at its
    assertion. *)
Theorem unchecked_fragment_count
    (hardsphere : reb_simulation -> reb_collision -> reb_simulation) :
  Synth.no_frags (impact_state 1e-8) (impact_params 1e-8) = 0%Z
  /\ (exists s' : state,
        reb_collision_resolve_fragment hardsphere Fragmentation
          (impact_state 1e-8) impact_event = Done 2%Z s')
  /\ reb_collision_resolve_fragment hardsphere ShearingSheet
       (impact_state 1e-8) impact_event = Stop Assert_no_frags.
Proof.
  destruct light_impact_no_frags as [Hrem Hn].
  split; [exact Hn |]. split.
  - eexists. apply light_impact_run.
  - rewrite impact_resolve by lra. rewrite add_fragments_eq.
    unfold c_assert, snprintf_name. rewrite Hrem, Hn.
    change (min_frag_mass (impact_state 1e-8)) with 1.4e-8.
    rewrite !decide_True by lra.
    rewrite decide_False by lia. reflexivity.
Qed.

(** ** The impact scenario with more fragments than an [int] counts *)

Lemma to_int_overflow (a : R) : IZR INT_MAX + 1 <= a -> to_int a = INT_MIN.
Proof.
  intros Ha. unfold to_int.
  assert (H0 : 0 <= a) by (unfold INT_MAX in Ha; lra).
  rewrite decide_False; [reflexivity |].
  unfold trunc. destruct (Rle_dec 0 a); [| contradiction].
  destruct (base_Int_part a) as [_ H2].
  assert (H : IZR INT_MAX < IZR (Int_part a)) by lra.
  apply lt_IZR in H. lia.
Qed.

Lemma fine_impact_resolve
    (hardsphere : reb_simulation -> reb_collision -> reb_simulation)
    (v : variant) :
  reb_collision_resolve_fragment hardsphere v fine_impact impact_event
  = bind (add_fragments v fine_impact fine_impact_params)
         (fun p s1 => Done 2%Z (print_collision_array s1 p)).
Proof.
  assert (Hrange : 1e-8 <= 1e-8 <= 1.5e-8) by lra.
  pose proof (impact_Mlr 1e-8 Hrange) as [HM HM'].
  pose proof (impact_V_esc 1e-8 Hrange) as [HV HV'].
  unfold reb_collision_resolve_fragment. cbv zeta.
  change (particle_at (sim fine_impact) (p1 impact_event))
    with (impact_target 1e-8).
  change (particle_at (sim fine_impact) (p2 impact_event))
    with (impact_projectile 1e-8).
  rewrite (decide_False (P := _ \/ _))
    by (cbn [last_collision impact_target impact_projectile
             sim fine_impact impact_state t]; lra).
  rewrite (decide_False (P := (_ < _)%nat)) by (cbn; lia).
  rewrite !(decide_False (P := m (impact_target 1e-8) < m (impact_projectile 1e-8)))
    by (cbn [m impact_target impact_projectile]; lra).
  change (p1 impact_event) with 1%nat. change (p2 impact_event) with 0%nat.
  rewrite (impact_build_params_at 1e-8 Hrange fine_impact eq_refl).
  cbn [bind].
  unfold resolve_outcome. cbv zeta.
  cbn [Vi V_esc b target projectile Mlr].
  change (particle_at (sim fine_impact) 1) with (impact_target 1e-8).
  change (particle_at (sim fine_impact) 0) with (impact_projectile 1e-8).
  change (min_frag_mass fine_impact) with 1e-18.
  unfold Dynamics.M_tot, Dynamics.targ_m, Dynamics.imp_m, Dynamics.targ_r.
  assert (HVe : sqrt (2e5 * 1e-8)
                = Dynamics.V_esc 1 (impact_target 1e-8) (impact_projectile 1e-8)).
  { unfold Dynamics.V_esc, Dynamics.M_tot, Dynamics.R_tot, Dynamics.imp_m,
      Dynamics.targ_m, Dynamics.imp_r, Dynamics.targ_r.
    cbn [m r impact_target impact_projectile].
    replace (2 * 1 * (1e-8 + 1e-8) / (1e-5 + 1e-5)) with (2e5 * 1e-8) by lra.
    symmetry; apply powr_half; lra. }
  rewrite (decide_False (P := 10 <= _)) by (rewrite HVe; lra).
  rewrite (decide_True (P := 0.5e-5 < _))
    by (cbn [r impact_target]; lra).
  rewrite (decide_False (P := _ < 1e-18))
    by (cbn [m impact_target impact_projectile]; lra).
  rewrite (decide_True (P := _ < m (impact_target 1e-8)))
    by (cbn [m impact_target]; lra).
  rewrite (decide_True (P := _ <= 0.1 * m (impact_target 1e-8)))
    by (cbn [m impact_target]; lra).
  match goal with |- context [add_fragments v _ ?p] =>
    change p with fine_impact_params end.
  destruct (add_fragments v fine_impact fine_impact_params); reflexivity.
Qed.

Lemma fine_impact_count :
  1.9e-8 <= Synth.remaining_mass fine_impact fine_impact_params <= 2e-8
  /\ Synth.big_frags fine_impact_params = 0%Z
  /\ Synth.no_frags fine_impact fine_impact_params = INT_MIN.
Proof.
  assert (Hrange : 1e-8 <= 1e-8 <= 1.5e-8) by lra.
  pose proof (impact_Mlr 1e-8 Hrange) as [HM HM'].
  assert (Hbig : Synth.big_frags fine_impact_params = 0%Z).
  { unfold Synth.big_frags. cbn [Mslr fine_impact_params set_Mlr impact_params].
    now rewrite decide_False by lra. }
  assert (Hrem : 1.9e-8 <= Synth.remaining_mass fine_impact fine_impact_params
                 <= 2e-8).
  { unfold Synth.remaining_mass, Synth.initial_mass, Synth.target,
      Synth.projectile.
    cbn [Mslr Mlr target projectile fine_impact_params set_Mlr impact_params].
    rewrite decide_False by lra.
    change (particle_at (sim fine_impact) 1) with (impact_target 1e-8).
    change (particle_at (sim fine_impact) 0) with (impact_projectile 1e-8).
    cbn [m impact_target impact_projectile].
    destruct (MAX_cases (Dynamics.Mlr 1 (impact_target 1e-8)
                           (impact_projectile 1e-8) 1.684e6) 1e-18)
      as [[? ->] | [? ->]]; lra. }
  split; [exact Hrem |]. split; [exact Hbig |].
  unfold Synth.no_frags, quotient_to_int.
  change (min_frag_mass fine_impact) with 1e-18.
  destruct (Req_dec_T 1e-18 0) as [E | _]; [lra |].
  apply to_int_overflow. unfold INT_MAX.
  apply Rdiv_ge_bound; lra.
Qed.

(** C8 does not hold in the fragmentation file: there the fragment count
    is converted to [int] unchecked.  An impact whose residual mass makes
    more fragments than an [int] can count returns the disposition 2 with
    the counter fallen from 0 to [INT_MIN] and with no body created; the
    shearing-sheet file stops the same call at its assertion. *)
Theorem counter_falls_on_overflow
    (hardsphere : reb_simulation -> reb_collision -> reb_simulation) :
  valid_event fine_impact impact_event
  /\ IZR INT_MAX + 1
     <= Synth.remaining_mass fine_impact fine_impact_params
        / min_frag_mass fine_impact
  /\ (exists s' : state,
        reb_collision_resolve_fragment hardsphere Fragmentation
          fine_impact impact_event = Done 2%Z s'
        /\ tot_no_frags fine_impact = 0%Z
        /\ tot_no_frags s' = INT_MIN
        /\ (tot_no_frags s' < tot_no_frags fine_impact)%Z
        /\ created_by fine_impact s' = [])
  /\ reb_collision_resolve_fragment hardsphere ShearingSheet
       fine_impact impact_event = Stop Assert_no_frags.
Proof.
  destruct fine_impact_count as (Hrem & Hbig & Hn).
  split.
  { unfold valid_event.
    change (particle_at _ (p1 impact_event)) with (impact_target 1e-8).
    change (particle_at _ (p2 impact_event)) with (impact_projectile 1e-8).
    change (min_frag_mass fine_impact) with 1e-18.
    cbn [m impact_target impact_projectile N sim fine_impact impact_state
         particles length p1 p2 impact_event].
    repeat split; (lia || lra). }
  split.
  { change (min_frag_mass fine_impact) with 1e-18. unfold INT_MAX.
    apply Rdiv_ge_bound; lra. }
  split.
  - rewrite fine_impact_resolve, add_fragments_eq.
    unfold c_assert, snprintf_name. rewrite Hbig.
    rewrite decide_False by discriminate. cbn [bind].
    destruct (final_frame Fragmentation fine_impact fine_impact_params)
      as (_ & _ & _ & Htot & _).
    assert (Hfall : tot_no_frags (Synth.final Fragmentation fine_impact
                                    fine_impact_params) = INT_MIN).
    { rewrite Htot. unfold Synth.tot. rewrite Hbig, Hn. reflexivity. }
    assert (Hlen : N (sim (Synth.final Fragmentation fine_impact
                             fine_impact_params)) = N (sim fine_impact)).
    { rewrite final_length; [| now right | cbn; lia].
      unfold Synth.new_bodies. rewrite Hbig, Hn. reflexivity. }
    eexists. split; [reflexivity |]. split; [reflexivity |].
    unfold print_collision_array, created_by; cbn [tot_no_frags sim].
    split; [exact Hfall |]. split; [rewrite Hfall; reflexivity |].
    fold (N (sim fine_impact)). rewrite <- Hlen. unfold N.
    now rewrite drop_all.
  - rewrite fine_impact_resolve, add_fragments_eq.
    unfold c_assert, snprintf_name. rewrite Hn.
    change (min_frag_mass fine_impact) with 1e-18.
    rewrite (decide_True (P := 1e-18 > 0)) by lra.
    rewrite (decide_True (P := _ > 0)) by lra.
    rewrite decide_False by (unfold INT_MIN; lia). reflexivity.
Qed.

(** ** Conservation of mass *)

Lemma sumR_app (l k : list R) : sumR (l ++ k) = sumR l + sumR k.
Proof. induction l as [| a l IH]; simpl; [lra | rewrite IH; lra]. Qed.

Lemma sumR_insert (l : list R) (i : nat) (a b : R) :
  l !! i = Some a -> sumR (<[i := b]> l) = sumR l - a + b.
Proof.
  revert i; induction l as [| c l IH]; intros [| i] H; simpl in *;
    try discriminate.
  - injection H as ->. lra.
  - rewrite (IH i H). lra.
Qed.

Lemma sumR_delete (l : list R) (i : nat) (a : R) :
  l !! i = Some a -> sumR (delete i l) = sumR l - a.
Proof.
  revert i; induction l as [| c l IH]; intros [| i] H; simpl in *;
    try discriminate.
  - injection H as ->. lra.
  - rewrite (IH i H). lra.
Qed.

Lemma sumR_replicate (n : nat) (a : R) : sumR (replicate n a) = INR n * a.
Proof.
  induction n as [| n IH]; [simpl; lra |].
  rewrite S_INR. simpl replicate. simpl sumR. fold (sumR (replicate n a)).
  rewrite IH. lra.
Qed.

Lemma total_mass_sumR (l : list reb_particle) : total_mass l = sumR (m <$> l).
Proof. reflexivity. Qed.

(** The masses the synthesizer hands out add up to the mass of the pair as
    soon as there is a fragment to take the residual mass. *)
Lemma synthesized_mass (s : state) (pf : collision_params) :
  (0 < Synth.no_frags s pf)%Z ->
  Synth.target_mass s pf + sumR (m <$> Synth.created s pf)
  = Synth.initial_mass s pf.
Proof.
  intros Hn. rewrite created_masses, sumR_app, sumR_replicate.
  rewrite INR_IZR_INZ, Z2Nat.id by lia.
  assert (HnR : IZR (Synth.no_frags s pf) <> 0).
  { apply not_0_IZR. lia. }
  unfold Synth.target_mass, Synth.frag_mass.
  destruct (decide (Synth.swapped s pf)) as [[Hone _] | _].
  - rewrite Hone in *. unfold Synth.remaining_mass.
    destruct (decide (Mslr pf > 0)); simpl; lra.
  - unfold Synth.remaining_mass.
    destruct (decide (Mslr pf > 0)); simpl; field_simplify_eq; lra.
Qed.

Lemma fragments_conserve_mass (v : variant) (s : state)
    (pf : collision_params) :
  (0 < Synth.no_frags s pf)%Z ->
  (target pf < N (sim s))%nat -> (projectile pf < N (sim s))%nat ->
  target pf <> projectile pf ->
  total_mass (delete (projectile pf) (particles (sim (Synth.final v s pf))))
  = total_mass (particles (sim s)).
Proof.
  intros Hn Ht Hp Hne.
  rewrite !total_mass_sumR, list_fmap_delete.
  rewrite (final_fields m)
    by (try apply shift_keeps_m; try apply wrap_keeps_m; try reflexivity;
        exact Ht).
  destruct (lookup_lt_is_Some_2 (particles (sim s)) _ Ht) as [qt Hqt].
  destruct (lookup_lt_is_Some_2 (particles (sim s)) _ Hp) as [qp Hqp].
  assert (Hmt : (m <$> particles (sim s)) !! target pf = Some (m qt))
    by (now rewrite list_lookup_fmap, Hqt).
  assert (Hmp : (m <$> particles (sim s)) !! projectile pf = Some (m qp))
    by (now rewrite list_lookup_fmap, Hqp).
  rewrite (sumR_delete _ _ (m qp)).
  2:{ rewrite lookup_app_l
        by (rewrite length_insert, length_fmap; exact Hp).
      now rewrite list_lookup_insert_ne. }
  rewrite sumR_app, (sumR_insert _ _ (m qt)) by exact Hmt.
  pose proof (synthesized_mass s pf Hn) as Hsum.
  unfold Synth.placed_target; cbn [m].
  unfold Synth.initial_mass, Synth.target, Synth.projectile, particle_at
    in Hsum.
  rewrite (list_lookup_total_correct _ _ _ Hqt),
          (list_lookup_total_correct _ _ _ Hqp) in Hsum.
  lra.
Qed.

Section Conservation.

Variable hardsphere : reb_simulation -> reb_collision -> reb_simulation.
Hypothesis contract : hardsphere_contract hardsphere.

(** In the shearing-sheet file every event that is resolved conserves the
    mass in the store, whatever the outcome: the bodies the host keeps
    weigh what the bodies weighed before. *)
Lemma shearing_sheet_conserves_mass (s s' : state) (c : reb_collision)
    (d : Z) :
  (p1 c < N (sim s))%nat -> (p2 c < N (sim s))%nat -> p1 c <> p2 c ->
  reb_collision_resolve_fragment hardsphere ShearingSheet s c = Done d s' ->
  total_mass (survivors d c (particles (sim s')))
  = total_mass (particles (sim s)).
Proof.
  intros Hp1 Hp2 Hne Hres.
  apply resolve_inv in Hres as [[-> ->] | Hres]; [reflexivity |].
  destruct Hres as (i & j & params & p' & s1 & Hij & Hb & -> & Hcase).
  cbv zeta in *.
  set (swap := if decide (m (particle_at (sim s) (p1 c))
                          < m (particle_at (sim s) (p2 c)))
               then 1%Z else 2%Z) in *.
  assert (Hsurv : forall l : list reb_particle,
            survivors swap c l = delete j l).
  { intros l. unfold survivors, swap.
    destruct Hij as [(Hl & _ & ->) | (Hl & _ & ->)].
    - rewrite (decide_True (P := _ < _)) by exact Hl.
      now rewrite decide_True.
    - rewrite (decide_False (P := _ < _)) by exact Hl.
      rewrite decide_False by discriminate. now rewrite decide_True. }
  assert (Hin : (i < N (sim s))%nat /\ (j < N (sim s))%nat /\ i <> j).
  { destruct Hij as [(_ & -> & ->) | (_ & -> & ->)]; repeat split;
      (lia || congruence). }
  destruct Hin as (Hi & Hj & Hneq).
  destruct (build_params_inv _ _ _ _ _ Hb) as (_ & Hti & Htj & _).
  unfold print_collision_array; cbn [sim].
  destruct Hcase as [(-> & pm & -> & Htm & Hpm) | [(-> & ->) | (-> & pf & Hsyn)]].
  - rewrite Hsurv. unfold merge, set_sim; cbn [sim particles set_particles].
    rewrite Htm, Hpm. unfold particle_at.
    destruct (lookup_lt_is_Some_2 (particles (sim s)) _ Hi) as [qi Hqi].
    destruct (lookup_lt_is_Some_2 (particles (sim s)) _ Hj) as [qj Hqj].
    rewrite (list_lookup_total_correct _ _ _ Hqi),
            (list_lookup_total_correct _ _ _ Hqj).
    rewrite !total_mass_sumR, list_fmap_delete, list_fmap_insert.
    cbn [m].
    rewrite (sumR_delete _ _ (m qj)).
    2:{ rewrite list_lookup_insert_ne by exact Hneq.
        now rewrite list_lookup_fmap, Hqj. }
    rewrite (sumR_insert _ _ (m qi)) by (now rewrite list_lookup_fmap, Hqi).
    lra.
  - unfold survivors. rewrite !decide_False by discriminate.
    unfold set_sim; cbn [sim]. rewrite !total_mass_sumR.
    destruct (contract (sim s) c) as (_ & -> & _). reflexivity.
  - destruct Hsyn as (Ha & Htf & Hpf & _).
    apply add_fragments_done in Ha as [-> Hassert].
    destruct (Hassert eq_refl) as (_ & _ & Hn & _).
    rewrite Hsurv, <- Htj, <- Hpf.
    apply fragments_conserve_mass; [exact Hn | | |]; rewrite ?Htf, ?Hpf;
      rewrite ?Hti, ?Htj; assumption.
Qed.

End Conservation.

(** ** The impact scenario with a single fragment *)

Lemma shift_x (xoff voff : vec3) (k : R) (q : reb_particle) :
  x (shift xoff voff k q) = x q + xoff.1.1 * k.
Proof. now destruct xoff as [[? ?] ?], voff as [[? ?] ?]. Qed.

Lemma shift_vx (xoff voff : vec3) (k : R) (q : reb_particle) :
  vx (shift xoff voff k q) = vx q + voff.1.1 * k.
Proof. now destruct xoff as [[? ?] ?], voff as [[? ?] ?]. Qed.

(** The correction of a store of three bodies whose last one has the hash
    looked for. *)
Lemma correct_third (xoff voff : vec3) (M : R) (sm : reb_simulation)
    (a b f : reb_particle) (i : Z) :
  particles sm = [a; b; f] ->
  hash a <> FRAG i -> hash b <> FRAG i -> hash f = FRAG i ->
  particles (correct_fragment xoff voff M sm i)
  = [a; b; shift xoff voff (m f / M) f].
Proof.
  intros Hl Ha Hb Hf.
  unfold correct_fragment, reb_simulation_particle_by_hash, particle_at.
  rewrite Hl. cbn [list_find].
  rewrite decide_False by assumption. cbn [fmap option_fmap option_map].
  rewrite decide_False by assumption. cbn [fmap option_fmap option_map].
  rewrite decide_True by assumption. cbn [fmap option_fmap option_map fst].
  reflexivity.
Qed.

Section SingleFragment.

#[local] Abbreviation s := (impact_state 1.5e-8).
#[local] Abbreviation pf := (impact_params 1.5e-8).

Lemma single_no_frags :
  Synth.remaining_mass s pf = 1.6e-8 /\ Synth.no_frags s pf = 1%Z.
Proof.
  assert (Hrem : Synth.remaining_mass s pf = 1.6e-8).
  { unfold Synth.remaining_mass, Synth.initial_mass, Synth.target,
      Synth.projectile.
    cbn [Mslr Mlr impact_params]. rewrite decide_False by lra.
    change (particle_at _ (target (impact_params 1.5e-8)))
      with (impact_target 1.5e-8).
    change (particle_at _ (projectile (impact_params 1.5e-8)))
      with (impact_projectile 1.5e-8).
    cbn [m impact_target impact_projectile]. lra. }
  split; [exact Hrem |].
  unfold Synth.no_frags. rewrite Hrem.
  change (min_frag_mass s) with 1.4e-8.
  apply quotient_to_int_eq; [lra | unfold INT_MAX; lia |].
  assert (1 <= 1.6e-8 / 1.4e-8 <= 1.5)
    by (split; [apply Rdiv_ge_bound | apply Rdiv_le_bound]; lra).
  lra.
Qed.

Lemma single_masses :
  Synth.initial_mass s pf = 3e-8
  /\ Synth.target_mass s pf = 1.6e-8 /\ Synth.frag_mass s pf = 1.4e-8.
Proof.
  destruct single_no_frags as [Hrem Hn].
  assert (Hsw : Synth.swapped s pf).
  { unfold Synth.swapped. rewrite Hrem, Hn. split; [reflexivity |].
    cbn [Mlr impact_params]. lra. }
  unfold Synth.target_mass, Synth.frag_mass.
  rewrite !decide_True by assumption. rewrite Hrem, Hn.
  repeat split.
  - unfold Synth.initial_mass, Synth.target, Synth.projectile.
    change (particle_at _ (target (impact_params 1.5e-8)))
      with (impact_target 1.5e-8).
    change (particle_at _ (projectile (impact_params 1.5e-8)))
      with (impact_projectile 1.5e-8).
    cbn [m impact_target impact_projectile]. lra.
  - lra.
Qed.

Lemma single_com :
  x (Synth.com s pf) = 0.6e-5 /\ vx (Synth.com s pf) = -5.
Proof.
  unfold Synth.com, Synth.target, Synth.projectile,
    reb_particle_com_of_pair.
  change (particle_at _ (target (impact_params 1.5e-8)))
    with (impact_target 1.5e-8).
  change (particle_at _ (projectile (impact_params 1.5e-8)))
    with (impact_projectile 1.5e-8).
  cbn [x vx m impact_target impact_projectile].
  split; field_simplify_eq; lra.
Qed.

Lemma single_created :
  exists f : reb_particle,
    Synth.created s pf = [f] /\ hash f = FRAG 1 /\ m f = 1.4e-8
    /\ x f = x (Synth.com s pf) - 8e-5
    /\ vx f = vx (Synth.com s pf) - Synth.fv s pf.
Proof.
  destruct single_no_frags as [Hrem Hn].
  destruct single_masses as (HM & Htm & Hfm).
  unfold Synth.created, Synth.new_bodies, Synth.big_frags.
  replace (Mslr pf) with 0 by reflexivity.
  rewrite !decide_False by lra. rewrite Hn, Hfm.
  change (tot_no_frags s) with 0%Z.
  eexists. split; [reflexivity |].
  unfold fragment, unit_vi, unit_o.
  cbn [hash m x vx fst snd].
  split; [reflexivity |]. split; [reflexivity |].
  change (IZR (1 + 0)) with 1.
  change (IZR (Z.of_nat 0 + (0 + 0 + 1) - (0 + 0 + 1) + 1)) with 1.
  replace (2 * PI / 1 * 1) with (2 * PI) by field.
  rewrite cos_2PI, sin_2PI.
  rewrite !Rmult_0_l.
  cbn [Vix vrel separation_distance impact_params].
  split; lra.
Qed.


Lemma single_fv : Synth.fv s pf = sqrt 1.05e-3.
Proof.
  unfold Synth.fv, fragment_velocity, Synth.initial_mass, Synth.rtot,
    Synth.target, Synth.projectile.
  change (particle_at _ (target (impact_params 1.5e-8)))
    with (impact_target 1.5e-8).
  change (particle_at _ (projectile (impact_params 1.5e-8)))
    with (impact_projectile 1.5e-8).
  cbn [m r impact_target impact_projectile V_esc separation_distance
       impact_params sim impact_state G].
  f_equal.
  replace (sqrt (2e5 * 1.5e-8) ^ 2) with (2e5 * 1.5e-8)
    by (simpl; rewrite Rmult_1_r, sqrt_sqrt; lra).
  lra.
Qed.

Lemma single_final :
  exists f : reb_particle,
    hash f = FRAG 1 /\ m f = 1.4e-8
    /\ x f = x (Synth.com s pf) - 8e-5
    /\ vx f = vx (Synth.com s pf) - Synth.fv s pf
    /\ Synth.created s pf = [f]
    /\ particles (sim (Synth.final Fragmentation s pf))
       = [impact_projectile 1.5e-8; Synth.corrected_target s pf;
          shift (Synth.xoff s pf) (Synth.voff s pf)
                (m f / Synth.initial_mass s pf) f].
Proof.
  destruct single_no_frags as [Hrem Hn].
  destruct single_created as (f & Hcr & Hh & Hm & Hx & Hvx).
  exists f. repeat (split; [assumption |]).
  unfold Synth.final; cbn [sim].
  unfold Synth.tot, Synth.new_bodies, Synth.big_frags.
  replace (Mslr pf) with 0 by reflexivity.
  rewrite !decide_False by lra. rewrite Hn.
  change (seqZ _ _) with [1%Z]. cbn [foldl].
  apply correct_third; try assumption.
  - unfold Synth.before_correction. rewrite Hcr. reflexivity.
  - discriminate.
  - discriminate.
Qed.

End SingleFragment.

(** C1 does not hold: a super-catastrophic impact of two bodies of
    mass 1.5e-8 each leaves the target with the mass 1.6e-8 and one fragment
    of mass 1.4e-8.  After the correction pass their masses add up to the
    mass of the pair, but the mass-weighted sums of their positions and of
    their velocities are not those of the centre of mass of the pair,
    whether taken as sums, as means or against the total momentum: the
    offset was applied in proportion to the masses, and only the fraction
    [(m_T^2 + m_F^2) / M^2] of the discrepancy was removed. *)
Theorem momentum_not_restored
    (hardsphere : reb_simulation -> reb_collision -> reb_simulation) :
  let s := impact_state 1.5e-8 in
  let targ := particle_at (sim s) (p1 impact_event) in
  let imp := particle_at (sim s) (p2 impact_event) in
  let com := reb_particle_com_of_pair targ imp in
  exists s' : state,
    reb_collision_resolve_fragment hardsphere Fragmentation s impact_event
    = Done 2%Z s'
    /\ let bodies := survivors 2 impact_event (particles (sim s')) in
       m <$> bodies = [1.6e-8; 1.4e-8]
       /\ total_mass bodies = m targ + m imp
       /\ (m targ + m imp) * x com = 1.8e-13
       /\ weighted_sum x bodies = 1.8e-13 - 1.12e-12 * (4.48 / 9)
       /\ weighted_sum x bodies <> (m targ + m imp) * x com
       /\ weighted_sum x bodies / (m targ + m imp) <> x com
       /\ weighted_sum x bodies <> x com
       /\ weighted_sum vx bodies
          = (m targ + m imp) * vx com - 1.4e-8 * sqrt 1.05e-3 * (4.48 / 9)
       /\ weighted_sum vx bodies <> (m targ + m imp) * vx com
       /\ weighted_sum vx bodies / (m targ + m imp) <> vx com
       /\ weighted_sum vx bodies <> vx com.
Proof.
  intros s targ imp com.
  destruct single_final as (f & Hh & Hmf & Hxf & Hvxf & Hcr & Hl).
  destruct single_masses as (HM & Htm & Hfm).
  destruct single_com as [Hcx Hcvx].
  pose proof single_fv as Hfv.
  assert (Hsq : 0 < sqrt 1.05e-3) by (apply sqrt_lt_R0; lra).
  assert (Hcom : (m targ + m imp) * x com = 1.8e-13
                 /\ (m targ + m imp) * vx com = 3e-8 * -5
                 /\ m targ + m imp = 3e-8).
  { subst com targ imp s. unfold reb_particle_com_of_pair.
    change (particle_at _ (p1 impact_event)) with (impact_target 1.5e-8).
    change (particle_at _ (p2 impact_event)) with (impact_projectile 1.5e-8).
    cbn [x vx m impact_target impact_projectile].
    repeat split; try lra; field_simplify_eq; lra. }
  destruct Hcom as (Hcomx & Hcomvx & Hmass).
  clearbody com targ imp. subst s.
  set (s := impact_state 1.5e-8) in *.
  set (pf := impact_params 1.5e-8) in *.
  assert (Hxoff : (Synth.xoff s pf).1.1 = 1.4e-8 * 8e-5 / 3e-8).
  { unfold Synth.xoff, Synth.mxsum, Synth.sum_positions. rewrite Hcr.
    cbn [foldl add_weighted fst snd]. unfold Synth.placed_target.
    cbn [m x]. rewrite HM, Htm, Hmf, Hxf, Hcx. field_simplify_eq; lra. }
  assert (Hvoff : (Synth.voff s pf).1.1 = 1.4e-8 * sqrt 1.05e-3 / 3e-8).
  { unfold Synth.voff, Synth.mvsum, Synth.sum_velocities. rewrite Hcr.
    cbn [foldl add_weighted fst snd]. unfold Synth.placed_target.
    cbn [m vx]. rewrite HM, Htm, Hmf, Hvxf, Hcvx, Hfv.
    field_simplify_eq; lra. }
  set (bodies := [Synth.corrected_target s pf;
                  shift (Synth.xoff s pf) (Synth.voff s pf)
                        (m f / Synth.initial_mass s pf) f]).
  assert (Hsx : weighted_sum x bodies = 1.8e-13 - 1.12e-12 * (4.48 / 9)).
  { unfold weighted_sum, bodies; cbn [foldr].
    rewrite shift_x, shift_keeps_m. unfold Synth.corrected_target.
    cbn [m x]. rewrite Hxoff, HM, Htm, Hmf, Hxf, Hcx. field_simplify_eq; lra. }
  assert (Hsv : weighted_sum vx bodies
                = (m targ + m imp) * vx com
                  - 1.4e-8 * sqrt 1.05e-3 * (4.48 / 9)).
  { unfold weighted_sum, bodies; cbn [foldr].
    rewrite shift_vx, shift_keeps_m. unfold Synth.corrected_target.
    cbn [m vx]. rewrite Hvoff, HM, Htm, Hmf, Hvxf, Hcvx, Hfv, Hcomvx.
    field_simplify_eq; lra. }
  assert (Hms : m <$> bodies = [1.6e-8; 1.4e-8]).
  { unfold bodies. cbn [fmap list_fmap]. rewrite shift_keeps_m.
    unfold Synth.corrected_target. cbn [m]. now rewrite Htm, Hmf. }
  exists (print_collision_array (Synth.final Fragmentation s pf)
            (set_no_frags pf (Synth.new_bodies s pf))).
  split.
  { subst s pf. rewrite impact_resolve by lra.
    now rewrite impact_add_fragments. }
  unfold print_collision_array; cbn [sim].
  rewrite Hl. unfold survivors.
  rewrite decide_False by discriminate. rewrite decide_True by reflexivity.
  change (delete (p2 impact_event) _) with bodies.
  cbv zeta. split; [exact Hms |]. split.
  { unfold total_mass. rewrite Hms, Hmass. cbn [foldr]. lra. }
  assert (Hxc : x com = 0.6e-5 /\ vx com = -5).
  { rewrite Hmass in Hcomx, Hcomvx. split; nra. }
  destruct Hxc as [Hxc Hvc].
  assert (Hsq1 : sqrt 1.05e-3 < 1).
  { rewrite <- sqrt_1. apply sqrt_lt_1_alt. lra. }
  split; [exact Hcomx |]. split; [exact Hsx |].
  split; [rewrite Hsx, Hcomx; lra |].
  split.
  { rewrite Hsx, Hmass, Hxc. intros H.
    apply (f_equal (fun a => a * 3e-8)) in H.
    unfold Rdiv in H. rewrite Rmult_assoc, Rinv_l in H by lra. lra. }
  split; [rewrite Hsx, Hxc; lra |].
  split; [exact Hsv |].
  split; [rewrite Hsv; nra |].
  split.
  { rewrite Hsv, Hmass, Hvc. intros H.
    apply (f_equal (fun a => a * 3e-8)) in H.
    unfold Rdiv in H. rewrite Rmult_assoc, Rinv_l in H by lra. nra. }
  rewrite Hsv, Hmass, Hvc. nra.
Qed.

(** ** The fatal preconditions *)

(** Both files stop the run on an impact parameter that is not a number. *)
Lemma nan_impact_parameter_stops
    (hardsphere : reb_simulation -> reb_collision -> reb_simulation)
    (v : variant) (s : state) (c : reb_collision) :
  let lighter :=
    m (particle_at (sim s) (p1 c)) < m (particle_at (sim s) (p2 c)) in
  let i := if decide lighter then p2 c else p1 c in
  let j := if decide lighter then p1 c else p2 c in
  ~ (last_collision (particle_at (sim s) (p1 c)) = t (sim s)
     \/ last_collision (particle_at (sim s) (p2 c)) = t (sim s)) ->
  ~ (p1 c < p2 c)%nat ->
  Dynamics.b_is_nan (G (sim s)) (particle_at (sim s) i) (particle_at (sim s) j) ->
  reb_collision_resolve_fragment hardsphere v s c = Stop Exit_NaN_b.
Proof.
  intros lighter i j Hg Hlt Hnan.
  unfold reb_collision_resolve_fragment. cbv zeta.
  rewrite (decide_False (P := _ \/ _)) by exact Hg.
  rewrite (decide_False (P := (_ < _)%nat)) by exact Hlt.
  fold lighter. fold i. fold j.
  unfold build_params. now rewrite decide_True.
Qed.

(** The synthesizer of the shearing-sheet file stops the run on each of
    its three preconditions. *)
Lemma shearing_sheet_assertions (s : state) (pf : collision_params) :
  (~ min_frag_mass s > 0 ->
   add_fragments ShearingSheet s pf = Stop Assert_min_frag_mass)
  /\ (min_frag_mass s > 0 -> ~ Synth.remaining_mass s pf > 0 ->
      add_fragments ShearingSheet s pf = Stop Assert_remaining_mass)
  /\ (min_frag_mass s > 0 -> Synth.remaining_mass s pf > 0 ->
      ~ (0 < Synth.no_frags s pf < 1000000)%Z ->
      add_fragments ShearingSheet s pf = Stop Assert_no_frags).
Proof.
  rewrite add_fragments_eq. unfold c_assert, snprintf_name. repeat split.
  - intros H. now rewrite decide_False.
  - intros H1 H2. rewrite decide_True by exact H1. now rewrite decide_False.
  - intros H1 H2 H3. rewrite !decide_True by assumption.
    now rewrite decide_False.
Qed.

(** ** Instances *)

Lemma no_bounce_contract : hardsphere_contract no_bounce.
Proof. intros sm c. unfold no_bounce. repeat split. now left. Qed.

Lemma lower_first_index_noop_witness :
  (p1 (Collision 0 1) < p2 (Collision 0 1))%nat
  /\ reb_collision_resolve_fragment no_bounce Fragmentation
       (impact_state 1e-8) (Collision 0 1)
     = Done 0%Z (impact_state 1e-8).
Proof.
  split; [cbn; lia |].
  apply (lower_first_index_noop no_bounce Fragmentation (impact_state 1e-8)
           (Collision 0 1)).
  cbn; lia.
Defined.

Lemma merge_operator_witness :
  let s := impact_state 1e-8 in
  let params := impact_params 1e-8 in
  particles (sim s) !! target params = Some (impact_target 1e-8)
  /\ particles (sim s) !! projectile params = Some (impact_projectile 1e-8)
  /\ target params <> projectile params
  /\ exists q : reb_particle,
       particles (sim (merge s params)) !! 1%nat = Some q
       /\ m q = 2e-8 /\ x q = 0.6e-5 /\ y q = 0.25e-5 /\ vx q = -5
       /\ last_collision q = 1 /\ hash q = NAMED 1
       /\ particles (sim (merge s params)) !! 0%nat
          = Some (impact_projectile 1e-8).
Proof.
  intros s params.
  assert (H1 : particles (sim s) !! target params = Some (impact_target 1e-8))
    by reflexivity.
  assert (H2 : particles (sim s) !! projectile params
               = Some (impact_projectile 1e-8)) by reflexivity.
  assert (H3 : target params <> projectile params) by (cbn; lia).
  split; [exact H1 |]. split; [exact H2 |]. split; [exact H3 |].
  destruct (merge_operator s params _ _ H1 H2 H3) as (Ht & Hp & _).
  eexists. split; [exact Ht |].
  cbn [m x y vx last_collision hash impact_target impact_projectile].
  repeat split; try (field_simplify_eq; lra); try reflexivity.
Defined.

Lemma largest_remnant_mass_witness :
  let targ := impact_target 1e-8 in
  let imp := impact_projectile 1e-8 in
  0 < r imp /\ 0 < r targ
  /\ Dynamics.Q_star 1 targ imp 1.684e6 = Q_star_general 1 targ imp 1.684e6
  /\ Dynamics.Mlr 1 targ imp 1.684e6
     = 0.1 * Dynamics.M_tot targ imp
       * powr (Dynamics.Q 1 targ imp
               / (1.8 * Dynamics.Q_star 1 targ imp 1.684e6)) (-1.5).
Proof.
  intros targ imp.
  assert (Hri : 0 < r imp)
    by (subst imp; cbn [r impact_projectile]; lra).
  assert (Hrt : 0 < r targ)
    by (subst targ; cbn [r impact_target]; lra).
  split; [exact Hri |]. split; [exact Hrt |].
  destruct (largest_remnant_mass 1 targ imp 1.684e6 Hri Hrt)
    as (_ & Hhigh & _ & _ & Hgen & _).
  split.
  - apply Hgen.
    + subst targ imp. rewrite impact_alpha. lra.
    + subst targ imp. rewrite impact_b. lra.
  - apply Hhigh. subst targ imp. rewrite impact_Q by lra.
    assert (Hrange : 1e-8 <= 1e-8 <= 1.5e-8) by lra.
    destruct (impact_Q_star 1e-8 Hrange) as [Hpos Hle].
    apply Rle_ge. apply Rdiv_ge_bound; lra.
Defined.

Lemma resolved_once_witness :
  let s := impact_state 1e-8 in
  hardsphere_contract no_bounce
  /\ (p1 impact_event < N (sim s))%nat /\ (p2 impact_event < N (sim s))%nat
  /\ exists s' s'' : state,
       reb_collision_resolve_fragment no_bounce Fragmentation s impact_event
       = Done 2%Z s'
       /\ reb_collision_resolve_fragment no_bounce Fragmentation s' impact_event
          = Done 0%Z s''.
Proof.
  intros s.
  assert (Hp1 : (p1 impact_event < N (sim s))%nat) by (cbn; lia).
  assert (Hp2 : (p2 impact_event < N (sim s))%nat) by (cbn; lia).
  split; [exact no_bounce_contract |]. split; [exact Hp1 |].
  split; [exact Hp2 |].
  destruct (resolved_once no_bounce no_bounce_contract Fragmentation s
              impact_event Hp1 Hp2) as [_ Hagain].
  destruct (Hagain _ _ (light_impact_run no_bounce)) as [s'' Hs''].
  eexists _, s''. split; [apply light_impact_run | exact Hs''].
Defined.

(**  * Further properties of the code *)

(** ** The coefficient of restitution *)

Lemma Rpower_antitone (a b y : R) :
  0 < a <= b -> y <= 0 -> Rpower b y <= Rpower a y.
Proof.
  intros [Ha Hab] Hy. unfold Rpower.
  destruct (Req_dec a b) as [-> | Hne]; [lra |].
  assert (Hln : ln a < ln b) by (apply ln_increasing; lra).
  destruct (Req_dec y 0) as [-> | Hy0]; [rewrite !Rmult_0_l; lra |].
  left. apply exp_increasing. nra.
Qed.

Section Restitution.

Variable sim : reb_simulation.

Lemma restitution_nonzero (v : R) :
  v <> 0 ->
  coefficient_of_restitution_bridges sim v
  = MIN 1 (0.32 * Rpower (Rabs v * 100) (-0.234)).
Proof.
  intros Hv. unfold coefficient_of_restitution_bridges, powr, MIN.
  rewrite decide_False by assumption.
  assert (Ha : 0 < Rabs v * 100) by (pose proof (Rabs_pos_lt v Hv); lra).
  destruct (Rlt_dec 0 (Rabs v * 100)) as [_ | Hn]; [| contradiction].
  pose proof (exp_pos (-0.234 * ln (Rabs v * 100))) as Hp.
  fold (Rpower (Rabs v * 100) (-0.234)) in Hp.
  cbv zeta.
  destruct (decide (0.32 * Rpower (Rabs v * 100) (-0.234) > 1)) as [Hg | Hg].
  - rewrite decide_False by lra.
    destruct (Rgt_dec 1 _) as [H1 | H1]; lra.
  - rewrite decide_False by lra.
    destruct (Rgt_dec 1 _) as [H1 | H1]; lra.
Qed.

Lemma restitution_at_most_1 (v : R) :
  coefficient_of_restitution_bridges sim v <= 1.
Proof.
  destruct (Req_dec v 0) as [-> | Hv].
  - unfold coefficient_of_restitution_bridges.
    rewrite decide_True by reflexivity. lra.
  - rewrite restitution_nonzero by assumption.
    destruct (MIN_cases 1 (0.32 * Rpower (Rabs v * 100) (-0.234)))
      as [[? ->] | [? ->]]; lra.
Qed.

(** X1: the coefficient of restitution lies in (0, 1] for every speed, the
    speed 0 included, so that the lower clamp of the source is never
    taken; it does not depend on the sign of the speed. *)
Theorem restitution_range (v : R) :
  0 < coefficient_of_restitution_bridges sim v <= 1
  /\ coefficient_of_restitution_bridges sim (- v)
     = coefficient_of_restitution_bridges sim v.
Proof.
  split.
  - destruct (Req_dec v 0) as [-> | Hv].
    + unfold coefficient_of_restitution_bridges.
      rewrite decide_True by reflexivity. lra.
    + rewrite restitution_nonzero by assumption.
      pose proof (exp_pos (-0.234 * ln (Rabs v * 100))) as Hp.
      fold (Rpower (Rabs v * 100) (-0.234)) in Hp.
      destruct (MIN_cases 1 (0.32 * Rpower (Rabs v * 100) (-0.234)))
        as [[? ->] | [? ->]]; lra.
  - destruct (Req_dec v 0) as [-> | Hv].
    + now rewrite Ropp_0.
    + rewrite !restitution_nonzero by lra. now rewrite Rabs_Ropp.
Qed.

(** X2: the coefficient of restitution does not increase with the speed
    of the impact. *)
Theorem restitution_decreases (v w : R) :
  Rabs v <= Rabs w ->
  coefficient_of_restitution_bridges sim w
  <= coefficient_of_restitution_bridges sim v.
Proof.
  intros Hvw.
  destruct (Req_dec v 0) as [-> | Hv].
  - replace (coefficient_of_restitution_bridges sim 0) with 1.
    + apply restitution_at_most_1.
    + unfold coefficient_of_restitution_bridges.
      now rewrite decide_True by reflexivity.
  - assert (Hw : w <> 0).
    { intros ->. rewrite Rabs_R0 in Hvw.
      pose proof (Rabs_pos_lt v Hv). lra. }
    rewrite !restitution_nonzero by assumption.
    pose proof (Rabs_pos_lt v Hv) as Hpv.
    assert (Hp : Rpower (Rabs w * 100) (-0.234) <= Rpower (Rabs v * 100) (-0.234))
      by (apply Rpower_antitone; lra).
    destruct (MIN_cases 1 (0.32 * Rpower (Rabs v * 100) (-0.234)))
      as [[? ->] | [? ->]];
    destruct (MIN_cases 1 (0.32 * Rpower (Rabs w * 100) (-0.234)))
      as [[? ->] | [? ->]]; lra.
Qed.

End Restitution.

(** ** The diagnostics *)

Import Diagnostics.

Lemma areas_ordered (l : list reb_particle) (a b : R) :
  0 <= a <= b ->
  0 <= foldl (fun area p =>
                let R2 := r p * r p - z p * z p in
                if decide (R2 > 0) then area + PI * R2 else area) a l
    <= foldl (fun area p => area + PI * r p * r p) b l.
Proof.
  revert a b; induction l as [| p l IH]; intros a b Hab; [exact Hab |].
  cbn [foldl]. apply IH. cbv zeta.
  pose proof PI_RGT_0 as Hpi.
  assert (Hr : 0 <= PI * r p * r p) by (rewrite Rmult_assoc; nra).
  destruct (decide _) as [Hz | Hz]; [| lra].
  split; [nra |]. assert (PI * (r p * r p - z p * z p) <= PI * r p * r p) by nra.
  lra.
Qed.

(** X3: in a box of positive area the midplane filling factor is not
    negative and never exceeds the mean normal geometric optical depth. *)
Theorem filling_factor_below_optical_depth (sim : reb_simulation) :
  0 < boxsize_x sim * boxsize_y sim ->
  0 <= midplane_fillingfactor sim <= mean_normal_geometric_optical_depth sim.
Proof.
  intros Hbox.
  unfold midplane_fillingfactor, mean_normal_geometric_optical_depth.
  destruct (areas_ordered (particles sim) 0 0) as [H0 Hle]; [lra |].
  cbv zeta. split.
  - apply Rdiv_ge_bound; [assumption | lra].
  - unfold Rdiv. apply Rmult_le_compat_r; [| exact Hle].
    left. now apply Rinv_0_lt_compat.
Qed.

Lemma dispersion_components (OMEGA : R) (ps : list reb_particle)
    (i : nat) (Ax Ay Az Qx Qy Qz : R) :
  let wx := foldl welford_step (i, Ax, Qx) (vx <$> ps) in
  let wy := foldl welford_step (i, Ay, Qy)
              ((fun p => vy p + 1.5 * OMEGA * x p) <$> ps) in
  let wz := foldl welford_step (i, Az, Qz) (vz <$> ps) in
  foldl (dispersion_step OMEGA) (i, (Ax, Ay, Az), (Qx, Qy, Qz)) ps
  = ((i + length ps)%nat, (wx.1.2, wy.1.2, wz.1.2), (wx.2, wy.2, wz.2)).
Proof.
  revert i Ax Ay Az Qx Qy Qz; induction ps as [| p ps IH]; intros; subst wx wy wz.
  - cbn. now rewrite Nat.add_0_r.
  - cbn [foldl fmap list_fmap length]. unfold dispersion_step at 2.
    rewrite IH. cbn [welford_step]. f_equal. f_equal. lia.
Qed.

Lemma sumR_cons (a : R) (l : list R) : sumR (a :: l) = a + sumR l.
Proof. reflexivity. Qed.

Lemma sumR_snoc (l : list R) (a : R) : sumR (l ++ [a]) = sumR l + a.
Proof. induction l as [| b l IH]; cbn; [lra | unfold sumR in IH; rewrite IH; lra]. Qed.

Lemma welford_invariant (l : list R) :
  let w := foldl welford_step (0%nat, 0, 0) l in
  w.1.1 = length l
  /\ INR (length l) * w.1.2 = sumR l
  /\ w.2 = sumR ((fun u => u * u) <$> l) - INR (length l) * w.1.2 * w.1.2.
Proof.
  induction l as [| a l IH] using rev_ind; [cbn; repeat split; lra |].
  cbv zeta in *. rewrite foldl_app. cbn [foldl].
  destruct (foldl welford_step (0%nat, 0, 0) l) as [[i A] Q].
  cbn [fst snd] in IH. destruct IH as (-> & HA & HQ).
  cbn [welford_step fst snd].
  rewrite fmap_app, !sumR_snoc, length_app. cbn [length fmap list_fmap].
  rewrite !Nat.add_1_r, !S_INR. rewrite <- HA, HQ.
  pose proof (pos_INR (length l)) as Hn.
  rewrite ?sumR_snoc.
  split; [reflexivity |]. split; field; lra.
Qed.

Lemma sum_of_deviations (l : list R) (mu : R) :
  sumR ((fun u => (u - mu) ^ 2) <$> l)
  = sumR ((fun u => u * u) <$> l) - 2 * mu * sumR l + INR (length l) * mu * mu.
Proof.
  induction l as [| a l IH]; [cbn; lra |].
  rewrite !fmap_cons, !sumR_cons, IH. cbn [length]. rewrite S_INR. ring.
Qed.

Lemma welford_variance (l : list R) :
  l <> [] ->
  (foldl welford_step (0%nat, 0, 0) l).2 / INR (length l) = variance l.
Proof.
  intros Hl. destruct (welford_invariant l) as (_ & HA & HQ).
  cbv zeta in *. unfold variance. f_equal.
  rewrite HQ, sum_of_deviations.
  assert (Hn : 0 < INR (length l)).
  { destruct l; [contradiction |]. apply lt_0_INR. cbn; lia. }
  assert (Hm : (foldl welford_step (0%nat, 0, 0) l).1.2 = mean l).
  { unfold mean. rewrite <- HA. field. lra. }
  rewrite Hm. unfold mean. field. lra.
Qed.

(** X4: with at least one particle, [velocity_dispersion] returns the
    standard deviations (of the population) of the three velocity
    components, the shear velocity [-1.5 * OMEGA * x] taken off the second
    one: the running update of the source computes the variance. *)
Theorem velocity_dispersion_is_deviation (sh : shearing_sheet) :
  particles (r_sim sh) <> [] ->
  let ps := particles (r_sim sh) in
  velocity_dispersion sh
  = (sqrt (variance (vx <$> ps)),
     sqrt (variance ((fun p => vy p + 1.5 * ri_sei_OMEGA sh * x p) <$> ps)),
     sqrt (variance (vz <$> ps))).
Proof.
  intros Hne ps. unfold velocity_dispersion.
  rewrite dispersion_components. cbv zeta. fold ps.
  assert (Hlen : forall (A : Type) (f : reb_particle -> A),
            N (r_sim sh) = length (f <$> ps))
    by (intros; unfold N; now rewrite length_fmap).
  assert (Hnn : forall (A : Type) (f : reb_particle -> A), f <$> ps <> [])
    by (intros A f H; apply fmap_nil_inv in H; contradiction).
  f_equal; [f_equal |]; f_equal.
  - rewrite (Hlen _ vx). apply welford_variance, Hnn.
  - rewrite (Hlen _ (fun p => vy p + 1.5 * ri_sei_OMEGA sh * x p)).
    apply welford_variance, Hnn.
  - rewrite (Hlen _ vz). apply welford_variance, Hnn.
Qed.

Lemma dispersion_y (sh : shearing_sheet) :
  particles (r_sim sh) <> [] ->
  (velocity_dispersion sh).1.2
  = sqrt (variance ((fun p => vy p + 1.5 * ri_sei_OMEGA sh * x p)
                      <$> particles (r_sim sh))).
Proof.
  intros Hne. unfold velocity_dispersion.
  rewrite dispersion_components. cbv zeta. cbn [fst snd].
  replace (N (r_sim sh))
    with (length ((fun p => vy p + 1.5 * ri_sei_OMEGA sh * x p)
                    <$> particles (r_sim sh)))
    by (unfold N; now rewrite length_fmap).
  rewrite welford_variance; [reflexivity |].
  intros H; apply fmap_nil_inv in H; contradiction.
Qed.

Lemma sumR_zeros (l : list R) : Forall (fun u => u = 0) l -> sumR l = 0.
Proof.
  induction 1 as [| u l -> _ IH]; [reflexivity |]. rewrite sumR_cons, IH. lra.
Qed.

Lemma variance_of_zeros (l : list R) :
  Forall (fun u => u = 0) l -> variance l = 0.
Proof.
  intros Hl. unfold variance, mean. rewrite (sumR_zeros l Hl).
  rewrite sumR_zeros; [unfold Rdiv; ring |].
  apply Forall_fmap. eapply Forall_impl; [exact Hl |].
  intros u ->. cbn. unfold Rdiv. ring.
Qed.

(** X5: particles that move with the shear, [vy = -1.5 * OMEGA * x], have
    no velocity dispersion along [y] and no translational viscosity. *)
Theorem shear_flow_is_cold (sh : shearing_sheet) :
  particles (r_sim sh) <> [] ->
  ri_sei_OMEGA sh <> 0 ->
  Forall (fun p => vy p = -1.5 * ri_sei_OMEGA sh * x p) (particles (r_sim sh)) ->
  (velocity_dispersion sh).1.2 = 0
  /\ translational_viscosity sh = 0.
Proof.
  intros Hne HO Hshear. split.
  - rewrite dispersion_y by assumption.
    rewrite variance_of_zeros; [apply sqrt_0 |].
    apply Forall_fmap. eapply Forall_impl; [exact Hshear |].
    intros p Hp. unfold compose; cbv beta. rewrite Hp. lra.
  - unfold translational_viscosity.
    assert (HW : forall a : R,
      foldl (fun Wxy p =>
               let vx := vx p in
               let vy := vy p + 1.5 * ri_sei_OMEGA sh * x p in
               Wxy + vx * vy) a (particles (r_sim sh)) = a).
    { clear Hne. induction Hshear as [| p l Hp _ IH]; intros a; [reflexivity |].
      cbn [foldl]. rewrite IH. cbv zeta. rewrite Hp. nra. }
    cbv zeta. rewrite HW. unfold Rdiv. ring.
Qed.

Lemma fill_lookup {A : Type} (f : nat -> A) (k : nat) :
  forall (a : nat) (l : list A) (j : nat),
    (a + k <= length l)%nat ->
    foldl (fun l i => <[i := f i]> l) l (seq a k) !! j
    = if decide (a <= j < a + k)%nat then Some (f j) else l !! j.
Proof.
  induction k as [| k IH]; intros a l j Hlen.
  - cbn. rewrite decide_False by lia. reflexivity.
  - cbn [seq foldl]. rewrite IH by (rewrite length_insert; lia).
    destruct (decide (S a <= j < S a + k)%nat) as [Hj | Hj].
    + rewrite decide_True by lia. reflexivity.
    + destruct (decide (j = a)) as [-> | Hne].
      * rewrite decide_True by lia. apply list_lookup_insert_eq. lia.
      * rewrite decide_False by lia. now apply list_lookup_insert_ne.
Qed.

Lemma fill_all {A : Type} (f : nat -> A) (l : list A) :
  foldl (fun l i => <[i := f i]> l) l (seq 0 (length l))
  = f <$> seq 0 (length l).
Proof.
  apply list_eq; intros j. rewrite fill_lookup by lia.
  rewrite list_lookup_fmap.
  destruct (decide (0 <= j < 0 + length l)%nat) as [Hj | Hj].
  - rewrite lookup_seq_lt by lia. reflexivity.
  - rewrite lookup_seq_ge by lia. apply lookup_ge_None. lia.
Qed.

(** ** The mass grid of the coagulation solver *)

Section MassGrid.

Import Smoluchowski.

Lemma smol_init_arrays (l : list nat) (d : SmolData) :
  let d' := foldl init_bin d l in
  Smoluchowski.m d'
  = foldl (fun a i => <[i := powr 10 (-3 + 0.1 * INR i)]> a) (Smoluchowski.m d) l
  /\ n d' = foldl (fun a i => <[i := 0]> a) (n d) l
  /\ v d' = foldl (fun a i => <[i := 0]> a) (v d) l
  /\ sigma d' = foldl (fun a i => <[i := 0]> a) (sigma d) l.
Proof.
  revert d; induction l as [| i l IH]; intros d; [now cbn |].
  cbn [foldl]. apply (IH (init_bin d i)).
Qed.

Lemma smol_init_eq (d : SmolData) :
  sized d ->
  smol_init d
  = Smol ((fun i => powr 10 (-3 + 0.1 * INR i)) <$> seq 0 N_BIN)
         (replicate N_BIN 0) (replicate N_BIN 0) (replicate N_BIN 0).
Proof.
  intros (Hm & Hn & Hv & Hs). unfold smol_init.
  destruct (smol_init_arrays (seq 0 N_BIN) d) as (Em & En & Ev & Es).
  cbv zeta in *.
  destruct (foldl init_bin d (seq 0 N_BIN)) as [m' n' v' s'].
  cbn [Smoluchowski.m n v sigma] in *. subst m' n' v' s'.
  rewrite <- Hm at 1 2. rewrite fill_all, Hm.
  f_equal.
  - rewrite <- Hn at 1 2.
    rewrite (fill_all (fun _ => 0)), Hn. reflexivity.
  - rewrite <- Hv at 1 2.
    rewrite (fill_all (fun _ => 0)), Hv. reflexivity.
  - rewrite <- Hs at 1 2.
    rewrite (fill_all (fun _ => 0)), Hs. reflexivity.
Qed.

Lemma smol_init_sized (d : SmolData) : sized d -> sized (smol_init d).
Proof.
  intros Hd. rewrite (smol_init_eq d Hd).
  repeat split; cbn [Smoluchowski.m n v sigma];
    now rewrite ?length_fmap, ?length_seq, ?length_replicate.
Qed.

(** X6: whatever the arrays held before, [smol_init] leaves the masses
    [10 ^ (-3 + 0.1 * i)] in the [N_BIN] bins and zeros in the three other
    arrays (the assertions of tests/test_smol.c); a second call changes
    nothing. *)
Theorem smol_init_grid (d : SmolData) :
  sized d ->
  Smoluchowski.m (smol_init d)
  = (fun i => powr 10 (-3 + 0.1 * INR i)) <$> seq 0 N_BIN
  /\ n (smol_init d) = replicate N_BIN 0
  /\ v (smol_init d) = replicate N_BIN 0
  /\ sigma (smol_init d) = replicate N_BIN 0
  /\ sized (smol_init d)
  /\ smol_init (smol_init d) = smol_init d.
Proof.
  intros Hd. pose proof (smol_init_sized d Hd) as Hd'.
  rewrite (smol_init_eq (smol_init d) Hd'), (smol_init_eq d Hd).
  cbn [Smoluchowski.m n v sigma]. repeat split; try reflexivity.
  all: now rewrite ?length_fmap, ?length_seq, ?length_replicate.
Qed.

Lemma smol_init_lookup (d : SmolData) (i : nat) (mi : R) :
  sized d ->
  Smoluchowski.m (smol_init d) !! i = Some mi ->
  (i < N_BIN)%nat /\ mi = Rpower 10 (-3 + 0.1 * INR i).
Proof.
  intros Hd Hi. rewrite (smol_init_eq d Hd) in Hi.
  cbn [Smoluchowski.m] in Hi.
  rewrite list_lookup_fmap in Hi.
  destruct (seq 0 N_BIN !! i) as [k |] eqn:Hk; [| discriminate].
  apply lookup_seq in Hk as [-> Hlt]. injection Hi as <-.
  split; [exact Hlt |]. unfold powr.
  destruct (Rlt_dec 0 10) as [_ | Hn]; [reflexivity | lra].
Qed.

(** X7: the mass grid is positive and strictly increasing, ten bins make
    one decade, and the first bin holds 1e-3. *)
Theorem smol_mass_grid (d : SmolData) (i j : nat) (mi mj : R) :
  sized d ->
  Smoluchowski.m (smol_init d) !! i = Some mi ->
  Smoluchowski.m (smol_init d) !! j = Some mj ->
  (i < j)%nat ->
  0 < mi < mj
  /\ (j = (i + 10)%nat -> mj = 10 * mi)
  /\ (i = 0%nat -> mi = 1 / 1000).
Proof.
  intros Hd Hi Hj Hij.
  destruct (smol_init_lookup d i mi Hd Hi) as [_ ->].
  destruct (smol_init_lookup d j mj Hd Hj) as [_ ->].
  assert (Hlt : INR i < INR j) by now apply lt_INR.
  split; [split |]; [apply exp_pos | apply Rpower_lt; lra |].
  split.
  - intros ->. rewrite plus_INR.
    replace (INR 10) with 10 by (simpl; lra).
    replace (-3 + 0.1 * (INR i + 10)) with (1 + (-3 + 0.1 * INR i)) by lra.
    rewrite Rpower_plus, Rpower_1 by lra. reflexivity.
  - intros ->. change (INR 0) with 0.
    replace (-3 + 0.1 * 0) with (- INR 3) by (simpl; lra).
    rewrite Rpower_Ropp, Rpower_pow by lra. simpl. field.
Qed.

(** X8: for two bins of the arrays the relative speed is symmetric, not
    below the speed of either bin and not above their sum; after
    [smol_init] it is 0. *)
Theorem v_rel_bounds (d : SmolData) (i j : nat) :
  sized d -> (i < N_BIN)%nat -> (j < N_BIN)%nat ->
  v_rel d i j = v_rel d j i
  /\ Rabs (v d !!! i) <= v_rel d i j
  /\ Rabs (v d !!! j) <= v_rel d i j
  /\ v_rel d i j <= Rabs (v d !!! i) + Rabs (v d !!! j)
  /\ v_rel (smol_init d) i j = 0.
Proof.
  intros Hd Hi Hj.
  assert (Hzero : v_rel (smol_init d) i j = 0).
  { unfold v_rel. rewrite (smol_init_eq d Hd). cbn [v].
    rewrite !lookup_total_replicate_2 by assumption.
    rewrite Rmult_0_l, Rplus_0_l. apply sqrt_0. }
  unfold v_rel in *. set (a := v d !!! i). set (b := v d !!! j).
  split; [f_equal; ring |].
  pose proof (Rabs_pos a) as Ha. pose proof (Rabs_pos b) as Hb.
  assert (Haa : sqrt (a * a) = Rabs a) by apply sqrt_Rsqr_abs.
  assert (Hbb : sqrt (b * b) = Rabs b) by apply sqrt_Rsqr_abs.
  split; [| split; [| split]].
  - rewrite <- Haa. apply sqrt_le_1_alt. nra.
  - rewrite <- Hbb. apply sqrt_le_1_alt. nra.
  - rewrite <- (sqrt_square (Rabs a + Rabs b)) by lra.
    apply sqrt_le_1_alt.
    assert (Rabs a * Rabs a = a * a)
      by (rewrite <- Rabs_mult; apply Rabs_pos_eq; nra).
    assert (Rabs b * Rabs b = b * b)
      by (rewrite <- Rabs_mult; apply Rabs_pos_eq; nra).
    nra.
  - exact Hzero.
Qed.

End MassGrid.

(** ** The outcomes of a call, case by case *)

Lemma add_fragments_params (v : variant) (s s1 : state)
    (pf p' : collision_params) :
  add_fragments v s pf = Done p' s1 ->
  p' = set_no_frags pf (Synth.new_bodies s pf) /\ s1 = Synth.final v s pf.
Proof.
  rewrite add_fragments_eq. unfold c_assert, snprintf_name.
  destruct v; repeat (destruct (decide _); try discriminate);
    intros [= <- <-]; split; reflexivity.
Qed.

Section Cases.

Variable hardsphere : reb_simulation -> reb_collision -> reb_simulation.

Lemma hit_and_run_cases (v : variant) (s s1 : state) (c : reb_collision)
    (params p' : collision_params) (d : Z) :
  Mslr params = 0 -> no_frags params = 0%Z ->
  hit_and_run hardsphere v s c params = Done (d, p') s1 ->
  outcome_cases hardsphere v s c params p' d s1.
Proof.
  intros HMslr Hnf. unfold hit_and_run, outcome_cases. cbv zeta.
  destruct (decide (Vi params <= _)) as [H1 | H1].
  { intros [= <- <- <-]. repeat split. left. repeat split. exact Hnf. }
  destruct (decide (Mlr (set_Mlr params _) < _)) as [H2 | H2].
  - destruct (decide (_ <= min_frag_mass s)) as [H3 | H3].
    + intros [= <- <- <-]. repeat split. right; left. repeat split. exact Hnf.
    + destruct (add_fragments v s _) as [pa sa |] eqn:Ha; [| discriminate].
      cbn [bind]. intros [= <- <- <-].
      destruct (add_fragments_params _ _ _ _ _ Ha) as [Hpa _].
      split; [now rewrite Hpa |]. split; [now rewrite Hpa |].
      right; right. split; [reflexivity |]. eexists. split; [exact Ha |].
      unfold synthesis_entry. cbv zeta.
      cbn [target projectile collision_type Mslr Mlr set_collision_type
           set_Mlr] in *.
      repeat split; try lia.
      * now left.
      * intros Hmfm _. unfold Synth.remaining_mass.
        cbn [Mslr Mlr set_collision_type set_Mlr]. rewrite HMslr.
        rewrite decide_False by lra.
        unfold Synth.initial_mass, Synth.target, Synth.projectile.
        cbn [target projectile set_collision_type set_Mlr]. lra.
      * intros Hmfm _. unfold Synth.remaining_mass.
        cbn [Mslr Mlr set_collision_type set_Mlr]. rewrite HMslr.
        rewrite decide_False by lra.
        unfold Synth.initial_mass, Synth.target, Synth.projectile.
        cbn [target projectile set_collision_type set_Mlr]. lra.
      * left. apply MAX_ge_r.
  - destruct (decide (_ < min_frag_mass s)) as [H3 | H3].
    + intros [= <- <- <-]. repeat split. right; left. repeat split. exact Hnf.
    + destruct (add_fragments v s _) as [pa sa |] eqn:Ha; [| discriminate].
      cbn [bind]. intros [= <- <- <-].
      destruct (add_fragments_params _ _ _ _ _ Ha) as [Hpa _].
      split; [now rewrite Hpa |]. split; [now rewrite Hpa |].
      right; right. split; [reflexivity |]. eexists. split; [exact Ha |].
      unfold synthesis_entry. cbv zeta.
      cbn [target projectile collision_type Mslr Mlr set_collision_type
           set_Mlr set_Mslr] in *.
      match goal with |- context [MAX ?a (min_frag_mass s)] =>
        pose proof (MAX_ge_r a (min_frag_mass s)) as Hmax;
        set (Mdag := MAX a (min_frag_mass s)) in * end.
      repeat split; try lia.
      * right. split; [reflexivity | exact Hmax].
      * intros Hmfm _. unfold Synth.remaining_mass.
        cbn [Mslr Mlr set_collision_type set_Mlr set_Mslr].
        rewrite decide_True by lra.
        unfold Synth.initial_mass, Synth.target, Synth.projectile.
        cbn [target projectile set_collision_type set_Mlr set_Mslr]. lra.
      * intros Hmfm _. unfold Synth.remaining_mass.
        cbn [Mslr Mlr set_collision_type set_Mlr set_Mslr].
        rewrite decide_True by lra.
        unfold Synth.initial_mass, Synth.target, Synth.projectile.
        cbn [target projectile set_collision_type set_Mlr set_Mslr]. lra.
      * left. apply MAX_ge_r.
Qed.

Lemma resolve_outcome_cases (v : variant) (s s1 : state) (c : reb_collision)
    (params p' : collision_params) (d : Z) :
  Mslr params = 0 -> no_frags params = 0%Z ->
  resolve_outcome hardsphere v s c params
    (if decide (m (particle_at (sim s) (p1 c)) < m (particle_at (sim s) (p2 c)))
     then 1%Z else 2%Z)
  = Done (d, p') s1 ->
  outcome_cases hardsphere v s c params p' d s1.
Proof.
  intros HMslr Hnf. unfold resolve_outcome. cbv zeta.
  unfold Dynamics.M_tot, Dynamics.targ_m, Dynamics.imp_m, Dynamics.targ_r.
  destruct (decide (Vi params <= _)) as [H1 | H1].
  { intros [= <- <- <-]. repeat split. left. repeat split. exact Hnf. }
  destruct (decide (b params < _)) as [H2 | H2];
    [| now apply hit_and_run_cases].
  destruct (decide (_ < min_frag_mass s)) as [H3 | H3].
  { intros [= <- <- <-]. repeat split. left. repeat split. exact Hnf. }
  assert (Hclamp : forall k : Z, (2 <= k <= 4)%Z ->
    synthesis_entry s params
      (set_Mlr (set_collision_type params k)
               (MAX (Mlr params) (min_frag_mass s)))).
  { intros k Hk. unfold synthesis_entry. cbv zeta.
    cbn [target projectile collision_type Mslr Mlr set_collision_type set_Mlr].
    repeat split; try lia.
    - now left.
    - intros Hmfm Hor. unfold Synth.remaining_mass.
      cbn [Mslr Mlr set_collision_type set_Mlr]. rewrite HMslr.
      rewrite decide_False by lra.
      unfold Synth.initial_mass, Synth.target, Synth.projectile.
      cbn [target projectile set_collision_type set_Mlr].
      destruct (MAX_cases (Mlr params) (min_frag_mass s)) as [[? ->] | [? ->]];
        lra.
    - intros Hmfm Hor. unfold Synth.remaining_mass.
      cbn [Mslr Mlr set_collision_type set_Mlr]. rewrite HMslr.
      rewrite decide_False by lra.
      unfold Synth.initial_mass, Synth.target, Synth.projectile.
      cbn [target projectile set_collision_type set_Mlr].
      destruct (MAX_cases (Mlr params) (min_frag_mass s)) as [[? ->] | [? ->]];
        lra.
    - left. apply MAX_ge_r. }
  unfold outcome_cases. cbv zeta.
  destruct (decide (Mlr params < _)) as [H4 | H4].
  - destruct (decide (Mlr params <= _)) as [H5 | H5];
      (destruct (add_fragments v s _) as [pa sa |] eqn:Ha; [| discriminate];
       cbn [bind]; intros [= <- <- <-];
       destruct (add_fragments_params _ _ _ _ _ Ha) as [Hpa _];
       split; [now rewrite Hpa |]; split; [now rewrite Hpa |];
       right; right; split; [reflexivity |]; eexists; split; [exact Ha |];
       apply Hclamp; lia).
  - destruct (add_fragments v s _) as [pa sa |] eqn:Ha; [| discriminate].
    cbn [bind]. intros [= <- <- <-].
    destruct (add_fragments_params _ _ _ _ _ Ha) as [Hpa _].
    split; [now rewrite Hpa |]. split; [now rewrite Hpa |].
    right; right. split; [reflexivity |]. eexists. split; [exact Ha |].
    unfold synthesis_entry. cbv zeta.
    cbn [target projectile collision_type Mslr Mlr set_collision_type].
    repeat split; try lia.
    + now left.
    + intros Hmfm _. unfold Synth.remaining_mass.
      cbn [Mslr Mlr set_collision_type]. rewrite HMslr.
      rewrite decide_False by lra.
      unfold Synth.initial_mass, Synth.target, Synth.projectile.
      cbn [target projectile set_collision_type]. lra.
    + intros Hmfm _. unfold Synth.remaining_mass.
      cbn [Mslr Mlr set_collision_type]. rewrite HMslr.
      rewrite decide_False by lra.
      unfold Synth.initial_mass, Synth.target, Synth.projectile.
      cbn [target projectile set_collision_type]. lra.
    + right. split; [lra | exact HMslr].
Qed.

Lemma build_params_zero (s s' : state) (i j : nat) (params : collision_params) :
  build_params s i j = Done params s' ->
  no_frags params = 0%Z /\ collision_type params = 0%Z.
Proof.
  unfold build_params. destruct (decide _); [discriminate |].
  destruct (Dynamics.rho1 (G (sim s))) as [rho |]; [| discriminate].
  intros [= <- <-]. split; reflexivity.
Qed.

(** Every call that returns has stopped at a guard, or has built the
    parameters for the heavier body [i] and the lighter body [j], run one
    operator and written one report line. *)
Lemma resolve_cases (v : variant) (s s' : state) (c : reb_collision) (d : Z) :
  reb_collision_resolve_fragment hardsphere v s c = Done d s' ->
  (d = 0%Z /\ s' = s
   /\ (last_collision (particle_at (sim s) (p1 c)) = t (sim s)
       \/ last_collision (particle_at (sim s) (p2 c)) = t (sim s)
       \/ (p1 c < p2 c)%nat))
  \/ exists (i j : nat) (params p' : collision_params) (s1 : state),
       let lighter :=
         m (particle_at (sim s) (p1 c)) < m (particle_at (sim s) (p2 c)) in
       ((lighter /\ i = p2 c /\ j = p1 c) \/ (~ lighter /\ i = p1 c /\ j = p2 c))
       /\ last_collision (particle_at (sim s) (p1 c)) <> t (sim s)
       /\ last_collision (particle_at (sim s) (p2 c)) <> t (sim s)
       /\ (p2 c <= p1 c)%nat
       /\ build_params s i j = Done params s
       /\ s' = print_collision_array s1 p'
       /\ outcome_cases hardsphere v s c params p' d s1.
Proof.
  unfold reb_collision_resolve_fragment. cbv zeta.
  destruct (decide (_ \/ _)) as [Hg | Hg];
    [intros [= <- <-]; left; tauto |].
  destruct (decide (p1 c < p2 c)%nat) as [Hlt | Hlt];
    [intros [= <- <-]; left; tauto |].
  set (lighter := m (particle_at (sim s) (p1 c))
                  < m (particle_at (sim s) (p2 c))).
  set (i := if decide lighter then p2 c else p1 c).
  set (j := if decide lighter then p1 c else p2 c).
  destruct (build_params s i j) as [params s0 |] eqn:Hb; [| discriminate].
  destruct (build_params_inv _ _ _ _ _ Hb)
    as (-> & Hi & Hj & HMslr & _ & _ & _).
  destruct (build_params_zero _ _ _ _ _ Hb) as [Hnf _].
  cbn [bind].
  destruct (resolve_outcome hardsphere v s c params _)
    as [[d1 p1'] s1 |] eqn:Ho; [| discriminate].
  cbn [bind]. intros [= <- <-]. right.
  exists i, j, params, p1', s1. cbv zeta.
  split.
  { subst i j. destruct (decide lighter); [left | right]; tauto. }
  split; [tauto |]. split; [tauto |]. split; [lia |].
  split; [exact Hb |]. split; [reflexivity |].
  now apply resolve_outcome_cases.
Qed.

End Cases.

(** ** What a call returns *)

Section Returns.

Variable hardsphere : reb_simulation -> reb_collision -> reb_simulation.

(** X9: a call returns 0, 1 or 2.  It returns 1 only when the first body
    of the event is strictly the lighter one and 2 only when the second is
    not heavier than the first: the body the host is told to remove is
    never the heavier of the two.  A call that does not return 0 has passed
    both guards. *)
Theorem removed_body_is_lighter (v : variant) (s s' : state)
    (c : reb_collision) (d : Z) :
  reb_collision_resolve_fragment hardsphere v s c = Done d s' ->
  (d = 0 \/ d = 1 \/ d = 2)%Z
  /\ (d = 1%Z ->
      m (particle_at (sim s) (p1 c)) < m (particle_at (sim s) (p2 c)))
  /\ (d = 2%Z ->
      m (particle_at (sim s) (p2 c)) <= m (particle_at (sim s) (p1 c)))
  /\ (d <> 0%Z ->
      (p2 c <= p1 c)%nat
      /\ last_collision (particle_at (sim s) (p1 c)) <> t (sim s)
      /\ last_collision (particle_at (sim s) (p2 c)) <> t (sim s)).
Proof.
  intros Hres.
  apply resolve_cases in Hres as [(-> & _) | Hres].
  { repeat split; try discriminate; try tauto; congruence. }
  destruct Hres as (i & j & params & p' & s1 & _ & Hs1 & Hs2 & Hle & _ & _ & Hc).
  destruct Hc as (_ & _ & Hc).
  assert (Hd : d = 0%Z
               \/ d = (if decide (m (particle_at (sim s) (p1 c))
                                  < m (particle_at (sim s) (p2 c)))
                       then 1%Z else 2%Z)).
  { destruct Hc as [(-> & _) | [(-> & _) | (-> & _)]]; auto. }
  destruct (decide (m (particle_at (sim s) (p1 c))
                    < m (particle_at (sim s) (p2 c)))) as [Hl | Hl].
  - split; [lia |]. split; [intros _; exact Hl |].
    split; [intros ->; destruct Hd; discriminate |]. intros _. tauto.
  - split; [lia |]. split; [intros ->; destruct Hd; discriminate |].
    split; [intros _; lra |]. intros _. tauto.
Qed.

Hypothesis contract : hardsphere_contract hardsphere.

Lemma counts_fit_counter (v : variant) (s : state) (c : reb_collision) :
  valid_event s c -> counts_fit v s c ->
  (0 <= tot_no_frags s <= last_index v)%Z.
Proof.
  intros (_ & _ & Hm1 & Hm2 & Hmfm) [Ht0 Hfit]. split; [exact Ht0 |].
  apply le_IZR.
  assert (0 <= (m (particle_at (sim s) (p1 c)) + m (particle_at (sim s) (p2 c)))
               / min_frag_mass s).
  { apply Rmult_le_pos; [lra |]. left. now apply Rinv_0_lt_compat. }
  lra.
Qed.

(** The count of a call of the synthesizer whose counts fit: the
    quotient is in the range of [int] and is not negative, and the counter
    stays within [last_index]. *)
Lemma fitting_count (v : variant) (s : state) (c : reb_collision)
    (i j : nat) (params pf : collision_params) :
  valid_event s c -> counts_fit v s c ->
  ((i = p1 c /\ j = p2 c) \/ (i = p2 c /\ j = p1 c)) ->
  build_params s i j = Done params s ->
  synthesis_entry s params pf ->
  (0 <= Synth.no_frags s pf)%Z
  /\ Synth.no_frags s pf
     = trunc (Synth.remaining_mass s pf / min_frag_mass s)
  /\ (Synth.tot s pf <= last_index v)%Z.
Proof.
  intros (Hp1 & Hp2 & Hm1 & Hm2 & Hmfm) [Ht0 Hfit] Hij Hb He.
  destruct (build_params_inv _ _ _ _ _ Hb)
    as (_ & Hti & Htj & _ & _ & _ & rho & _ & HMlr).
  destruct He as (Htf & Hpf & _ & HMslr & Hrem0 & _ & HMlrpf & _).
  cbv zeta in *. rewrite Hti, Htj in *.
  set (M := m (particle_at (sim s) (p1 c)) + m (particle_at (sim s) (p2 c)))
    in *.
  assert (HM : m (particle_at (sim s) i) + m (particle_at (sim s) j) = M
               /\ 0 < m (particle_at (sim s) i)
               /\ 0 < m (particle_at (sim s) j)).
  { subst M. destruct Hij as [[-> ->] | [-> ->]]; repeat split; lra. }
  destruct HM as (HM & Hmi & Hmj).
  assert (Hrem : 0 <= Synth.remaining_mass s pf).
  { apply Hrem0; [exact Hmfm |]. rewrite HMlr. apply Mlr_nonneg. lra. }
  assert (Hle : Synth.remaining_mass s pf <= M).
  { unfold Synth.remaining_mass, Synth.initial_mass, Synth.target,
      Synth.projectile in *. rewrite Htf, Hpf in *.
    destruct (decide (Mslr pf > 0)); destruct HMlrpf as [H | [H _]]; lra. }
  assert (Hinv : 0 < / min_frag_mass s) by now apply Rinv_0_lt_compat.
  assert (Hq : Synth.remaining_mass s pf / min_frag_mass s
               <= M / min_frag_mass s).
  { unfold Rdiv. apply Rmult_le_compat_r; [lra | exact Hle]. }
  assert (Hlast : IZR (last_index v) <= IZR INT_MAX - 1).
  { destruct v; unfold last_index, INT_MAX; [lra |].
    rewrite minus_IZR. lra. }
  assert (Htot : 0 <= IZR (tot_no_frags s)) by now apply IZR_le.
  destruct (quotient_to_int_fits (Synth.remaining_mass s pf)
              (min_frag_mass s) Hmfm Hrem) as [Heq Hrange]; [lra |].
  fold (Synth.no_frags s pf) in Heq.
  split; [rewrite Heq; lia |]. split; [exact Heq |].
  assert (Hq0 : 0 <= Synth.remaining_mass s pf / min_frag_mass s).
  { apply Rmult_le_pos; lra. }
  pose proof (trunc_below _ Hq0) as Hb1. rewrite <- Heq in Hb1.
  assert (Hsum : IZR (tot_no_frags s + 1 + Synth.no_frags s pf)
                 <= IZR (last_index v)).
  { rewrite !plus_IZR. lra. }
  apply le_IZR in Hsum. unfold Synth.tot, Synth.big_frags.
  destruct (decide (Mslr pf > 0)); lia.
Qed.

(** The common part of the properties of a resolved event: the heavier
    body [i] and the lighter body [j] are stored bodies, the time has not
    changed, and the store has grown by the bodies the call created. *)
Lemma resolved_event (v : variant) (s s1 : state) (c : reb_collision)
    (i j : nat) (params p' : collision_params) (d : Z) :
  valid_event s c ->
  ((m (particle_at (sim s) (p1 c)) < m (particle_at (sim s) (p2 c))
    /\ i = p2 c /\ j = p1 c)
   \/ (~ m (particle_at (sim s) (p1 c)) < m (particle_at (sim s) (p2 c))
       /\ i = p1 c /\ j = p2 c)) ->
  build_params s i j = Done params s ->
  outcome_cases hardsphere v s c params p' d s1 ->
  (i < N (sim s))%nat /\ (j < N (sim s))%nat
  /\ target p' = i /\ projectile p' = j
  /\ t (sim s1) = t (sim s)
  /\ (counts_fit v s c ->
      (0 <= no_frags p')%Z
      /\ (tot_no_frags s + no_frags p' <= last_index v)%Z)
  /\ N (sim s1) = (N (sim s) + Z.to_nat (no_frags p'))%nat
  /\ tot_no_frags s1 = (tot_no_frags s + no_frags p')%Z
  /\ report s1 = report s
  /\ min_frag_mass s1 = min_frag_mass s.
Proof.
  intros Hvalid Hij Hb (Htp & Hpp & Hc).
  pose proof Hvalid as (Hp1 & Hp2 & Hm1 & Hm2 & Hmfm).
  assert (Hin : (i < N (sim s))%nat /\ (j < N (sim s))%nat
                /\ 0 <= m (particle_at (sim s) j) + m (particle_at (sim s) i)
                /\ ((i = p1 c /\ j = p2 c) \/ (i = p2 c /\ j = p1 c))).
  { destruct Hij as [(_ & -> & ->) | (_ & -> & ->)]; repeat split;
      try (lia || lra); tauto. }
  destruct Hin as (Hi & Hj & HM & Hpair).
  destruct (build_params_inv _ _ _ _ _ Hb)
    as (_ & Hti & Htj & _ & _ & _ & rho & _ & HMlr).
  split; [exact Hi |]. split; [exact Hj |].
  split; [congruence |]. split; [congruence |].
  destruct Hc as [(_ & _ & Hnf & ->) | [(_ & _ & Hnf & ->) | (_ & pf & Ha & He)]].
  - rewrite Hnf. unfold merge, set_sim, N; cbn.
    rewrite length_insert.
    split; [reflexivity |]. split; [| repeat split; lia].
    intros Hfit. pose proof (counts_fit_counter _ _ _ Hvalid Hfit). lia.
  - rewrite Hnf. unfold set_sim, N; cbn.
    destruct (contract (sim s) c) as (Ht & Hms & _).
    apply (f_equal length) in Hms. rewrite !length_fmap in Hms.
    split; [exact Ht |]. split; [| repeat split; lia].
    intros Hfit. pose proof (counts_fit_counter _ _ _ Hvalid Hfit). lia.
  - pose proof (add_fragments_counted _ _ _ _ _ Ha) as Hn.
    destruct (add_fragments_params _ _ _ _ _ Ha) as [-> ->].
    pose proof He as (Htf & Hpf & _).
    destruct (final_frame v s pf) as (Ht & _ & Hmf & Htot & Hrep).
    cbn [no_frags set_no_frags].
    split; [exact Ht |]. split.
    { intros Hfit.
      destruct (fitting_count _ _ _ _ _ _ _ Hvalid Hfit Hpair Hb He)
        as (Hn0 & _ & Hlast).
      unfold Synth.tot, Synth.new_bodies, Synth.big_frags in *.
      destruct (decide (Mslr pf > 0)); lia. }
    split; [apply final_length; [exact Hn | rewrite Htf, Hti; exact Hi] |].
    split; [| split; assumption].
    rewrite Htot. unfold Synth.tot, Synth.new_bodies. lia.
Qed.

(** X10: a call that returns has stopped at a guard and left the state as
    it was, or has added exactly one line to the report.  The line carries
    the current time and an outcome code from 0 to 4, the code is 0 exactly
    when the disposition is 0, the code 1 (a merge) adds no body, and the
    fragments listed are the bodies the call has added to the store. *)
Theorem one_report_line_per_event (v : variant) (s s' : state)
    (c : reb_collision) (d : Z) :
  valid_event s c ->
  reb_collision_resolve_fragment hardsphere v s c = Done d s' ->
  (d = 0%Z /\ s' = s)
  \/ exists line : report_line,
       report s' = report s ++ [line]
       /\ rep_t line = t (sim s)
       /\ (0 <= rep_type line <= 4)%Z
       /\ (rep_type line = 0%Z <-> d = 0%Z)
       /\ (rep_type line = 1%Z -> N (sim s') = N (sim s))
       /\ rep_fragments line
          = (fun q => (hash q, m q)) <$> drop (N (sim s)) (particles (sim s')).
Proof.
  intros Hvalid Hres.
  apply resolve_cases in Hres as [(-> & -> & _) | Hres]; [now left |].
  destruct Hres as (i & j & params & p' & s1 & Hij & _ & _ & _ & Hb & -> & Hc).
  cbv zeta in *.
  destruct (resolved_event _ _ _ _ _ _ _ _ _ Hvalid Hij Hb Hc)
    as (_ & _ & _ & _ & Ht & Hnf & HN & _ & Hrep & _).
  right. eexists. unfold print_collision_array.
  cbn [report sim rep_t rep_type rep_fragments].
  split; [rewrite Hrep; reflexivity |].
  cbn [rep_t rep_type rep_fragments].
  split; [exact Ht |].
  assert (Hswap : (if decide (m (particle_at (sim s) (p1 c))
                              < m (particle_at (sim s) (p2 c)))
                   then 1%Z else 2%Z) <> 0%Z)
    by (destruct (decide _); discriminate).
  destruct Hc as (_ & _ & Hc).
  assert (Htype : (0 <= collision_type p' <= 4)%Z
                  /\ (collision_type p' = 0%Z <-> d = 0%Z)
                  /\ (collision_type p' = 1%Z -> no_frags p' = 0%Z)).
  { destruct Hc as [(-> & -> & -> & _) | [(-> & -> & -> & _) | (-> & pf & Ha & He)]].
    - repeat split; try lia; intros; congruence.
    - repeat split; lia.
    - destruct (add_fragments_params _ _ _ _ _ Ha) as [-> _].
      destruct He as (_ & _ & Hty & _). cbn [collision_type set_no_frags].
      repeat split; try lia; intros; try congruence; lia. }
  destruct Htype as (Hr & H0 & H1).
  split; [exact Hr |]. split; [exact H0 |].
  split; [intros H; rewrite HN, (H1 H); cbn; lia |].
  do 2 f_equal. rewrite HN. lia.
Qed.

(** X11: a call whose counts stay in range never removes a body from the
    store: the fragment counter does not decrease and stays in range, the
    store grows by as many bodies as the counter advances, and the time and
    the minimum fragment mass are left alone. *)
Theorem store_grows_with_counter (v : variant) (s s' : state)
    (c : reb_collision) (d : Z) :
  valid_event s c -> counts_fit v s c ->
  reb_collision_resolve_fragment hardsphere v s c = Done d s' ->
  (tot_no_frags s <= tot_no_frags s' <= last_index v)%Z
  /\ N (sim s') = (N (sim s) + Z.to_nat (tot_no_frags s' - tot_no_frags s))%nat
  /\ t (sim s') = t (sim s)
  /\ min_frag_mass s' = min_frag_mass s.
Proof.
  intros Hvalid Hfit Hres.
  pose proof (counts_fit_counter _ _ _ Hvalid Hfit) as Hcounter.
  apply resolve_cases in Hres as [(-> & -> & _) | Hres].
  { rewrite Z.sub_diag. cbn. repeat split; lia. }
  destruct Hres as (i & j & params & p' & s1 & Hij & _ & _ & _ & Hb & -> & Hc).
  cbv zeta in *.
  destruct (resolved_event _ _ _ _ _ _ _ _ _ Hvalid Hij Hb Hc)
    as (_ & _ & _ & _ & Ht & Hnf & HN & Htot & _ & Hmfm).
  destruct (Hnf Hfit) as [Hn0 Hlast].
  unfold print_collision_array; cbn [sim tot_no_frags min_frag_mass].
  rewrite Htot, HN. repeat split; try assumption; try lia.
Qed.

End Returns.

(** ** Masses and stamps of the bodies of a resolved event *)

Lemma trunc_bounds (a : R) :
  (1 <= trunc a)%Z -> IZR (trunc a) <= a < IZR (trunc a) + 1.
Proof.
  unfold trunc. destruct (Rle_dec 0 a) as [Ha | Ha].
  - intros _. destruct (base_Int_part a) as [H1 H2]. lra.
  - intros H. exfalso.
    destruct (base_Int_part (- a)) as [H1 H2].
    assert (H0 : 0 < IZR (Int_part (- a)) + 1) by lra.
    assert (Hz : (0 < Int_part (- a) + 1)%Z)
      by (apply lt_IZR; rewrite plus_IZR; exact H0).
    lia.
Qed.

Lemma trunc_ge_1 (a : R) : 1 <= a -> (1 <= trunc a)%Z.
Proof.
  intros Ha. unfold trunc. destruct (Rle_dec 0 a) as [_ | Hn]; [| lra].
  destruct (base_Int_part a) as [H1 H2].
  assert (H0 : 0 < IZR (Int_part a)) by lra.
  apply lt_IZR in H0. lia.
Qed.

Lemma no_frags_pos (s : state) (pf : collision_params) :
  0 < min_frag_mass s -> min_frag_mass s <= Synth.remaining_mass s pf ->
  Synth.no_frags s pf = trunc (Synth.remaining_mass s pf / min_frag_mass s) ->
  (0 < Synth.no_frags s pf)%Z.
Proof.
  intros Hmfm Hrem ->.
  assert (1 <= trunc (Synth.remaining_mass s pf / min_frag_mass s))%Z; [| lia].
  apply trunc_ge_1. apply Rdiv_ge_bound; lra.
Qed.

(** The mass of a fragment, when there is one. *)
Lemma frag_mass_bounds (s : state) (pf : collision_params) :
  0 < min_frag_mass s -> (1 <= Synth.no_frags s pf)%Z ->
  m (Synth.projectile s pf) <= m (Synth.target s pf) ->
  (min_frag_mass s <= Mlr pf \/ (m (Synth.target s pf) <= Mlr pf /\ Mslr pf = 0)) ->
  min_frag_mass s <= Synth.frag_mass s pf < 2 * min_frag_mass s.
Proof.
  intros Hmfm Hn Hheavy HMlr.
  assert (Hconv : Synth.no_frags s pf
                  = trunc (Synth.remaining_mass s pf / min_frag_mass s)).
  { unfold Synth.no_frags in *. apply quotient_to_int_nonneg. lia. }
  pose proof Hn as Hb. rewrite Hconv in Hb. apply trunc_bounds in Hb.
  rewrite <- Hconv in Hb.
  assert (HnR : 1 <= IZR (Synth.no_frags s pf)) by (apply IZR_le in Hn; exact Hn).
  set (n := IZR (Synth.no_frags s pf)) in *.
  set (rem := Synth.remaining_mass s pf) in *.
  set (mfm := min_frag_mass s) in *.
  assert (Hrem : n * mfm <= rem < (n + 1) * mfm).
  { destruct Hb as [Hb1 Hb2]. split.
    - apply (Rmult_le_compat_r mfm) in Hb1; [| lra].
      unfold Rdiv in Hb1. rewrite Rmult_assoc, Rinv_l, Rmult_1_r in Hb1; lra.
    - apply (Rmult_lt_compat_r mfm) in Hb2; [| lra].
      unfold Rdiv in Hb2. rewrite Rmult_assoc, Rinv_l, Rmult_1_r in Hb2; lra. }
  assert (Hq : mfm <= rem / n < 2 * mfm).
  { split.
    - apply Rdiv_ge_bound; nra.
    - apply Rmult_lt_reg_r with n; [lra |].
      unfold Rdiv. rewrite Rmult_assoc, Rinv_l, Rmult_1_r by lra. nra. }
  unfold Synth.frag_mass. fold rem n.
  destruct (decide (Synth.swapped s pf)) as [[Hone Hle] | _]; [| exact Hq].
  fold rem n in Hle. split; [| lra].
  destruct HMlr as [HMlr | [HMlr HMslr]]; [exact HMlr |].
  assert (Hn1 : n = 1) by (subst n; rewrite Hone; reflexivity).
  rewrite Hn1 in *.
  assert (Hr : rem = Synth.initial_mass s pf - Mlr pf).
  { subst rem. unfold Synth.remaining_mass. rewrite HMslr.
    rewrite decide_False by lra. reflexivity. }
  unfold Synth.initial_mass in Hr.
  replace (rem / 1) with rem in Hle by (unfold Rdiv; rewrite Rinv_1; ring).
  lra.
Qed.

Lemma created_stamps (s : state) (pf : collision_params) :
  Forall (fun q => last_collision q = t (sim s)) (Synth.created s pf).
Proof.
  unfold Synth.created. apply Forall_app. split.
  - destruct (decide (Mslr pf > 0)); constructor; [| constructor].
    unfold second_largest_remnant. now destruct (unit_vi pf) as [[? ?] ?].
  - apply Forall_fmap, Forall_forall. intros i _. unfold compose, fragment.
    now destruct (unit_vi pf) as [[? ?] ?], (unit_o pf) as [[? ?] ?].
Qed.

Lemma final_new_bodies {A : Type} (f : reb_particle -> A) (v : variant)
    (s : state) (pf : collision_params) :
  (forall xoff voff (k : R) (q : reb_particle), f (shift xoff voff k q) = f q) ->
  (forall sm (q : reb_particle), f (wrap_into_box v sm q) = f q) ->
  f (Synth.corrected_target s pf) = f (Synth.placed_target s pf) ->
  (target pf < N (sim s))%nat ->
  f <$> drop (N (sim s)) (particles (sim (Synth.final v s pf)))
  = f <$> Synth.created s pf.
Proof.
  intros H1 H2 H3 Ht. rewrite fmap_drop, (final_fields f) by assumption.
  apply drop_app_length'. now rewrite length_insert, length_fmap.
Qed.

Lemma stamp_at (sm : reb_simulation) (i : nat) (time : R) :
  (last_collision <$> particles sm) !! i = Some time ->
  last_collision (particle_at sm i) = time.
Proof.
  intros Hl. rewrite list_lookup_fmap in Hl.
  destruct (particles sm !! i) as [q |] eqn:Hq; [| discriminate].
  injection Hl as <-. unfold particle_at.
  now rewrite (list_lookup_total_correct _ _ _ Hq).
Qed.

Section Bodies.

Variable hardsphere : reb_simulation -> reb_collision -> reb_simulation.
Hypothesis contract : hardsphere_contract hardsphere.

(** X12: a resolved event whose counts stay in range conserves the mass
    in the store (the bodies the host keeps weigh what the bodies weighed
    before) in the shearing-sheet file, and in the fragmentation file where
    the pair weighs at least two minimum fragment masses. *)
Theorem mass_is_conserved (v : variant) (s s' : state)
    (c : reb_collision) (d : Z) :
  valid_event s c -> counts_fit v s c -> p1 c <> p2 c ->
  v = ShearingSheet
  \/ 2 * min_frag_mass s
     <= m (particle_at (sim s) (p1 c)) + m (particle_at (sim s) (p2 c)) ->
  reb_collision_resolve_fragment hardsphere v s c = Done d s' ->
  total_mass (survivors d c (particles (sim s')))
  = total_mass (particles (sim s)).
Proof.
  intros Hvalid Hfit Hne Hheavy Hres.
  apply resolve_cases in Hres as [(-> & -> & _) | Hres]; [reflexivity |].
  destruct Hres as (i & j & params & p' & s1 & Hij & _ & _ & _ & Hb & -> & Hc).
  cbv zeta in *.
  destruct (resolved_event _ contract _ _ _ _ _ _ _ _ _ Hvalid Hij Hb Hc)
    as (Hi & Hj & Htp & Hpp & _).
  assert (Hpair : (i = p1 c /\ j = p2 c) \/ (i = p2 c /\ j = p1 c))
    by (destruct Hij as [(_ & -> & ->) | (_ & -> & ->)]; tauto).
  pose proof Hvalid as (_ & _ & _ & _ & Hmfm).
  set (swap := if decide (m (particle_at (sim s) (p1 c))
                          < m (particle_at (sim s) (p2 c)))
               then 1%Z else 2%Z) in *.
  assert (Hsurv : forall l : list reb_particle,
            survivors swap c l = delete j l).
  { intros l. unfold survivors, swap.
    destruct Hij as [(Hl & _ & ->) | (Hl & _ & ->)].
    - rewrite (decide_True (P := _ < _)) by exact Hl.
      now rewrite decide_True.
    - rewrite (decide_False (P := _ < _)) by exact Hl.
      rewrite decide_False by discriminate. now rewrite decide_True. }
  assert (Hneq : i <> j /\ m (particle_at (sim s) i) + m (particle_at (sim s) j)
                           = m (particle_at (sim s) (p1 c))
                             + m (particle_at (sim s) (p2 c))).
  { destruct Hij as [(_ & -> & ->) | (_ & -> & ->)]; split;
      (congruence || lra). }
  destruct Hneq as [Hneq HM].
  destruct (build_params_inv _ _ _ _ _ Hb) as (_ & Hti & Htj & _).
  unfold print_collision_array; cbn [sim].
  destruct Hc as (_ & _ & [(-> & _ & _ & ->) | [(-> & _ & _ & ->) | (-> & pf & Ha & He)]]).
  - rewrite Hsurv. unfold merge, set_sim; cbn [sim particles set_particles].
    rewrite Htp, Hpp. unfold particle_at.
    destruct (lookup_lt_is_Some_2 (particles (sim s)) _ Hi) as [qi Hqi].
    destruct (lookup_lt_is_Some_2 (particles (sim s)) _ Hj) as [qj Hqj].
    rewrite (list_lookup_total_correct _ _ _ Hqi),
            (list_lookup_total_correct _ _ _ Hqj).
    rewrite !total_mass_sumR, list_fmap_delete, list_fmap_insert.
    cbn [m].
    rewrite (sumR_delete _ _ (m qj)).
    2:{ rewrite list_lookup_insert_ne by exact Hneq.
        now rewrite list_lookup_fmap, Hqj. }
    rewrite (sumR_insert _ _ (m qi)) by (now rewrite list_lookup_fmap, Hqi).
    lra.
  - unfold survivors. rewrite !decide_False by discriminate.
    unfold set_sim; cbn [sim]. rewrite !total_mass_sumR.
    destruct (contract (sim s) c) as (_ & -> & _). reflexivity.
  - assert (Hn : (0 < Synth.no_frags s pf)%Z).
    { pose proof He as (_ & _ & _ & _ & _ & Hrem & _). cbv zeta in Hrem.
      rewrite Hti, Htj in Hrem.
      destruct Hheavy as [-> | Hheavy].
      - apply add_fragments_done in Ha as [_ Hassert].
        destruct (Hassert eq_refl) as (_ & _ & Hn & _). exact Hn.
      - destruct (fitting_count _ _ _ _ _ _ _ Hvalid Hfit Hpair Hb He)
          as (_ & Hconv & _).
        apply no_frags_pos; [exact Hmfm | | exact Hconv].
        apply Hrem; [exact Hmfm |]. right. lra. }
    destruct (add_fragments_params _ _ _ _ _ Ha) as [_ ->].
    destruct He as (Htf & Hpf & _). rewrite Hti, Htj in *.
    rewrite Hsurv, <- Hpf.
    apply fragments_conserve_mass; rewrite ?Htf, ?Hpf; assumption.
Qed.

(** X13: after a merge or a fragmentation the kept body (the heavier of
    the two) and every body the call has created carry the current time as
    their last collision. *)
Theorem written_bodies_are_stamped (v : variant) (s s' : state)
    (c : reb_collision) (d : Z) :
  valid_event s c ->
  reb_collision_resolve_fragment hardsphere v s c = Done d s' ->
  d <> 0%Z ->
  let i := if decide (m (particle_at (sim s) (p1 c))
                      < m (particle_at (sim s) (p2 c)))
           then p2 c else p1 c in
  last_collision (particle_at (sim s') i) = t (sim s')
  /\ Forall (fun q => last_collision q = t (sim s'))
            (drop (N (sim s)) (particles (sim s'))).
Proof.
  intros Hvalid Hres Hd i0.
  apply resolve_cases in Hres as [(-> & _) | Hres]; [contradiction |].
  destruct Hres as (i & j & params & p' & s1 & Hij & _ & _ & _ & Hb & -> & Hc).
  cbv zeta in *.
  assert (Hi0 : i0 = i).
  { subst i0. destruct Hij as [(Hl & -> & _) | (Hl & -> & _)].
    - now rewrite decide_True.
    - now rewrite decide_False. }
  rewrite Hi0. clear i0 Hi0.
  destruct (resolved_event _ contract _ _ _ _ _ _ _ _ _ Hvalid Hij Hb Hc)
    as (Hi & Hj & Htp & Hpp & Ht & _).
  destruct (build_params_inv _ _ _ _ _ Hb) as (_ & Hti & Htj & _).
  unfold print_collision_array; cbn [sim]. rewrite Ht.
  destruct Hc as (_ & _ & [(_ & _ & _ & ->) | [(-> & _) | (_ & pf & Ha & He)]]).
  - unfold merge, set_sim; cbn [sim]. rewrite Htp. split.
    + apply stamp_at. cbn [particles set_particles].
      rewrite list_fmap_insert.
      apply list_lookup_insert_eq. now rewrite length_fmap.
    + cbn [particles set_particles].
      rewrite drop_ge by (rewrite length_insert; unfold N; lia).
      constructor.
  - contradiction.
  - destruct (add_fragments_params _ _ _ _ _ Ha) as [_ ->].
    destruct He as (Htf & _). rewrite Hti in Htf.
    split.
    + apply stamp_at.
      rewrite (final_fields last_collision) by
        (try apply shift_keeps_last_collision;
         try apply wrap_keeps_last_collision; try reflexivity;
         rewrite Htf; exact Hi).
      rewrite Htf.
      rewrite lookup_app_l by (now rewrite length_insert, length_fmap).
      apply list_lookup_insert_eq. now rewrite length_fmap.
    + apply Forall_fmap with (f := last_collision) (P := fun u => u = t (sim s)).
      rewrite final_new_bodies by
        (try apply shift_keeps_last_collision;
         try apply wrap_keeps_last_collision; try reflexivity;
         rewrite Htf; exact Hi).
      apply Forall_fmap. apply created_stamps.
Qed.

(** X14: no body a call creates is lighter than the minimum fragment
    mass, and only the first one (the second-largest remnant, when there
    is one) can weigh twice that mass or more. *)
Theorem fragments_weigh_the_minimum (v : variant) (s s' : state)
    (c : reb_collision) (d : Z) :
  valid_event s c ->
  reb_collision_resolve_fragment hardsphere v s c = Done d s' ->
  Forall (fun q => min_frag_mass s <= m q)
         (drop (N (sim s)) (particles (sim s')))
  /\ Forall (fun q => m q < 2 * min_frag_mass s)
            (drop (S (N (sim s))) (particles (sim s'))).
Proof.
  intros Hvalid Hres.
  assert (Hnone : forall l : list reb_particle,
    length l = N (sim s) ->
    Forall (fun q => min_frag_mass s <= m q) (drop (N (sim s)) l)
    /\ Forall (fun q => m q < 2 * min_frag_mass s) (drop (S (N (sim s))) l)).
  { intros l Hl. rewrite !drop_ge by lia. split; constructor. }
  apply resolve_cases in Hres as [(-> & -> & _) | Hres];
    [now apply Hnone |].
  destruct Hres as (i & j & params & p' & s1 & Hij & _ & _ & _ & Hb & -> & Hc).
  cbv zeta in *.
  destruct (resolved_event _ contract _ _ _ _ _ _ _ _ _ Hvalid Hij Hb Hc)
    as (Hi & Hj & Htp & Hpp & _ & _ & HN & _).
  destruct (build_params_inv _ _ _ _ _ Hb) as (_ & Hti & Htj & _).
  assert (Hheavy : m (particle_at (sim s) j) <= m (particle_at (sim s) i)).
  { destruct Hij as [(Hl & -> & ->) | (Hl & -> & ->)]; lra. }
  destruct Hvalid as (_ & _ & _ & _ & Hmfm).
  unfold print_collision_array; cbn [sim].
  destruct Hc as (_ & _ & [(_ & _ & Hnf & _) | [(_ & _ & Hnf & _) | (_ & pf & Ha & He)]]).
  - apply Hnone. rewrite Hnf in HN. change (Z.to_nat 0) with 0%nat in HN. unfold N in *. lia.
  - apply Hnone. rewrite Hnf in HN. change (Z.to_nat 0) with 0%nat in HN. unfold N in *. lia.
  - destruct (add_fragments_params _ _ _ _ _ Ha) as [_ ->].
    destruct He as (Htf & Hpf & _ & HMslr & _ & _ & HMlr & _). cbv zeta in *.
    rewrite Hti, Htj in *.
    assert (Hm : m <$> drop (N (sim s)) (particles (sim (Synth.final v s pf)))
                 = (if decide (Mslr pf > 0) then [Mslr pf] else [])
                   ++ replicate (Z.to_nat (Synth.no_frags s pf))
                                (Synth.frag_mass s pf)).
    { rewrite final_new_bodies by
        (try apply shift_keeps_m; try apply wrap_keeps_m; try reflexivity;
         rewrite Htf; exact Hi).
      apply created_masses. }
    assert (Hfrag : Forall (fun u => min_frag_mass s <= u < 2 * min_frag_mass s)
                      (replicate (Z.to_nat (Synth.no_frags s pf))
                                 (Synth.frag_mass s pf))).
    { destruct (decide (1 <= Synth.no_frags s pf)%Z) as [Hn | Hn].
      - apply Forall_replicate. apply frag_mass_bounds; try assumption.
        + unfold Synth.projectile, Synth.target. now rewrite Htf, Hpf.
        + unfold Synth.target. now rewrite Htf.
      - replace (Z.to_nat (Synth.no_frags s pf)) with 0%nat by lia.
        constructor. }
    split.
    + apply Forall_fmap with (f := m) (P := fun u => min_frag_mass s <= u).
      rewrite Hm. apply Forall_app. split.
      * destruct (decide (Mslr pf > 0)) as [Hbig | Hbig]; constructor;
          [| constructor].
        destruct HMslr as [H0 | [_ Hge]]; lra.
      * eapply Forall_impl; [exact Hfrag |]. intros u Hu. apply Hu.
    + apply Forall_fmap with (f := m) (P := fun u => u < 2 * min_frag_mass s).
      replace (S (N (sim s))) with (N (sim s) + 1)%nat by lia.
      rewrite <- drop_drop, fmap_drop, Hm.
      assert (Hlt : Forall (fun u => u < 2 * min_frag_mass s)
                      (replicate (Z.to_nat (Synth.no_frags s pf))
                                 (Synth.frag_mass s pf)))
        by (eapply Forall_impl; [exact Hfrag |]; intros u Hu; apply Hu).
      destruct (decide (Mslr pf > 0)); cbn [app drop].
      * exact Hlt.
      * now apply Forall_drop.
Qed.

End Bodies.

(** ** The placement of the new bodies *)

Lemma get_mag_sq (a b c : R) :
  get_mag a b c * get_mag a b c = a * a + b * b + c * c.
Proof.
  unfold get_mag. rewrite sqrt_sqrt; [ring |]. nra.
Qed.

Lemma get_mag_pos (a b c : R) :
  ~ (a = 0 /\ b = 0 /\ c = 0) -> 0 < get_mag a b c.
Proof.
  intros Hne. unfold get_mag. apply sqrt_lt_R0.
  destruct (Req_dec a 0) as [-> | Ha]; [| nra].
  destruct (Req_dec b 0) as [-> | Hb]; [| nra].
  destruct (Req_dec c 0) as [-> | Hc]; [tauto | nra].
Qed.

Lemma unit_vectors (params : collision_params) :
  vrel params = get_mag (Vix params) (Viy params) (Viz params) ->
  oblique params ->
  let u := unit_vi params in
  let o := unit_o params in
  u.1.1 * u.1.1 + u.1.2 * u.1.2 + u.2 * u.2 = 1
  /\ o.1.1 * o.1.1 + o.1.2 * o.1.2 + o.2 * o.2 = 1
  /\ u.1.1 * o.1.1 + u.1.2 * o.1.2 + u.2 * o.2 = 0.
Proof.
  intros Hvrel Hobl. unfold oblique in Hobl.
  unfold unit_vi, unit_o. cbv zeta. cbn [fst snd].
  rewrite Hvrel.
  set (a := Vix params) in *. set (b := Viy params) in *.
  set (c := Viz params) in *.
  set (zx := b * dz params - c * dy params) in *.
  set (zy := c * dx params - a * dz params) in *.
  set (zz := a * dy params - b * dx params) in *.
  pose proof (get_mag_pos zx zy zz Hobl) as Hnz.
  pose proof (get_mag_sq zx zy zz) as Hnz2.
  set (nz := get_mag zx zy zz) in *.
  assert (HV : ~ (a = 0 /\ b = 0 /\ c = 0)).
  { intros (Ea & Eb & Ec). apply Hobl. subst zx zy zz.
    rewrite Ea, Eb, Ec. repeat split; ring. }
  pose proof (get_mag_pos a b c HV) as Hv.
  pose proof (get_mag_sq a b c) as Hv2.
  set (v := get_mag a b c) in *.
  set (ox := zy / nz * c - zz / nz * b).
  set (oy := zz / nz * a - zx / nz * c).
  set (oz := zx / nz * b - zy / nz * a).
  assert (Ho2 : ox * ox + oy * oy + oz * oz = v * v).
  { rewrite Hv2. subst ox oy oz.
    replace ((zy / nz * c - zz / nz * b) * (zy / nz * c - zz / nz * b)
             + (zz / nz * a - zx / nz * c) * (zz / nz * a - zx / nz * c)
             + (zx / nz * b - zy / nz * a) * (zx / nz * b - zy / nz * a))
      with (((zx * zx + zy * zy + zz * zz) * (a * a + b * b + c * c)
             - (zx * a + zy * b + zz * c) * (zx * a + zy * b + zz * c))
            / (nz * nz)) by (field; lra).
    rewrite <- Hnz2.
    replace (zx * a + zy * b + zz * c) with 0 by (subst zx zy zz; ring).
    field. lra. }
  assert (Hno : 0 < get_mag ox oy oz).
  { apply get_mag_pos. intros (E1 & E2 & E3).
    rewrite E1, E2, E3 in Ho2. nra. }
  pose proof (get_mag_sq ox oy oz) as Hno2.
  set (no := get_mag ox oy oz) in *.
  split; [| split].
  - replace (a / v * (a / v) + b / v * (b / v) + c / v * (c / v))
      with ((a * a + b * b + c * c) / (v * v)) by (field; lra).
    rewrite <- Hv2. field. lra.
  - replace (ox / no * (ox / no) + oy / no * (oy / no) + oz / no * (oz / no))
      with ((ox * ox + oy * oy + oz * oz) / (no * no)) by (field; lra).
    rewrite <- Hno2. field. lra.
  - replace (a / v * (ox / no) + b / v * (oy / no) + c / v * (oz / no))
      with ((a * ox + b * oy + c * oz) / (v * no)) by (field; lra).
    replace (a * ox + b * oy + c * oz) with 0
      by (subst ox oy oz; field; lra).
    unfold Rdiv. ring.
Qed.

Lemma on_the_circle (ux uy uz ox oy oz c s k : R) :
  ux * ux + uy * uy + uz * uz = 1 ->
  ox * ox + oy * oy + oz * oz = 1 ->
  ux * ox + uy * oy + uz * oz = 0 ->
  c * c + s * s = 1 ->
  (k * (c * ux + s * ox)) ^ 2 + (k * (c * uy + s * oy)) ^ 2
  + (k * (c * uz + s * oz)) ^ 2 = k ^ 2.
Proof.
  intros Hu Ho Huo Hcs.
  replace ((k * (c * ux + s * ox)) ^ 2 + (k * (c * uy + s * oy)) ^ 2
           + (k * (c * uz + s * oz)) ^ 2)
    with (k ^ 2 * (c * c * (ux * ux + uy * uy + uz * uz)
                   + 2 * c * s * (ux * ox + uy * oy + uz * oz)
                   + s * s * (ox * ox + oy * oy + oz * oz))) by ring.
  rewrite Hu, Ho, Huo.
  replace (c * c * 1 + 2 * c * s * 0 + s * s * 1) with (c * c + s * s) by ring.
  rewrite Hcs. ring.
Qed.

(** X15: where the relative velocity and position of the pair are not
    parallel, every new body is placed at the separation distance from the
    centre of mass and is given a velocity that differs from the velocity
    of the centre of mass by the fragment velocity (before the momentum
    correction moves it). *)
Theorem new_bodies_on_a_circle (com : reb_particle)
    (params : collision_params) (fv rho time frag_mass theta_inc : R)
    (tot new_beginning_frag_index i : Z) :
  vrel params = get_mag (Vix params) (Viy params) (Viz params) ->
  oblique params ->
  let f := fragment com params fv rho time frag_mass theta_inc
             new_beginning_frag_index i in
  let g := second_largest_remnant com params fv rho time tot in
  (x f - x com) ^ 2 + (y f - y com) ^ 2 + (z f - z com) ^ 2
  = separation_distance params ^ 2
  /\ (vx f - vx com) ^ 2 + (vy f - vy com) ^ 2 + (vz f - vz com) ^ 2 = fv ^ 2
  /\ (x g - x com) ^ 2 + (y g - y com) ^ 2 + (z g - z com) ^ 2
     = separation_distance params ^ 2
  /\ (vx g - vx com) ^ 2 + (vy g - vy com) ^ 2 + (vz g - vz com) ^ 2 = fv ^ 2.
Proof.
  intros Hvrel Hobl f g.
  destruct (unit_vectors params Hvrel Hobl) as (Hu & Ho & Huo).
  cbv zeta in Hu, Ho, Huo.
  subst f g. unfold fragment, second_largest_remnant.
  destruct (unit_vi params) as [[ux uy] uz], (unit_o params) as [[ox oy] oz].
  cbn [fst snd] in Hu, Ho, Huo. cbn [x y z vx vy vz].
  set (j := (i - new_beginning_frag_index + 1)%Z).
  assert (Hcs : cos (theta_inc * IZR j) * cos (theta_inc * IZR j)
                + sin (theta_inc * IZR j) * sin (theta_inc * IZR j) = 1).
  { pose proof (sin2_cos2 (theta_inc * IZR j)) as H. unfold Rsqr in H. lra. }
  assert (H10 : 1 * 1 + 0 * 0 = 1) by ring.
  repeat split.
  - rewrite <- (on_the_circle ux uy uz ox oy oz _ _ (separation_distance params)
                  Hu Ho Huo Hcs). ring.
  - rewrite <- (on_the_circle ux uy uz ox oy oz _ _ fv Hu Ho Huo Hcs). ring.
  - rewrite <- (on_the_circle ux uy uz ox oy oz _ _ (separation_distance params)
                  Hu Ho Huo H10). ring.
  - rewrite <- (on_the_circle ux uy uz ox oy oz _ _ fv Hu Ho Huo H10). ring.
Qed.

(** ** The ranges of the builder *)

Lemma sum_of_squares_zero (a b c : R) :
  a * a + b * b + c * c = 0 -> a = 0 /\ b = 0 /\ c = 0.
Proof.
  intros H.
  assert (Ha : a * a = 0) by nra.
  assert (Hb : b * b = 0) by nra.
  assert (Hc : c * c = 0) by nra.
  apply Rmult_integral in Ha, Hb, Hc. tauto.
Qed.

Lemma v2rel_nonneg (targ imp : reb_particle) : 0 <= Dynamics.v2rel targ imp.
Proof.
  unfold Dynamics.v2rel, get_dot.
  generalize (Dynamics.Vix targ imp), (Dynamics.Viy targ imp),
    (Dynamics.Viz targ imp). intros a b c. nra.
Qed.

Lemma h2_nonneg (targ imp : reb_particle) : 0 <= Dynamics.h2 targ imp.
Proof.
  unfold Dynamics.h2, get_dot.
  generalize (Dynamics.hx targ imp), (Dynamics.hy targ imp),
    (Dynamics.hz targ imp). intros a b c. nra.
Qed.

Lemma v2imp_focused (G : R) (targ imp : reb_particle) :
  0 <= G -> 0 <= m imp + m targ ->
  Dynamics.v2rel targ imp <= Dynamics.v2imp G targ imp.
Proof.
  intros HG HM. unfold Dynamics.v2imp.
  destruct (decide (Dynamics.after_contact targ imp)) as [Hc | Hc]; [lra |].
  unfold Dynamics.after_contact in Hc.
  assert (Hpos : 0 <= 1 / Dynamics.R_tot targ imp - 1 / Dynamics.xrel targ imp)
    by (apply Rnot_lt_le; tauto).
  unfold Dynamics.M_tot, Dynamics.imp_m, Dynamics.targ_m.
  assert (0 <= 2 * G * (m imp + m targ)) by nra.
  nra.
Qed.

(** X16: for a gravitational constant and a total mass that are not
    negative, the square of the impact speed is not below the square of the
    relative speed, which is not negative; the impact parameter is NaN
    exactly when the impact speed is 0, and then the two bodies have the
    same velocity. *)
Theorem impact_speed_and_nan (G : R) (targ imp : reb_particle) :
  0 <= G -> 0 <= m imp + m targ ->
  0 <= Dynamics.v2rel targ imp <= Dynamics.v2imp G targ imp
  /\ sqrt (Dynamics.v2rel targ imp) <= Dynamics.Vi G targ imp
  /\ (Dynamics.b_is_nan G targ imp <-> Dynamics.v2imp G targ imp = 0)
  /\ (Dynamics.b_is_nan G targ imp ->
      vx targ = vx imp /\ vy targ = vy imp /\ vz targ = vz imp).
Proof.
  intros HG HM.
  pose proof (v2rel_nonneg targ imp) as H0.
  pose proof (v2imp_focused G targ imp HG HM) as H1.
  pose proof (h2_nonneg targ imp) as Hh.
  assert (Hrest : Dynamics.v2imp G targ imp = 0 ->
            vx targ = vx imp /\ vy targ = vy imp /\ vz targ = vz imp).
  { intros Hv. assert (Hr : Dynamics.v2rel targ imp = 0) by lra.
    unfold Dynamics.v2rel, get_dot in Hr.
    apply sum_of_squares_zero in Hr.
    unfold Dynamics.Vix, Dynamics.Viy, Dynamics.Viz, Dynamics.V, make_vector
      in Hr. cbn [fst snd] in Hr. lra. }
  assert (Hnan : Dynamics.b_is_nan G targ imp -> Dynamics.v2imp G targ imp = 0).
  { intros [[_ Hv] | Hneg]; [exact Hv |]. exfalso.
    destruct (Req_dec (Dynamics.v2imp G targ imp) 0) as [Hz | Hz].
    - rewrite Hz in Hneg. unfold Rdiv in Hneg. rewrite Rinv_0 in Hneg. lra.
    - assert (0 <= Dynamics.h2 targ imp / Dynamics.v2imp G targ imp);
        [| lra].
      apply Rdiv_ge_bound; lra. }
  split; [lra |]. split; [apply sqrt_le_1_alt; exact H1 |].
  split; [| intros Hb; apply Hrest, Hnan, Hb].
  split; [exact Hnan |].
  intros Hv. left. split; [| exact Hv].
  destruct (Hrest Hv) as (Ex & Ey & Ez).
  unfold Dynamics.h2, get_dot, Dynamics.hx, Dynamics.hy, Dynamics.hz,
    Dynamics.Vix, Dynamics.Viy, Dynamics.Viz, Dynamics.V, make_vector.
  cbn [fst snd]. rewrite Ex, Ey, Ez. ring.
Qed.

Lemma rho1_positive (G rho : R) :
  Dynamics.rho1 G = Some rho -> 0 < G /\ 0 < rho.
Proof.
  unfold Dynamics.rho1. cbv zeta.
  destruct (decide (G = 39.476926421373 \/ G = 1)) as [[-> | ->] | _].
  - intros [= <-]. lra.
  - intros [= <-]. lra.
  - destruct (decide (G = 6.674e-11)) as [-> | _]; [intros [= <-]; lra |].
    destruct (decide (G = 6.674e-8)) as [-> | _]; [intros [= <-]; lra |].
    discriminate.
Qed.

Lemma l_bounded (G : R) (targ imp : reb_particle) :
  Dynamics.l G targ imp <= 2 * r imp.
Proof.
  unfold Dynamics.l, Dynamics.imp_r.
  destruct (MIN_cases (Dynamics.R_tot targ imp - Dynamics.b G targ imp)
                      (2 * r imp)) as [[? ->] | [? ->]]; lra.
Qed.

Lemma alpha_range (G : R) (targ imp : reb_particle) :
  0 < r imp -> 0 <= Dynamics.alpha G targ imp <= 1.
Proof.
  intros Hr. unfold Dynamics.alpha, Dynamics.imp_r.
  pose proof (l_bounded G targ imp) as Hl.
  set (l := Dynamics.l G targ imp) in *.
  assert (Hq : 0 <= l ^ 2 * (3 * r imp - l) / (4 * r imp ^ 3)).
  { apply Rdiv_ge_bound.
    - apply Rmult_lt_0_compat; [lra |]. apply pow_lt; lra.
    - rewrite Rmult_0_l. apply Rmult_le_pos; [| lra]. apply pow2_ge_0. }
  destruct (MIN_cases 1 (l ^ 2 * (3 * r imp - l) / (4 * r imp ^ 3)))
    as [[? ->] | [? ->]]; lra.
Qed.

Lemma Q_star_positive (G : R) (targ imp : reb_particle) (rho : R) :
  0 < G -> 0 < rho -> 0 < m targ -> 0 < m imp -> 0 < r imp ->
  0 < Dynamics.Q_star G targ imp rho.
Proof.
  intros HG Hrho Hmt Hmi Hri.
  assert (HM : 0 < m imp + m targ) by lra.
  assert (HQ0 : 0 < Dynamics.Q0 G targ imp rho).
  { unfold Dynamics.Q0, Dynamics.cstar, Dynamics.Rc1, Dynamics.M_tot,
      Dynamics.imp_m, Dynamics.targ_m.
    pose proof PI_RGT_0 as Hpi.
    assert (Hc : 0 < powr ((m imp + m targ) * 3 / (4 * PI * rho)) (1 / 3)).
    { apply powr_pos. apply Rdiv_lt_0_compat; [lra |].
      apply Rmult_lt_0_compat; lra. }
    assert (Hc2 : 0 < powr ((m imp + m targ) * 3 / (4 * PI * rho)) (1 / 3) ^ 2)
      by (apply pow_lt; exact Hc).
    set (c2 := powr ((m imp + m targ) * 3 / (4 * PI * rho)) (1 / 3) ^ 2) in *.
    assert (H1 : 0 < PI * rho) by (apply Rmult_lt_0_compat; lra).
    assert (H2 : 0 < PI * rho * G) by (apply Rmult_lt_0_compat; lra).
    assert (H3 : 0 < PI * rho * G * c2) by (apply Rmult_lt_0_compat; lra).
    lra. }
  unfold Dynamics.Q_star. cbv zeta.
  destruct (decide (Dynamics.b G targ imp = 0 /\ _)) as [_ | _]; [exact HQ0 |].
  destruct (decide (Dynamics.alpha G targ imp = 0)) as [_ | Ha]; [lra |].
  destruct (alpha_range G targ imp Hri) as [Ha0 _].
  assert (Hap : 0 < Dynamics.alpha G targ imp) by lra.
  unfold Dynamics.mu, Dynamics.alphamu, Dynamics.gamma, Dynamics.M_tot,
    Dynamics.imp_m, Dynamics.targ_m.
  set (a := Dynamics.alpha G targ imp) in *.
  apply Rmult_lt_0_compat; [| exact HQ0].
  apply Rmult_lt_0_compat.
  - apply powr_pos. apply Rdiv_lt_0_compat.
    + apply Rdiv_lt_0_compat; [apply Rmult_lt_0_compat |]; lra.
    + apply Rdiv_lt_0_compat.
      * repeat apply Rmult_lt_0_compat; lra.
      * assert (0 < a * m imp) by (apply Rmult_lt_0_compat; lra). lra.
  - assert (Hg : 0 < m imp / m targ) by (apply Rdiv_lt_0_compat; lra).
    apply Rdiv_lt_0_compat; [apply pow_lt; lra | lra].
Qed.

Lemma powr_le_one (a y : R) : 1 <= a -> y <= 0 -> powr a y <= 1.
Proof.
  intros Ha Hy. unfold powr. destruct (Rlt_dec 0 a) as [_ | Hn]; [| lra].
  unfold Rpower. rewrite <- exp_0.
  destruct (Req_dec (y * ln a) 0) as [-> | Hne]; [lra |].
  left. apply exp_increasing.
  assert (0 <= ln a) by (rewrite <- ln_1; destruct (Req_dec a 1) as [-> | ?];
                         [lra | left; apply ln_increasing; lra]).
  nra.
Qed.

(** X17: the parameters the builder returns for two bodies of positive
    mass and radius: the impact parameter is not negative, the overlap is
    at most the diameter of the projectile, the impact speed is at least
    the relative speed, the escape velocity is positive, the specific
    energy is not negative, and the provisional largest remnant weighs
    between 0 and the mass of the pair. *)
Theorem builder_ranges (s s' : state) (i j : nat) (params : collision_params) :
  let targ := particle_at (sim s) i in
  let imp := particle_at (sim s) j in
  0 < m targ -> 0 < m imp -> 0 < r targ -> 0 < r imp ->
  build_params s i j = Done params s' ->
  0 <= b params
  /\ l params <= 2 * r imp
  /\ 0 <= vrel params <= Vi params
  /\ 0 < V_esc params
  /\ 0 <= Q params
  /\ 0 <= Mlr params <= m targ + m imp.
Proof.
  intros targ imp Hmt Hmi Hrt Hri Hb.
  assert (Hb' := Hb). unfold build_params in Hb'.
  destruct (decide _) as [| Hnan]; [discriminate |].
  destruct (Dynamics.rho1 (G (sim s))) as [rho |] eqn:Hrho; [| discriminate].
  injection Hb' as <- _. cbn [b l vrel Vi V_esc Q Mlr].
  fold targ imp.
  destruct (rho1_positive _ _ Hrho) as [HG Hrp].
  assert (HM : 0 <= m imp + m targ) by lra.
  pose proof (v2rel_nonneg targ imp) as H0.
  pose proof (v2imp_focused (G (sim s)) targ imp (Rlt_le _ _ HG) HM) as H1.
  assert (HQ : 0 <= Dynamics.Q (G (sim s)) targ imp).
  { unfold Dynamics.Q, Dynamics.M_tot, Dynamics.imp_m, Dynamics.targ_m.
    apply Rdiv_ge_bound; [apply pow_lt; lra |]. rewrite Rmult_0_l.
    assert (H2 : 0 <= Dynamics.v2imp (G (sim s)) targ imp * m targ)
      by (apply Rmult_le_pos; lra).
    assert (H3 : 0 <= Dynamics.v2imp (G (sim s)) targ imp * m targ * m imp)
      by (apply Rmult_le_pos; lra).
    lra. }
  split; [apply b_nonneg |]. split; [apply l_bounded |].
  split; [split; [apply sqrt_pos | apply sqrt_le_1_alt; exact H1] |].
  split.
  { unfold Dynamics.V_esc, Dynamics.M_tot, Dynamics.R_tot, Dynamics.imp_m,
      Dynamics.targ_m, Dynamics.imp_r, Dynamics.targ_r.
    apply powr_pos. apply Rdiv_lt_0_compat; [| lra].
    repeat apply Rmult_lt_0_compat; lra. }
  split; [exact HQ |].
  split; [now apply Mlr_nonneg |].
  pose proof (Q_star_positive (G (sim s)) targ imp rho HG Hrp Hmt Hmi Hri) as HQs.
  assert (Hq : 0 <= Dynamics.qratio (G (sim s)) targ imp rho).
  { unfold Dynamics.qratio. apply Rdiv_ge_bound; lra. }
  unfold Dynamics.Mlr, Dynamics.M_tot, Dynamics.imp_m, Dynamics.targ_m.
  destruct (decide (_ < 1.8)) as [Hlt | Hge].
  - nra.
  - assert (Hp : powr (Dynamics.qratio (G (sim s)) targ imp rho / 1.8) (-1.5)
                 <= 1).
    { apply powr_le_one; [| lra]. apply Rdiv_ge_bound; lra. }
    pose proof (powr_nonneg (Dynamics.qratio (G (sim s)) targ imp rho / 1.8)
                  (-1.5)) as Hp0.
    nra.
Qed.

(** ** Radii and densities *)

Lemma powr_third_cubed (a : R) : 0 < a -> powr a (1 / 3) ^ 3 = a.
Proof.
  intros Ha. unfold powr. destruct (Rlt_dec 0 a) as [_ | Hn]; [| contradiction].
  rewrite <- Rpower_pow by apply exp_pos.
  rewrite Rpower_mult.
  replace (1 / 3 * INR 3) with 1 by (simpl; lra).
  now apply Rpower_1.
Qed.

Lemma get_radii_cubed (mass rho : R) :
  0 < mass -> 0 < rho ->
  0 < 3 * mass / (4 * PI * rho)
  /\ get_radii mass rho ^ 3 = 3 * mass / (4 * PI * rho).
Proof.
  intros Hm Hrho. pose proof PI_RGT_0 as Hpi.
  assert (Ha : 0 < 3 * mass / (4 * PI * rho)).
  { apply Rdiv_lt_0_compat; [lra |]. apply Rmult_lt_0_compat; lra. }
  split; [exact Ha |]. unfold get_radii. now apply powr_third_cubed.
Qed.

(** X18: for a positive mass and density [get_radii] is the radius of the
    sphere of that mass and density, and it does not decrease with the
    mass. *)
Theorem get_radii_is_the_sphere (mass rho : R) :
  0 < mass -> 0 < rho ->
  0 < get_radii mass rho
  /\ 4 / 3 * PI * get_radii mass rho ^ 3 * rho = mass
  /\ mass / (4 / 3 * PI * get_radii mass rho ^ 3) = rho
  /\ (forall mass' : R, mass <= mass' ->
        get_radii mass rho <= get_radii mass' rho).
Proof.
  intros Hm Hrho. pose proof PI_RGT_0 as Hpi.
  destruct (get_radii_cubed mass rho Hm Hrho) as [Ha Hcube].
  split; [unfold get_radii; now apply powr_pos |].
  rewrite Hcube.
  split; [field; lra |]. split; [field; lra |].
  intros mass' Hle. unfold get_radii. apply powr_le_l; [lra |].
  split; [exact Ha |].
  unfold Rdiv. apply Rmult_le_compat_r; [| lra].
  left. apply Rinv_0_lt_compat. apply Rmult_lt_0_compat; lra.
Qed.

(** X19: the body a merge leaves has the mass, the linear momentum and
    the mass-weighted position of the pair and the density of the target;
    its radius is not below the radius of the target. *)
Theorem merge_keeps_density_and_momentum (s : state)
    (params : collision_params) (pi pj : reb_particle) :
  particles (sim s) !! target params = Some pi ->
  particles (sim s) !! projectile params = Some pj ->
  target params <> projectile params ->
  0 < m pi -> 0 <= m pj -> 0 < r pi ->
  let q := particle_at (sim (merge s params)) (target params) in
  m q = m pi + m pj
  /\ m q * vx q = m pi * vx pi + m pj * vx pj
  /\ m q * vy q = m pi * vy pi + m pj * vy pj
  /\ m q * vz q = m pi * vz pi + m pj * vz pj
  /\ m q * x q = m pi * x pi + m pj * x pj
  /\ m q * y q = m pi * y pi + m pj * y pj
  /\ m q * z q = m pi * z pi + m pj * z pj
  /\ m q / (4 / 3 * PI * r q ^ 3) = m pi / (4 / 3 * PI * r pi ^ 3)
  /\ r pi <= r q.
Proof.
  intros Hi Hj _ Hmi Hmj Hri q.
  assert (Hlen : (target params < length (particles (sim s)))%nat)
    by (eapply lookup_lt_Some; eassumption).
  pose proof PI_RGT_0 as Hpi.
  assert (Hr3 : 0 < r pi ^ 3) by (apply pow_lt; exact Hri).
  set (rho := m pi / (4 / 3 * PI * r pi ^ 3)).
  assert (Hrho : 0 < rho).
  { apply Rdiv_lt_0_compat; [exact Hmi |].
    assert (0 < PI * r pi ^ 3) by (apply Rmult_lt_0_compat; lra). lra. }
  assert (Hq : q = Particle ((x pi * m pi + x pj * m pj) * (1 / (m pi + m pj)))
                            ((y pi * m pi + y pj * m pj) * (1 / (m pi + m pj)))
                            ((z pi * m pi + z pj * m pj) * (1 / (m pi + m pj)))
                            ((vx pi * m pi + vx pj * m pj) * (1 / (m pi + m pj)))
                            ((vy pi * m pi + vy pj * m pj) * (1 / (m pi + m pj)))
                            ((vz pi * m pi + vz pj * m pj) * (1 / (m pi + m pj)))
                            (m pi + m pj) (get_radii (m pi + m pj) rho)
                            (t (sim s)) (hash pi)).
  { subst q. unfold merge, particle_at, set_sim.
    cbn [sim particles set_particles].
    rewrite (list_lookup_total_correct _ _ _ Hi),
            (list_lookup_total_correct _ _ _ Hj).
    apply list_lookup_total_correct.
    now apply list_lookup_insert_eq. }
  rewrite Hq. cbn [m x y z vx vy vz r].
  assert (Hd : (m pi + m pj) / (4 / 3 * PI * get_radii (m pi + m pj) rho ^ 3)
               = rho).
  { destruct (get_radii_cubed (m pi + m pj) rho) as [_ ->];
      [lra | exact Hrho |]. field. lra. }
  split; [reflexivity |].
  repeat (split; [field; lra |]).
  split; [exact Hd |].
  assert (Hself : get_radii (m pi) rho = r pi).
  { unfold get_radii, rho.
    replace (3 * m pi / (4 * PI * (m pi / (4 / 3 * PI * r pi ^ 3))))
      with (r pi * r pi * r pi) by (field; lra).
    now apply powr_cube_root. }
  rewrite <- Hself at 1.
  unfold get_radii. apply powr_le_l; [lra |]. split.
  - apply Rdiv_lt_0_compat; [lra |]. apply Rmult_lt_0_compat; lra.
  - unfold Rdiv. apply Rmult_le_compat_r; [| lra].
    left. apply Rinv_0_lt_compat. apply Rmult_lt_0_compat; lra.
Qed.

(** ** The periodic box *)

Lemma wrapped_coordinate (a L : R) :
  0 < L ->
  - (L / 2) <= a - L * floor ((a + 0.5 * L) / L) < L / 2.
Proof.
  intros HL. unfold floor.
  destruct (base_Int_part ((a + 0.5 * L) / L)) as [H1 H2].
  set (k := IZR (Int_part ((a + 0.5 * L) / L))) in *.
  assert (Hq : (a + 0.5 * L) / L * L = a + 0.5 * L) by (field; lra).
  assert (Hlo : k * L <= a + 0.5 * L).
  { rewrite <- Hq. apply Rmult_le_compat_r; lra. }
  assert (Hhi : a + 0.5 * L < (k + 1) * L).
  { rewrite <- Hq. apply Rmult_lt_compat_r; lra. }
  lra.
Qed.

(** X20: in a box of positive extents the wrap of the shearing-sheet file
    brings [x] and [y] into [-L/2, L/2) by a whole number of box lengths,
    leaves a body inside the box where it is, changes no other field, and
    wrapping twice is wrapping once; the fragmentation file does not
    wrap. *)
Theorem wrap_into_box_range (sm : reb_simulation) (p : reb_particle) :
  0 < boxsize_x sm -> 0 < boxsize_y sm ->
  let q := wrap_into_box ShearingSheet sm p in
  - (boxsize_x sm / 2) <= x q < boxsize_x sm / 2
  /\ - (boxsize_y sm / 2) <= y q < boxsize_y sm / 2
  /\ (exists k : Z, x q = x p - IZR k * boxsize_x sm)
  /\ (exists k : Z, y q = y p - IZR k * boxsize_y sm)
  /\ (- (boxsize_x sm / 2) <= x p < boxsize_x sm / 2 -> x q = x p)
  /\ (- (boxsize_y sm / 2) <= y p < boxsize_y sm / 2 -> y q = y p)
  /\ q = Particle (x q) (y q) (z p) (vx p) (vy p) (vz p) (m p) (r p)
                  (last_collision p) (hash p)
  /\ wrap_into_box ShearingSheet sm q = q
  /\ wrap_into_box Fragmentation sm p = p.
Proof.
  intros Hx Hy q.
  assert (Hfix : forall a L : R, 0 < L -> - (L / 2) <= a < L / 2 ->
            a - L * floor ((a + 0.5 * L) / L) = a).
  { intros a L HL Ha. unfold floor.
    destruct (base_Int_part ((a + 0.5 * L) / L)) as [H1 H2].
    assert (Hq : 0 <= (a + 0.5 * L) / L < 1).
    { split; [apply Rdiv_ge_bound; lra |].
      apply Rmult_lt_reg_r with L; [exact HL |].
      unfold Rdiv. rewrite Rmult_assoc, Rinv_l by lra. lra. }
    assert (Hk : Int_part ((a + 0.5 * L) / L) = 0%Z).
    { assert (Ha1 : IZR (Int_part ((a + 0.5 * L) / L)) < 1) by lra.
      assert (Ha2 : -1 < IZR (Int_part ((a + 0.5 * L) / L))) by lra.
      apply lt_IZR in Ha1, Ha2. lia. }
    rewrite Hk. lra. }
  pose proof (wrapped_coordinate (x p) (boxsize_x sm) Hx) as Hwx.
  pose proof (wrapped_coordinate (y p) (boxsize_y sm) Hy) as Hwy.
  subst q. cbn [wrap_into_box x y].
  split; [exact Hwx |]. split; [exact Hwy |].
  split; [eexists; unfold floor; rewrite Rmult_comm; reflexivity |].
  split; [eexists; unfold floor; rewrite Rmult_comm; reflexivity |].
  split; [intros Hin; now apply Hfix |].
  split; [intros Hin; now apply Hfix |].
  split; [reflexivity |].
  split; [| reflexivity].
  cbn [x y z vx vy vz m r last_collision hash].
  rewrite (Hfix _ _ Hx Hwx), (Hfix _ _ Hy Hwy). reflexivity.
Qed.

(** ** Bystanders *)

Lemma correct_fragment_prefix (xoff voff : vec3) (M : R)
    (sm : reb_simulation) (i : Z) (n : nat) :
  (forall (k : nat) (h : reb_hash_t),
     (k < n)%nat -> (hash <$> particles sm) !! k = Some h -> h <> FRAG i) ->
  take n (particles (correct_fragment xoff voff M sm i))
  = take n (particles sm).
Proof.
  intros Hold. unfold correct_fragment, reb_simulation_particle_by_hash.
  destruct (list_find _ (particles sm)) as [[k q] |] eqn:Hf; [| reflexivity].
  cbn [fmap option_fmap option_map fst set_particles particles].
  apply list_find_Some in Hf as (Hk & Hh & _).
  apply take_insert_ge.
  destruct (decide (n <= k)%nat) as [Hle | Hgt]; [exact Hle |].
  exfalso. apply (Hold k (hash q)); [lia | | exact Hh].
  now rewrite list_lookup_fmap, Hk.
Qed.

Lemma correction_loop_prefix (xoff voff : vec3) (M : R) (l : list Z) (n : nat) :
  forall sm : reb_simulation,
    (forall (i : Z) (k : nat) (h : reb_hash_t),
       i ∈ l -> (k < n)%nat -> (hash <$> particles sm) !! k = Some h ->
       h <> FRAG i) ->
    take n (particles (foldl (correct_fragment xoff voff M) sm l))
    = take n (particles sm).
Proof.
  induction l as [| i l IH]; intros sm Hold; [reflexivity |].
  cbn [foldl]. rewrite IH.
  - apply correct_fragment_prefix. intros k h Hk Hh.
    apply (Hold i k h); [left | exact Hk | exact Hh].
  - intros i' k h Hi' Hk Hh.
    rewrite (correct_fragment_keeps hash) in Hh by apply shift_keeps_hash.
    apply (Hold i' k h); [now right | exact Hk | exact Hh].
Qed.

Lemma final_prefix (v : variant) (s : state) (pf : collision_params) :
  fresh_counter s -> (target pf < N (sim s))%nat ->
  take (N (sim s)) (particles (sim (Synth.final v s pf)))
  = <[target pf := Synth.corrected_target s pf]> (particles (sim s)).
Proof.
  intros Hfresh Ht. unfold Synth.final; cbn [sim].
  rewrite correction_loop_prefix.
  - unfold Synth.before_correction; cbn [particles set_particles].
    rewrite insert_app_l by (rewrite length_insert; exact Ht).
    rewrite list_insert_insert_eq.
    apply take_app_length'. now rewrite length_insert.
  - intros i k h Hi Hk Hh ->.
    unfold Synth.before_correction in Hh; cbn [particles set_particles] in Hh.
    rewrite insert_app_l in Hh by (rewrite length_insert; exact Ht).
    rewrite list_insert_insert_eq in Hh.
    rewrite fmap_app, lookup_app_l in Hh
      by (rewrite length_fmap, length_insert; exact Hk).
    rewrite list_fmap_insert in Hh.
    assert (Hold : exists q, q ∈ particles (sim s) /\ hash q = FRAG i).
    { destruct (decide (k = target pf)) as [-> | Hne].
      - rewrite list_lookup_insert_eq in Hh by (now rewrite length_fmap).
        injection Hh as Hh. cbn [hash Synth.corrected_target] in Hh.
        exists (Synth.target s pf). split; [| exact Hh].
        unfold Synth.target, particle_at.
        apply list_elem_of_lookup_total_2. exact Ht.
      - rewrite list_lookup_insert_ne in Hh by congruence.
        rewrite list_lookup_fmap in Hh.
        destruct (particles (sim s) !! k) as [q |] eqn:Hq; [| discriminate].
        injection Hh as Hh. exists q. split; [| exact Hh].
        eapply list_elem_of_lookup_2; exact Hq. }
    destruct Hold as (q & Hq & Hh').
    pose proof (Hfresh q i Hq Hh') as Hle.
    apply elem_of_seqZ in Hi. unfold Synth.tot, Synth.new_bodies in Hi. lia.
Qed.

Section Bystanders.

Variable hardsphere : reb_simulation -> reb_collision -> reb_simulation.
Hypothesis contract : hardsphere_contract hardsphere.

(** X21: where no stored body carries a fragment name beyond the counter,
    a merge or a fragmentation changes no stored body other than the kept
    one: the projectile and every bystander are as before. *)
Theorem bystanders_are_untouched (v : variant) (s s' : state)
    (c : reb_collision) (d : Z) (k : nat) :
  valid_event s c -> fresh_counter s ->
  reb_collision_resolve_fragment hardsphere v s c = Done d s' ->
  d <> 0%Z ->
  k <> (if decide (m (particle_at (sim s) (p1 c))
                   < m (particle_at (sim s) (p2 c)))
        then p2 c else p1 c) ->
  (k < N (sim s))%nat ->
  particles (sim s') !! k = particles (sim s) !! k.
Proof.
  intros Hvalid Hfresh Hres Hd Hk HkN.
  apply resolve_cases in Hres as [(-> & _) | Hres]; [contradiction |].
  destruct Hres as (i & j & params & p' & s1 & Hij & _ & _ & _ & Hb & -> & Hc).
  cbv zeta in *.
  assert (Hi0 : (if decide (m (particle_at (sim s) (p1 c))
                            < m (particle_at (sim s) (p2 c)))
                 then p2 c else p1 c) = i).
  { destruct Hij as [(Hl & -> & _) | (Hl & -> & _)].
    - now rewrite decide_True.
    - now rewrite decide_False. }
  rewrite Hi0 in Hk.
  destruct (resolved_event _ contract _ _ _ _ _ _ _ _ _ Hvalid Hij Hb Hc)
    as (Hi & Hj & Htp & Hpp & _).
  destruct (build_params_inv _ _ _ _ _ Hb)
    as (_ & Hti & Htj & _ & _ & _ & rho & _ & HMlr).
  destruct Hvalid as (Hp1 & Hp2 & Hm1 & Hm2 & Hmfm).
  unfold print_collision_array; cbn [sim].
  destruct Hc as (_ & _ & [(_ & _ & _ & ->) | [(-> & _) | (_ & pf & Ha & He)]]).
  - unfold merge, set_sim; cbn [sim particles set_particles].
    apply list_lookup_insert_ne. congruence.
  - contradiction.
  - destruct (add_fragments_params _ _ _ _ _ Ha) as [_ ->].
    destruct He as (Htf & _). rewrite Hti in *.
    rewrite <- (lookup_take_lt _ (N (sim s))) by exact HkN.
    rewrite final_prefix by (try assumption; rewrite Htf; exact Hi).
    apply list_lookup_insert_ne. congruence.
Qed.

(** X22: a call whose counts stay in range keeps the invariant that no
    stored body carries a fragment name beyond the counter, where the
    hard-sphere resolver of the host keeps the names. *)
Theorem fresh_counter_is_kept (v : variant) (s s' : state)
    (c : reb_collision) (d : Z) :
  keeps_hashes hardsphere ->
  valid_event s c -> counts_fit v s c -> fresh_counter s ->
  reb_collision_resolve_fragment hardsphere v s c = Done d s' ->
  fresh_counter s'.
Proof.
  intros Hkeep Hvalid Hfit Hfresh Hres.
  assert (Hlist : forall s2 : state,
    (tot_no_frags s <= tot_no_frags s2)%Z ->
    (forall h : reb_hash_t, h ∈ hash <$> particles (sim s2) ->
       h ∈ hash <$> particles (sim s)
       \/ exists k : Z, h = FRAG k /\ (k <= tot_no_frags s2)%Z) ->
    fresh_counter s2).
  { intros s2 Htot Hh q k Hq Hk.
    destruct (Hh (hash q)) as [Hold | (k' & Hk' & Hle)].
    - apply list_elem_of_fmap. now exists q.
    - apply list_elem_of_fmap in Hold as (q0 & Hq0 & Hin).
      pose proof (Hfresh q0 k Hin) as H. rewrite <- Hq0, Hk in H.
      specialize (H eq_refl). lia.
    - rewrite Hk in Hk'. injection Hk' as ->. exact Hle. }
  apply resolve_cases in Hres as [(-> & -> & _) | Hres]; [exact Hfresh |].
  destruct Hres as (i & j & params & p' & s1 & Hij & _ & _ & _ & Hb & -> & Hc).
  cbv zeta in *.
  destruct (resolved_event _ contract _ _ _ _ _ _ _ _ _ Hvalid Hij Hb Hc)
    as (Hi & Hj & Htp & Hpp & _ & Hnf & _ & Htot & _).
  destruct (Hnf Hfit) as [Hn0 _].
  destruct (build_params_inv _ _ _ _ _ Hb)
    as (_ & Hti & Htj & _ & _ & _ & rho & _ & HMlr).
  destruct Hvalid as (Hp1 & Hp2 & Hm1 & Hm2 & Hmfm).
  apply Hlist; unfold print_collision_array; cbn [sim tot_no_frags];
    [lia |].
  intros h Hh.
  destruct Hc as (_ & _ & [(_ & _ & _ & ->) | [(_ & _ & _ & ->) | (_ & pf & Ha & He)]]).
  - left. unfold merge, set_sim in Hh; cbn [sim particles set_particles] in Hh.
    rewrite list_fmap_insert in Hh. cbn [hash] in Hh.
    rewrite Htp in Hh.
    rewrite list_insert_id in Hh; [exact Hh |].
    rewrite list_lookup_fmap. unfold particle_at.
    destruct (lookup_lt_is_Some_2 (particles (sim s)) _ Hi) as [qi Hqi].
    now rewrite (list_lookup_total_correct _ _ _ Hqi), Hqi.
  - left. unfold set_sim in Hh; cbn [sim] in Hh. now rewrite Hkeep in Hh.
  - pose proof (add_fragments_counted _ _ _ _ _ Ha) as Hn.
    destruct (add_fragments_params _ _ _ _ _ Ha) as [-> ->].
    destruct He as (Htf & _). rewrite Hti in *.
    rewrite (final_fields hash) in Hh by
      (try apply shift_keeps_hash; try apply wrap_keeps_hash;
       try reflexivity; rewrite Htf; exact Hi).
    apply elem_of_app in Hh as [Hh | Hh].
    + left. cbn [hash Synth.placed_target] in Hh.
      rewrite list_insert_id in Hh; [exact Hh |].
      rewrite list_lookup_fmap. unfold Synth.target, particle_at.
      rewrite Htf.
      destruct (lookup_lt_is_Some_2 (particles (sim s)) _ Hi) as [qi Hqi].
      now rewrite (list_lookup_total_correct _ _ _ Hqi), Hqi.
    + right. rewrite created_hashes in Hh by exact Hn.
      apply list_elem_of_fmap in Hh as (k & -> & Hk).
      exists k. split; [reflexivity |].
      apply elem_of_seqZ in Hk.
      cbn [no_frags set_no_frags] in Htot. rewrite Htot. lia.
Qed.

End Bystanders.

(** ** The identifiers of a run *)

Section Identifiers.

Variable hardsphere : reb_simulation -> reb_collision -> reb_simulation.
Hypothesis contract : hardsphere_contract hardsphere.

Lemma counter_step (v : variant) (s s' : state) (c : reb_collision) (d : Z) :
  valid_event s c -> counts_fit v s c ->
  reb_collision_resolve_fragment hardsphere v s c = Done d s' ->
  (tot_no_frags s <= tot_no_frags s' <= last_index v)%Z
  /\ created_by s s'
     = FRAG <$> seqZ (tot_no_frags s + 1) (tot_no_frags s' - tot_no_frags s).
Proof.
  intros Hvalid Hfit Hres.
  pose proof (counts_fit_counter _ _ _ Hvalid Hfit) as Hcounter.
  apply resolve_cases in Hres as [(-> & -> & _) | Hres].
  { split; [lia |]. rewrite Z.sub_diag. now apply created_by_same_length. }
  destruct Hres as (i & j & params & p' & s1 & Hij & _ & _ & _ & Hb & -> & Hc).
  cbv zeta in *.
  destruct (resolved_event _ contract _ _ _ _ _ _ _ _ _ Hvalid Hij Hb Hc)
    as (Hi & Hj & Htp & Hpp & _ & Hnf & HN & Htot & _).
  destruct (Hnf Hfit) as [Hn0 Hlast].
  destruct (build_params_inv _ _ _ _ _ Hb) as (_ & Hti & _).
  unfold print_collision_array, created_by; cbn [sim tot_no_frags].
  rewrite Htot. split; [lia |].
  replace (tot_no_frags s + no_frags p' - tot_no_frags s)%Z
    with (no_frags p') by lia.
  destruct Hc as (_ & _ & [(_ & _ & Hz & ->) | [(_ & _ & Hz & ->) | (_ & pf & Ha & He)]]).
  - rewrite Hz. apply created_by_same_length.
    unfold merge, set_sim; cbn. apply length_insert.
  - rewrite Hz. apply created_by_same_length.
    unfold set_sim; cbn [sim].
    destruct (contract (sim s) c) as (_ & Hms & _).
    apply (f_equal length) in Hms. now rewrite !length_fmap in Hms.
  - pose proof (add_fragments_counted _ _ _ _ _ Ha) as Hn.
    destruct (add_fragments_params _ _ _ _ _ Ha) as [-> ->].
    destruct He as (Htf & _). cbn [no_frags set_no_frags].
    rewrite fmap_drop.
    rewrite (final_fields hash) by
      (try apply shift_keeps_hash; try apply wrap_keeps_hash;
       try reflexivity; rewrite Htf, Hti; exact Hi).
    rewrite drop_app_length'
      by (rewrite length_insert, length_fmap; reflexivity).
    now apply created_hashes.
Qed.

(** X25: along a run whose counts stay in range the fragment counter
    never decreases, each event advances it by the number of bodies it
    creates, and the bodies created are named, in the order of their
    creation, by the successive indices after the counter: "FRAG<tot+1>",
    "FRAG<tot+2>", ...; no two of them have the same name. *)
Theorem identifiers_of_a_run (v : variant) (s s' : state)
    (ids : list reb_hash_t) :
  run hardsphere v s ids s' ->
  (tot_no_frags s <= tot_no_frags s')%Z
  /\ ids = FRAG <$> seqZ (tot_no_frags s + 1) (tot_no_frags s' - tot_no_frags s)
  /\ Z.of_nat (length ids) = (tot_no_frags s' - tot_no_frags s)%Z
  /\ NoDup ids.
Proof.
  intros Hrun.
  assert (Hmain :
    (tot_no_frags s <= tot_no_frags s')%Z
    /\ ids = FRAG <$> seqZ (tot_no_frags s + 1)
                           (tot_no_frags s' - tot_no_frags s)).
  { induction Hrun as [s | s s1 s2 c d ids Hvalid Hfit Hres Hrun [IHle IHids]
                         | s s1 s2 ids Htot Hrun [IHle IHids]].
    - split; [lia |]. now rewrite Z.sub_diag.
    - destruct (counter_step v s s1 c d Hvalid Hfit Hres) as [Hle Hcr].
      split; [lia |]. rewrite Hcr, IHids, <- fmap_app. f_equal.
      replace (tot_no_frags s2 - tot_no_frags s)%Z
        with ((tot_no_frags s1 - tot_no_frags s)
              + (tot_no_frags s2 - tot_no_frags s1))%Z by lia.
      rewrite seqZ_app by lia. do 2 f_equal. lia.
    - rewrite Htot in *. now split. }
  destruct Hmain as [Hle Hids]. split; [exact Hle |]. split; [exact Hids |].
  split.
  - rewrite Hids, length_fmap, length_seqZ. lia.
  - rewrite Hids. apply NoDup_fmap_2; [| apply NoDup_seqZ].
    intros a b [= ->]. reflexivity.
Qed.

End Identifiers.

(** ** What the correction pass does *)

(** The correction loop shifts every new body once, where the names of the
    new bodies are fresh. *)
Lemma correction_loop_exact (xoff voff : vec3) (M : R) (sm : reb_simulation) :
  forall (ids : list Z) (cr pre done : list reb_particle),
    hash <$> cr = FRAG <$> ids -> NoDup ids ->
    (forall (q : reb_particle) (i : Z),
       q ∈ pre ++ done -> i ∈ ids -> hash q <> FRAG i) ->
    particles (foldl (correct_fragment xoff voff M)
                     (set_particles sm (pre ++ done ++ cr)) ids)
    = pre ++ done ++ ((fun q => shift xoff voff (m q / M) q) <$> cr).
Proof.
  induction ids as [| i ids IH]; intros cr pre done Hh Hnd Hold.
  - destruct cr; [| discriminate]. reflexivity.
  - destruct cr as [| q cr]; [discriminate |].
    rewrite !fmap_cons in Hh. injection Hh as Hq Hh.
    apply NoDup_cons in Hnd as [Hi Hnd].
    cbn [foldl].
    assert (Hfind : list_find (fun p => hash p = FRAG i) (pre ++ done ++ q :: cr)
                    = Some (length (pre ++ done), q)).
    { apply list_find_Some. rewrite app_assoc. split; [| split].
      - now rewrite list_lookup_middle.
      - exact Hq.
      - intros j y Hy Hj. rewrite lookup_app_l in Hy by exact Hj.
        apply (Hold y i); [eapply list_elem_of_lookup_2; exact Hy | left]. }
    unfold correct_fragment at 2, reb_simulation_particle_by_hash.
    cbn [particles set_particles]. rewrite Hfind.
    cbn [fmap option_fmap option_map fst].
    unfold particle_at. cbn [particles set_particles].
    assert (Hq' : (pre ++ done ++ q :: cr) !!! length (pre ++ done) = q).
    { apply list_lookup_total_correct. rewrite app_assoc.
      now rewrite list_lookup_middle. }
    rewrite Hq'.
    replace (<[length (pre ++ done) := shift xoff voff (m q / M) q]>
               (pre ++ done ++ q :: cr))
      with (pre ++ (done ++ [shift xoff voff (m q / M) q]) ++ cr).
    2:{ rewrite (app_assoc pre done (q :: cr)).
        rewrite insert_app_r_alt by lia. rewrite Nat.sub_diag. cbn [insert list_insert].
        rewrite <- !app_assoc. reflexivity. }
    change (set_particles (set_particles sm ?a) ?b) with (set_particles sm b).
    rewrite IH; [| exact Hh | exact Hnd |].
    + rewrite fmap_cons, <- !app_assoc. reflexivity.
    + intros y k Hy Hk. rewrite app_assoc in Hy.
      apply elem_of_app in Hy as [Hy | Hy].
      * apply (Hold y k Hy). now right.
      * apply list_elem_of_singleton in Hy as ->.
        rewrite shift_keeps_hash, Hq. intros [= ->]. contradiction.
Qed.

Lemma final_particles (v : variant) (s : state) (pf : collision_params) :
  fresh_counter s ->
  (0 <= Synth.no_frags s pf)%Z \/ Synth.big_frags pf = 0%Z ->
  (target pf < N (sim s))%nat ->
  particles (sim (Synth.final v s pf))
  = <[target pf := Synth.corrected_target s pf]> (particles (sim s))
    ++ ((fun q => shift (Synth.xoff s pf) (Synth.voff s pf)
                        (m q / Synth.initial_mass s pf) q)
          <$> (wrap_into_box v (sim s) <$> Synth.created s pf)).
Proof.
  intros Hfresh Hn Ht. unfold Synth.final; cbn [sim].
  unfold Synth.before_correction.
  rewrite insert_app_l by (rewrite length_insert; exact Ht).
  rewrite list_insert_insert_eq.
  replace (Synth.tot s pf - Synth.new_bodies s pf + 1)%Z
    with (tot_no_frags s + 1)%Z by (unfold Synth.tot, Synth.new_bodies; lia).
  pose proof (correction_loop_exact (Synth.xoff s pf) (Synth.voff s pf)
                (Synth.initial_mass s pf) (sim s)
                (seqZ (tot_no_frags s + 1) (Synth.new_bodies s pf))
                (wrap_into_box v (sim s) <$> Synth.created s pf)
                (<[target pf := Synth.corrected_target s pf]> (particles (sim s)))
                []) as Hloop.
  cbn [app] in Hloop. rewrite app_nil_r in Hloop. apply Hloop.
  - rewrite <- list_fmap_compose.
    rewrite <- (created_hashes s pf Hn).
    apply list_fmap_ext. intros _ q _. apply wrap_keeps_hash.
  - apply NoDup_seqZ.
  - intros q i Hq Hi Hh.
    apply elem_of_seqZ in Hi.
    assert (Hold : exists q0, q0 ∈ particles (sim s) /\ hash q0 = FRAG i).
    { apply list_elem_of_lookup_1 in Hq as [k Hk].
      destruct (decide (k = target pf)) as [-> | Hne].
      - rewrite list_lookup_insert_eq in Hk by exact Ht.
        injection Hk as <-. cbn [hash Synth.corrected_target] in Hh.
        exists (Synth.target s pf). split; [| exact Hh].
        unfold Synth.target, particle_at.
        apply list_elem_of_lookup_total_2. exact Ht.
      - rewrite list_lookup_insert_ne in Hk by congruence.
        exists q. split; [| exact Hh].
        eapply list_elem_of_lookup_2; exact Hk. }
    destruct Hold as (q0 & Hq0 & Hh0).
    pose proof (Hfresh q0 i Hq0 Hh0). lia.
Qed.

Lemma sum_velocities_eq (l : list reb_particle) :
  forall acc : vec3,
    Synth.sum_velocities acc l
    = (acc.1.1 + weighted_sum vx l, acc.1.2 + weighted_sum vy l,
       acc.2 + weighted_sum vz l).
Proof.
  induction l as [| q l IH]; intros [[a b] c].
  - cbn. f_equal; [f_equal |]; ring.
  - unfold Synth.sum_velocities in *. cbn [foldl]. rewrite IH.
    cbn [add_weighted fst snd weighted_sum foldr].
    f_equal; [f_equal |]; unfold weighted_sum; ring.
Qed.

Lemma sum_positions_eq (l : list reb_particle) :
  forall acc : vec3,
    Synth.sum_positions acc l
    = (acc.1.1 + weighted_sum x l, acc.1.2 + weighted_sum y l,
       acc.2 + weighted_sum z l).
Proof.
  induction l as [| q l IH]; intros [[a b] c].
  - cbn. f_equal; [f_equal |]; ring.
  - unfold Synth.sum_positions in *. cbn [foldl]. rewrite IH.
    cbn [add_weighted fst snd weighted_sum foldr].
    f_equal; [f_equal |]; unfold weighted_sum; ring.
Qed.

Lemma weighted_sum_cons (f : reb_particle -> R) (q : reb_particle)
    (l : list reb_particle) :
  weighted_sum f (q :: l) = m q * f q + weighted_sum f l.
Proof. reflexivity. Qed.

Lemma shifted_sum (f g : reb_particle -> R) (off : R) (xoff voff : vec3)
    (M : R) (l : list reb_particle) :
  M <> 0 ->
  (forall (k : R) (q : reb_particle), f (shift xoff voff k q) = g q + off * k) ->
  weighted_sum f ((fun q => shift xoff voff (m q / M) q) <$> l)
  = weighted_sum g l + off * M * squared_fractions M l.
Proof.
  intros HM Hshift. unfold squared_fractions.
  induction l as [| q l IH]; [cbn; ring |].
  rewrite !fmap_cons, !weighted_sum_cons, IH, Hshift, shift_keeps_m.
  change (sumR (?a :: ?b)) with (a + sumR b). field. exact HM.
Qed.

Lemma wrapped_sum (f : reb_particle -> R) (v : variant) (sm : reb_simulation)
    (l : list reb_particle) :
  (forall q : reb_particle, f (wrap_into_box v sm q) = f q) ->
  weighted_sum f (wrap_into_box v sm <$> l) = weighted_sum f l.
Proof.
  intros Hw. induction l as [| q l IH]; [reflexivity |].
  now rewrite fmap_cons, !weighted_sum_cons, IH, Hw, wrap_keeps_m.
Qed.

Lemma wrapped_fractions (v : variant) (sm : reb_simulation) (M : R)
    (l : list reb_particle) :
  squared_fractions M (wrap_into_box v sm <$> l) = squared_fractions M l.
Proof.
  unfold squared_fractions. rewrite <- list_fmap_compose. f_equal.
  apply list_fmap_ext. intros _ q _. unfold compose. now rewrite wrap_keeps_m.
Qed.

(** One component of the correction: [f] reads it from a body, [off] is
    the offset the pass has computed for it. *)
Lemma corrected_component (f : reb_particle -> R) (off : R) (v : variant)
    (s : state) (pf : collision_params) :
  let M := Synth.initial_mass s pf in
  let before := Synth.placed_target s pf :: Synth.created s pf in
  let final := Synth.final v s pf in
  let after := particle_at (sim final) (target pf)
               :: drop (N (sim s)) (particles (sim final)) in
  fresh_counter s -> (0 <= Synth.no_frags s pf)%Z ->
  (target pf < N (sim s))%nat -> M <> 0 ->
  (forall (k : R) (q : reb_particle),
     f (shift (Synth.xoff s pf) (Synth.voff s pf) k q) = f q + off * k) ->
  (forall q : reb_particle, f (wrap_into_box v (sim s) q) = f q) ->
  f (Synth.placed_target s pf) = f (Synth.com s pf) ->
  f (Synth.corrected_target s pf)
  = f (Synth.com s pf) + off * Synth.target_mass s pf / M ->
  off = f (Synth.com s pf) - weighted_sum f before / M ->
  M * f (Synth.com s pf) - weighted_sum f after
  = (M * f (Synth.com s pf) - weighted_sum f before)
    * (1 - squared_fractions M before).
Proof.
  intros M before final after Hfresh Hn Ht HM Hshift Hwrap Hpl Hct Hoff.
  subst after final.
  pose proof (final_particles v s pf Hfresh (or_introl Hn) Ht) as Hfin.
  assert (Htarget : particle_at (sim (Synth.final v s pf)) (target pf)
                    = Synth.corrected_target s pf).
  { unfold particle_at. apply list_lookup_total_correct. rewrite Hfin.
    rewrite lookup_app_l by (rewrite length_insert; exact Ht).
    now apply list_lookup_insert_eq. }
  assert (Hnew : drop (N (sim s)) (particles (sim (Synth.final v s pf)))
                 = (fun q => shift (Synth.xoff s pf) (Synth.voff s pf)
                                   (m q / M) q)
                     <$> (wrap_into_box v (sim s) <$> Synth.created s pf)).
  { rewrite Hfin. apply drop_app_length'. now rewrite length_insert. }
  rewrite Htarget, Hnew, weighted_sum_cons.
  rewrite (shifted_sum f f off) by assumption.
  rewrite wrapped_sum by assumption. rewrite wrapped_fractions.
  subst before. rewrite weighted_sum_cons in *.
  unfold squared_fractions. rewrite fmap_cons.
  change (sumR (?a :: ?b)) with (a + sumR b).
  fold (squared_fractions M (Synth.created s pf)).
  rewrite Hct. rewrite Hpl in *.
  assert (Hmt : m (Synth.corrected_target s pf) = Synth.target_mass s pf)
    by reflexivity.
  assert (Hmp : m (Synth.placed_target s pf) = Synth.target_mass s pf)
    by reflexivity.
  rewrite Hmt. rewrite Hmp in *. rewrite Hoff. field. exact HM.
Qed.

(** X23: what the momentum correction achieves, where the synthesizer
    computes with finite numbers and with names that fit.  For the kept
    body and the new bodies, the distance of the mass-weighted sum of a
    velocity component from the momentum of the pair is multiplied by one
    minus the sum of the squares of the mass fractions: the correction
    restores the momentum only where nothing was to be restored or where
    the kept body is alone.  In the fragmentation file the same holds for
    the positions. *)
Theorem correction_removes_a_fraction (v : variant) (s : state)
    (pf : collision_params) :
  fresh_counter s -> (target pf < N (sim s))%nat ->
  finite_synthesis v s pf ->
  let M := Synth.initial_mass s pf in
  let com := Synth.com s pf in
  let before := Synth.placed_target s pf :: Synth.created s pf in
  let final := Synth.final v s pf in
  let after := particle_at (sim final) (target pf)
               :: drop (N (sim s)) (particles (sim final)) in
  let kept := 1 - squared_fractions M before in
  M * vx com - weighted_sum vx after
  = (M * vx com - weighted_sum vx before) * kept
  /\ M * vy com - weighted_sum vy after
     = (M * vy com - weighted_sum vy before) * kept
  /\ M * vz com - weighted_sum vz after
     = (M * vz com - weighted_sum vz before) * kept
  /\ (v = Fragmentation ->
      M * x com - weighted_sum x after
      = (M * x com - weighted_sum x before) * kept
      /\ M * y com - weighted_sum y after
         = (M * y com - weighted_sum y before) * kept
      /\ M * z com - weighted_sum z after
         = (M * z com - weighted_sum z before) * kept).
Proof.
  intros fresh stored (massive & _ & _ & _ & _ & _ & _ & counted & _)
    M com before final after kept.
  pose proof (sum_velocities_eq before (0, 0, 0)) as Hmv.
  pose proof (sum_positions_eq before (0, 0, 0)) as Hmx.
  change (Synth.sum_velocities (0, 0, 0) before) with (Synth.mvsum s pf) in Hmv.
  change (Synth.sum_positions (0, 0, 0) before) with (Synth.mxsum s pf) in Hmx.
  cbn [fst snd] in Hmv, Hmx.
  assert (Hvoff : Synth.voff s pf
                  = (vx com - weighted_sum vx before / M,
                     vy com - weighted_sum vy before / M,
                     vz com - weighted_sum vz before / M)).
  { unfold Synth.voff. rewrite Hmv. cbn [fst snd]. fold com M.
    f_equal; [f_equal |]; f_equal; f_equal; ring. }
  assert (Hxoff : Synth.xoff s pf
                  = (x com - weighted_sum x before / M,
                     y com - weighted_sum y before / M,
                     z com - weighted_sum z before / M)).
  { unfold Synth.xoff. rewrite Hmx. cbn [fst snd]. fold com M.
    f_equal; [f_equal |]; f_equal; f_equal; ring. }
  split; [| split; [| split]].
  - apply (corrected_component vx (Synth.voff s pf).1.1); try assumption;
      try reflexivity.
    + intros q. now destruct v.
    + rewrite Hvoff. reflexivity.
  - apply (corrected_component vy (Synth.voff s pf).1.2); try assumption;
      try reflexivity.
    + intros q. now destruct v.
    + rewrite Hvoff. reflexivity.
  - apply (corrected_component vz (Synth.voff s pf).2); try assumption;
      try reflexivity.
    + intros q. now destruct v.
    + rewrite Hvoff. reflexivity.
  - intros Hv. subst after final. rewrite Hv.
    split; [| split].
    + apply (corrected_component x (Synth.xoff s pf).1.1); try assumption;
        try reflexivity.
      * rewrite Hxoff. reflexivity.
    + apply (corrected_component y (Synth.xoff s pf).1.2); try assumption;
        try reflexivity.
      * rewrite Hxoff. reflexivity.
    + apply (corrected_component z (Synth.xoff s pf).2); try assumption;
        try reflexivity.
      * rewrite Hxoff. reflexivity.
Qed.

(** ** The fragment ejection speed *)




Section Ejection.

Variable hardsphere : reb_simulation -> reb_collision -> reb_simulation.
Hypothesis contract : hardsphere_contract hardsphere.


End Ejection.


(** ** Instances of the further properties *)

Lemma single_impact_valid : valid_event single_impact impact_event.
Proof.
  unfold valid_event, single_impact.
  change (particle_at _ (p1 impact_event)) with (impact_target 1.5e-8).
  change (particle_at _ (p2 impact_event)) with (impact_projectile 1.5e-8).
  change (min_frag_mass (impact_state 1.5e-8)) with 1.4e-8.
  cbn [m impact_target impact_projectile N sim impact_state particles
       length p1 p2 impact_event].
  repeat split; (lia || lra).
Qed.

Lemma single_impact_run
    (hardsphere : reb_simulation -> reb_collision -> reb_simulation) :
  reb_collision_resolve_fragment hardsphere Fragmentation single_impact
    impact_event
  = Done 2%Z single_impact_result.
Proof.
  unfold single_impact_result, single_impact.
  assert (Hrange : 1e-8 <= 1.5e-8 <= 1.5e-8) by lra.
  rewrite (impact_resolve 1.5e-8 Hrange hardsphere Fragmentation).
  now rewrite impact_add_fragments.
Qed.

Lemma single_impact_fits (v : variant) :
  counts_fit v single_impact impact_event.
Proof.
  unfold counts_fit, single_impact.
  change (particle_at _ (p1 impact_event)) with (impact_target 1.5e-8).
  change (particle_at _ (p2 impact_event)) with (impact_projectile 1.5e-8).
  change (min_frag_mass (impact_state 1.5e-8)) with 1.4e-8.
  change (tot_no_frags (impact_state 1.5e-8)) with 0%Z.
  cbn [m impact_target impact_projectile].
  split; [lia |].
  assert (H : (1.5e-8 + 1.5e-8) / 1.4e-8 <= 3) by (apply Rdiv_le_bound; lra).
  assert (Hl : 99999 <= IZR (last_index v)).
  { destruct v; unfold last_index, INT_MAX; [lra |].
    rewrite minus_IZR. lra. }
  lra.
Qed.

Lemma single_impact_fresh : fresh_counter single_impact.
Proof.
  intros q k Hq Hh. unfold single_impact, impact_state in Hq.
  cbn [sim particles] in Hq.
  apply elem_of_cons in Hq as [-> | Hq]; [discriminate |].
  apply list_elem_of_singleton in Hq as ->. discriminate.
Qed.

Lemma single_impact_heavier :
  (if decide (m (particle_at (sim single_impact) (p1 impact_event))
              < m (particle_at (sim single_impact) (p2 impact_event)))
   then p2 impact_event else p1 impact_event) = 1%nat.
Proof.
  rewrite decide_False; [reflexivity |].
  change (particle_at _ (p1 impact_event)) with (impact_target 1.5e-8).
  change (particle_at _ (p2 impact_event)) with (impact_projectile 1.5e-8).
  cbn [m impact_target impact_projectile]. lra.
Qed.


Lemma single_impact_finite :
  finite_synthesis Fragmentation single_impact (impact_params 1.5e-8).
Proof.
  destruct single_no_frags as [_ Hn]. destruct single_masses as (HM & _).
  assert (Hr : Synth.rtot (impact_state 1.5e-8) (impact_params 1.5e-8) = 2e-5).
  { unfold Synth.rtot, Synth.target, Synth.projectile.
    change (particle_at _ (target (impact_params 1.5e-8)))
      with (impact_target 1.5e-8).
    change (particle_at _ (projectile (impact_params 1.5e-8)))
      with (impact_projectile 1.5e-8).
    cbn [r impact_target impact_projectile]. lra. }
  unfold finite_synthesis, single_impact. rewrite HM, Hr.
  split; [lra |].
  split; [cbn [vrel impact_params]; lra |].
  split; [unfold oblique; cbn [Vix Viy Viz dx dy dz impact_params]; lra |].
  split; [lra |].
  split; [cbn [separation_distance impact_params]; lra |].
  split.
  { cbn [V_esc separation_distance impact_params sim impact_state G].
    replace (sqrt (2e5 * 1.5e-8) ^ 2) with (2e5 * 1.5e-8)
      by (simpl; rewrite Rmult_1_r, sqrt_sqrt; lra).
    lra. }
  split; [cbn; lia |]. split; [rewrite Hn; lia |].
  unfold Synth.tot. rewrite Hn, impact_big_frags.
  cbn [tot_no_frags impact_state]. unfold last_index. lia.
Qed.

Lemma no_bounce_keeps_hashes : keeps_hashes no_bounce.
Proof. intros sm c. reflexivity. Qed.

Lemma restitution_decreases_witness :
  Rabs 1 <= Rabs 2
  /\ coefficient_of_restitution_bridges (sim single_impact) 2
     <= coefficient_of_restitution_bridges (sim single_impact) 1.
Proof.
  assert (H : Rabs 1 <= Rabs 2) by (rewrite !Rabs_right by lra; lra).
  split; [exact H |].
  exact (restitution_decreases (sim single_impact) 1 2 H).
Defined.

Lemma filling_factor_below_optical_depth_witness :
  0 < boxsize_x (sim single_impact) * boxsize_y (sim single_impact)
  /\ 0 <= Diagnostics.midplane_fillingfactor (sim single_impact)
     <= Diagnostics.mean_normal_geometric_optical_depth (sim single_impact).
Proof.
  assert (H : 0 < boxsize_x (sim single_impact) * boxsize_y (sim single_impact))
    by (cbn [boxsize_x boxsize_y sim single_impact impact_state]; lra).
  split; [exact H |].
  exact (filling_factor_below_optical_depth (sim single_impact) H).
Defined.

Lemma velocity_dispersion_is_deviation_witness :
  let sh := Diagnostics.Sheet (sim single_impact) 1 0 in
  particles (Diagnostics.r_sim sh) <> []
  /\ Diagnostics.velocity_dispersion sh
     = (sqrt (variance (vx <$> particles (sim single_impact))),
        sqrt (variance ((fun p => vy p + 1.5 * 1 * x p)
                          <$> particles (sim single_impact))),
        sqrt (variance (vz <$> particles (sim single_impact)))).
Proof.
  intros sh.
  assert (H : particles (Diagnostics.r_sim sh) <> []) by discriminate.
  split; [exact H |].
  exact (velocity_dispersion_is_deviation sh H).
Defined.

Lemma shear_flow_is_cold_witness :
  let sh :=
    Diagnostics.Sheet
      (Simulation 0 1 [Particle 1 0 0 2 (-3) 0 1 1 0 (NAMED 0);
                       Particle (-2) 0 0 (-1) 6 0 1 1 0 (NAMED 1)] 1 1)
      2 0 in
  particles (Diagnostics.r_sim sh) <> []
  /\ Diagnostics.ri_sei_OMEGA sh <> 0
  /\ Forall (fun p => vy p = -1.5 * Diagnostics.ri_sei_OMEGA sh * x p)
            (particles (Diagnostics.r_sim sh))
  /\ (Diagnostics.velocity_dispersion sh).1.2 = 0
  /\ Diagnostics.translational_viscosity sh = 0.
Proof.
  intros sh.
  assert (H1 : particles (Diagnostics.r_sim sh) <> []) by discriminate.
  assert (H2 : Diagnostics.ri_sei_OMEGA sh <> 0)
    by (cbn [Diagnostics.ri_sei_OMEGA sh]; lra).
  assert (H3 : Forall (fun p => vy p = -1.5 * Diagnostics.ri_sei_OMEGA sh * x p)
                 (particles (Diagnostics.r_sim sh))).
  { repeat constructor; cbn [vy x Diagnostics.ri_sei_OMEGA sh]; lra. }
  split; [exact H1 |]. split; [exact H2 |]. split; [exact H3 |].
  exact (shear_flow_is_cold sh H1 H2 H3).
Defined.

Lemma smol_init_grid_witness :
  let d := Smoluchowski.Smol (replicate 36 1) (replicate 36 1)
             (replicate 36 1) (replicate 36 1) in
  Smoluchowski.sized d
  /\ Smoluchowski.n (Smoluchowski.smol_init d) = replicate Smoluchowski.N_BIN 0
  /\ Smoluchowski.smol_init (Smoluchowski.smol_init d)
     = Smoluchowski.smol_init d.
Proof.
  intros d.
  assert (H : Smoluchowski.sized d) by (repeat split; reflexivity).
  split; [exact H |].
  destruct (smol_init_grid d H) as (_ & Hn & _ & _ & _ & Hidem).
  split; [exact Hn | exact Hidem].
Defined.

Lemma smol_mass_grid_witness :
  let d := Smoluchowski.Smol (replicate 36 1) (replicate 36 1)
             (replicate 36 1) (replicate 36 1) in
  let mi := powr 10 (-3 + 0.1 * INR 0) in
  let mj := powr 10 (-3 + 0.1 * INR 10) in
  Smoluchowski.sized d
  /\ Smoluchowski.m (Smoluchowski.smol_init d) !! 0%nat = Some mi
  /\ Smoluchowski.m (Smoluchowski.smol_init d) !! 10%nat = Some mj
  /\ (0 < 10)%nat
  /\ 0 < mi < mj /\ mj = 10 * mi /\ mi = 1 / 1000.
Proof.
  intros d mi mj.
  assert (H : Smoluchowski.sized d) by (repeat split; reflexivity).
  assert (Hi : Smoluchowski.m (Smoluchowski.smol_init d) !! 0%nat = Some mi)
    by (rewrite (smol_init_eq d H); reflexivity).
  assert (Hj : Smoluchowski.m (Smoluchowski.smol_init d) !! 10%nat = Some mj)
    by (rewrite (smol_init_eq d H); reflexivity).
  assert (Hij : (0 < 10)%nat) by lia.
  split; [exact H |]. split; [exact Hi |]. split; [exact Hj |].
  split; [exact Hij |].
  destruct (smol_mass_grid d 0 10 mi mj H Hi Hj Hij) as (Hlt & Hdec & Hfirst).
  split; [exact Hlt |]. split; [apply Hdec; reflexivity |].
  apply Hfirst; reflexivity.
Defined.

Lemma v_rel_bounds_witness :
  let d := Smoluchowski.Smol (replicate 36 1) (replicate 36 1)
             (replicate 36 1) (replicate 36 1) in
  Smoluchowski.sized d /\ (0 < Smoluchowski.N_BIN)%nat
  /\ (1 < Smoluchowski.N_BIN)%nat
  /\ Smoluchowski.v_rel d 0 1 = Smoluchowski.v_rel d 1 0
  /\ Smoluchowski.v_rel (Smoluchowski.smol_init d) 0 1 = 0.
Proof.
  intros d.
  assert (H : Smoluchowski.sized d) by (repeat split; reflexivity).
  assert (H0 : (0 < Smoluchowski.N_BIN)%nat) by (unfold Smoluchowski.N_BIN; lia).
  assert (H1 : (1 < Smoluchowski.N_BIN)%nat) by (unfold Smoluchowski.N_BIN; lia).
  split; [exact H |]. split; [exact H0 |]. split; [exact H1 |].
  destruct (v_rel_bounds d 0 1 H H0 H1) as (Hsym & _ & _ & _ & Hz).
  split; [exact Hsym | exact Hz].
Defined.

Lemma removed_body_is_lighter_witness :
  reb_collision_resolve_fragment no_bounce Fragmentation single_impact
    impact_event = Done 2%Z single_impact_result
  /\ m (particle_at (sim single_impact) (p2 impact_event))
     <= m (particle_at (sim single_impact) (p1 impact_event))
  /\ (p2 impact_event <= p1 impact_event)%nat.
Proof.
  pose proof (single_impact_run no_bounce) as Hrun.
  split; [exact Hrun |].
  destruct (removed_body_is_lighter no_bounce Fragmentation _ _ _ _ Hrun)
    as (_ & _ & H2 & Hg).
  split; [apply H2; reflexivity |].
  apply Hg. discriminate.
Defined.

Lemma one_report_line_per_event_witness :
  hardsphere_contract no_bounce
  /\ valid_event single_impact impact_event
  /\ reb_collision_resolve_fragment no_bounce Fragmentation single_impact
       impact_event = Done 2%Z single_impact_result
  /\ exists line : report_line,
       report single_impact_result = report single_impact ++ [line]
       /\ rep_t line = t (sim single_impact)
       /\ (0 <= rep_type line <= 4)%Z.
Proof.
  pose proof (single_impact_run no_bounce) as Hrun.
  split; [exact no_bounce_contract |].
  split; [exact single_impact_valid |]. split; [exact Hrun |].
  destruct (one_report_line_per_event no_bounce no_bounce_contract
              Fragmentation _ _ _ _ single_impact_valid Hrun)
    as [[H0 _] | (line & Hrep & Ht & Hty & _)]; [discriminate |].
  exists line. split; [exact Hrep |]. split; [exact Ht | exact Hty].
Defined.

Lemma store_grows_with_counter_witness :
  hardsphere_contract no_bounce
  /\ valid_event single_impact impact_event
  /\ counts_fit Fragmentation single_impact impact_event
  /\ reb_collision_resolve_fragment no_bounce Fragmentation single_impact
       impact_event = Done 2%Z single_impact_result
  /\ (tot_no_frags single_impact <= tot_no_frags single_impact_result
      <= last_index Fragmentation)%Z
  /\ N (sim single_impact_result)
     = (N (sim single_impact)
        + Z.to_nat (tot_no_frags single_impact_result
                    - tot_no_frags single_impact))%nat.
Proof.
  pose proof (single_impact_run no_bounce) as Hrun.
  split; [exact no_bounce_contract |].
  split; [exact single_impact_valid |].
  split; [exact (single_impact_fits Fragmentation) |]. split; [exact Hrun |].
  destruct (store_grows_with_counter no_bounce no_bounce_contract
              Fragmentation _ _ _ _ single_impact_valid
              (single_impact_fits Fragmentation) Hrun)
    as (Hle & HN & _).
  split; [exact Hle | exact HN].
Defined.

Lemma mass_is_conserved_witness :
  hardsphere_contract no_bounce
  /\ valid_event single_impact impact_event
  /\ counts_fit Fragmentation single_impact impact_event
  /\ p1 impact_event <> p2 impact_event
  /\ 2 * min_frag_mass single_impact
     <= m (particle_at (sim single_impact) (p1 impact_event))
        + m (particle_at (sim single_impact) (p2 impact_event))
  /\ reb_collision_resolve_fragment no_bounce Fragmentation single_impact
       impact_event = Done 2%Z single_impact_result
  /\ total_mass (survivors 2 impact_event (particles (sim single_impact_result)))
     = total_mass (particles (sim single_impact)).
Proof.
  pose proof (single_impact_run no_bounce) as Hrun.
  assert (Hne : p1 impact_event <> p2 impact_event) by (cbn; lia).
  assert (Hheavy : 2 * min_frag_mass single_impact
                   <= m (particle_at (sim single_impact) (p1 impact_event))
                      + m (particle_at (sim single_impact) (p2 impact_event))).
  { change (particle_at _ (p1 impact_event)) with (impact_target 1.5e-8).
    change (particle_at _ (p2 impact_event)) with (impact_projectile 1.5e-8).
    change (min_frag_mass single_impact) with 1.4e-8.
    cbn [m impact_target impact_projectile]. lra. }
  split; [exact no_bounce_contract |].
  split; [exact single_impact_valid |].
  split; [exact (single_impact_fits Fragmentation) |]. split; [exact Hne |].
  split; [exact Hheavy |]. split; [exact Hrun |].
  exact (mass_is_conserved no_bounce no_bounce_contract Fragmentation _ _ _ _
           single_impact_valid (single_impact_fits Fragmentation) Hne
           (or_intror Hheavy) Hrun).
Defined.

Lemma written_bodies_are_stamped_witness :
  hardsphere_contract no_bounce
  /\ valid_event single_impact impact_event
  /\ reb_collision_resolve_fragment no_bounce Fragmentation single_impact
       impact_event = Done 2%Z single_impact_result
  /\ 2%Z <> 0%Z
  /\ Forall (fun q => last_collision q = t (sim single_impact_result))
            (drop (N (sim single_impact))
                  (particles (sim single_impact_result))).
Proof.
  pose proof (single_impact_run no_bounce) as Hrun.
  assert (Hd : 2%Z <> 0%Z) by discriminate.
  split; [exact no_bounce_contract |].
  split; [exact single_impact_valid |]. split; [exact Hrun |].
  split; [exact Hd |].
  exact (proj2 (written_bodies_are_stamped no_bounce no_bounce_contract
                  Fragmentation _ _ _ _ single_impact_valid Hrun Hd)).
Defined.

Lemma fragments_weigh_the_minimum_witness :
  hardsphere_contract no_bounce
  /\ valid_event single_impact impact_event
  /\ reb_collision_resolve_fragment no_bounce Fragmentation single_impact
       impact_event = Done 2%Z single_impact_result
  /\ Forall (fun q => min_frag_mass single_impact <= m q)
            (drop (N (sim single_impact))
                  (particles (sim single_impact_result))).
Proof.
  pose proof (single_impact_run no_bounce) as Hrun.
  split; [exact no_bounce_contract |].
  split; [exact single_impact_valid |]. split; [exact Hrun |].
  exact (proj1 (fragments_weigh_the_minimum no_bounce no_bounce_contract
                  Fragmentation _ _ _ _ single_impact_valid Hrun)).
Defined.

Lemma new_bodies_on_a_circle_witness :
  let params := impact_params 1.5e-8 in
  let com := Synth.com single_impact params in
  let f := fragment com params 1 1 1 1.4e-8 (2 * PI) 1 1 in
  vrel params = get_mag (Vix params) (Viy params) (Viz params)
  /\ oblique params
  /\ (x f - x com) ^ 2 + (y f - y com) ^ 2 + (z f - z com) ^ 2
     = separation_distance params ^ 2.
Proof.
  intros params com f.
  assert (H1 : vrel params = get_mag (Vix params) (Viy params) (Viz params)).
  { cbn [vrel Vix Viy Viz params impact_params]. unfold get_mag.
    symmetry. apply sqrt_of_square; lra. }
  assert (H2 : oblique params).
  { unfold oblique. cbn [Vix Viy Viz dx dy dz params impact_params]. lra. }
  split; [exact H1 |]. split; [exact H2 |].
  exact (proj1 (new_bodies_on_a_circle com params 1 1 1 1.4e-8 (2 * PI)
                  0 1 1 H1 H2)).
Defined.

Lemma impact_speed_and_nan_witness :
  let targ := impact_target 1.5e-8 in
  let imp := impact_projectile 1.5e-8 in
  0 <= 1 /\ 0 <= m imp + m targ
  /\ Dynamics.v2rel targ imp <= Dynamics.v2imp 1 targ imp
  /\ (Dynamics.b_is_nan 1 targ imp <-> Dynamics.v2imp 1 targ imp = 0).
Proof.
  intros targ imp.
  assert (HG : 0 <= 1) by lra.
  assert (HM : 0 <= m imp + m targ)
    by (cbn [m targ imp impact_target impact_projectile]; lra).
  split; [exact HG |]. split; [exact HM |].
  destruct (impact_speed_and_nan 1 targ imp HG HM) as ([_ Hle] & _ & Hnan & _).
  split; [exact Hle | exact Hnan].
Defined.

Lemma builder_ranges_witness :
  let targ := particle_at (sim single_impact) 1 in
  let imp := particle_at (sim single_impact) 0 in
  0 < m targ /\ 0 < m imp /\ 0 < r targ /\ 0 < r imp
  /\ exists params : collision_params,
       build_params single_impact 1 0 = Done params single_impact
       /\ 0 <= Mlr params <= m targ + m imp
       /\ 0 <= vrel params <= Vi params.
Proof.
  intros targ imp.
  assert (Et : targ = impact_target 1.5e-8) by reflexivity.
  assert (Ei : imp = impact_projectile 1.5e-8) by reflexivity.
  assert (Hmt : 0 < m targ) by (rewrite Et; cbn [m impact_target]; lra).
  assert (Hmi : 0 < m imp) by (rewrite Ei; cbn [m impact_projectile]; lra).
  assert (Hrt : 0 < r targ) by (rewrite Et; cbn [r impact_target]; lra).
  assert (Hri : 0 < r imp) by (rewrite Ei; cbn [r impact_projectile]; lra).
  assert (Hrange : 1e-8 <= 1.5e-8 <= 1.5e-8) by lra.
  pose proof (impact_build_params 1.5e-8 Hrange) as Hb.
  split; [exact Hmt |]. split; [exact Hmi |]. split; [exact Hrt |].
  split; [exact Hri |].
  eexists. split; [exact Hb |].
  destruct (builder_ranges single_impact single_impact 1 0 _ Hmt Hmi Hrt Hri Hb)
    as (_ & _ & Hv & _ & _ & HMlr).
  split; [exact HMlr | exact Hv].
Defined.

Lemma get_radii_is_the_sphere_witness :
  0 < 1 /\ 0 < 2
  /\ 4 / 3 * PI * get_radii 1 2 ^ 3 * 2 = 1.
Proof.
  assert (H1 : 0 < 1) by lra. assert (H2 : 0 < 2) by lra.
  split; [exact H1 |]. split; [exact H2 |].
  exact (proj1 (proj2 (get_radii_is_the_sphere 1 2 H1 H2))).
Defined.

Lemma merge_keeps_density_and_momentum_witness :
  let s := single_impact in
  let params := impact_params 1.5e-8 in
  let pi := impact_target 1.5e-8 in
  let pj := impact_projectile 1.5e-8 in
  let q := particle_at (sim (merge s params)) (target params) in
  particles (sim s) !! target params = Some pi
  /\ particles (sim s) !! projectile params = Some pj
  /\ target params <> projectile params
  /\ 0 < m pi /\ 0 <= m pj /\ 0 < r pi
  /\ m q * vx q = m pi * vx pi + m pj * vx pj
  /\ m q / (4 / 3 * PI * r q ^ 3) = m pi / (4 / 3 * PI * r pi ^ 3).
Proof.
  intros s params pi pj q.
  assert (H1 : particles (sim s) !! target params = Some pi) by reflexivity.
  assert (H2 : particles (sim s) !! projectile params = Some pj)
    by reflexivity.
  assert (H3 : target params <> projectile params) by (cbn; lia).
  assert (H4 : 0 < m pi) by (cbn [m pi impact_target]; lra).
  assert (H5 : 0 <= m pj) by (cbn [m pj impact_projectile]; lra).
  assert (H6 : 0 < r pi) by (cbn [r pi impact_target]; lra).
  repeat (split; [assumption |]).
  destruct (merge_keeps_density_and_momentum s params pi pj H1 H2 H3 H4 H5 H6)
    as (_ & Hvx & _ & _ & _ & _ & _ & Hrho & _).
  split; [exact Hvx | exact Hrho].
Defined.

Lemma wrap_into_box_range_witness :
  let sm := sim single_impact in
  let q := wrap_into_box ShearingSheet sm (impact_target 1) in
  0 < boxsize_x sm /\ 0 < boxsize_y sm
  /\ - (boxsize_x sm / 2) <= x q < boxsize_x sm / 2
  /\ wrap_into_box ShearingSheet sm q = q.
Proof.
  intros sm q.
  assert (Hx : 0 < boxsize_x sm)
    by (cbn [boxsize_x sm sim single_impact impact_state]; lra).
  assert (Hy : 0 < boxsize_y sm)
    by (cbn [boxsize_y sm sim single_impact impact_state]; lra).
  split; [exact Hx |]. split; [exact Hy |].
  destruct (wrap_into_box_range sm (impact_target 1) Hx Hy)
    as (Hrx & _ & _ & _ & _ & _ & _ & Hidem & _).
  split; [exact Hrx | exact Hidem].
Defined.

Lemma bystanders_are_untouched_witness :
  hardsphere_contract no_bounce
  /\ valid_event single_impact impact_event
  /\ fresh_counter single_impact
  /\ reb_collision_resolve_fragment no_bounce Fragmentation single_impact
       impact_event = Done 2%Z single_impact_result
  /\ particles (sim single_impact_result) !! 0%nat
     = particles (sim single_impact) !! 0%nat.
Proof.
  pose proof (single_impact_run no_bounce) as Hrun.
  split; [exact no_bounce_contract |].
  split; [exact single_impact_valid |].
  split; [exact single_impact_fresh |]. split; [exact Hrun |].
  apply (bystanders_are_untouched no_bounce no_bounce_contract Fragmentation
           _ _ _ _ 0 single_impact_valid single_impact_fresh Hrun).
  - discriminate.
  - rewrite single_impact_heavier. discriminate.
  - cbn; lia.
Defined.

Lemma fresh_counter_is_kept_witness :
  hardsphere_contract no_bounce /\ keeps_hashes no_bounce
  /\ valid_event single_impact impact_event
  /\ counts_fit Fragmentation single_impact impact_event
  /\ fresh_counter single_impact
  /\ reb_collision_resolve_fragment no_bounce Fragmentation single_impact
       impact_event = Done 2%Z single_impact_result
  /\ fresh_counter single_impact_result.
Proof.
  pose proof (single_impact_run no_bounce) as Hrun.
  split; [exact no_bounce_contract |].
  split; [exact no_bounce_keeps_hashes |].
  split; [exact single_impact_valid |].
  split; [exact (single_impact_fits Fragmentation) |].
  split; [exact single_impact_fresh |]. split; [exact Hrun |].
  exact (fresh_counter_is_kept no_bounce no_bounce_contract Fragmentation
           _ _ _ _ no_bounce_keeps_hashes single_impact_valid
           (single_impact_fits Fragmentation) single_impact_fresh Hrun).
Defined.

Lemma correction_removes_a_fraction_witness :
  let s := single_impact in
  let pf := impact_params 1.5e-8 in
  let M := Synth.initial_mass s pf in
  let before := Synth.placed_target s pf :: Synth.created s pf in
  let final := Synth.final Fragmentation s pf in
  let after := particle_at (sim final) (target pf)
               :: drop (N (sim s)) (particles (sim final)) in
  fresh_counter s /\ (target pf < N (sim s))%nat
  /\ finite_synthesis Fragmentation s pf
  /\ M * vx (Synth.com s pf) - weighted_sum vx after
     = (M * vx (Synth.com s pf) - weighted_sum vx before)
       * (1 - squared_fractions M before).
Proof.
  intros s pf M before final after.
  assert (H3 : (target pf < N (sim s))%nat) by (cbn; lia).
  split; [exact single_impact_fresh |]. split; [exact H3 |].
  split; [exact single_impact_finite |].
  exact (proj1 (correction_removes_a_fraction Fragmentation s pf
                  single_impact_fresh H3 single_impact_finite)).
Defined.


Lemma identifiers_of_a_run_witness :
  let s := single_impact in
  hardsphere_contract no_bounce
  /\ exists (s' : state) (ids : list reb_hash_t),
       run no_bounce Fragmentation s ids s'
       /\ (tot_no_frags s <= tot_no_frags s')%Z
       /\ ids = FRAG <$> seqZ (tot_no_frags s + 1)
                              (tot_no_frags s' - tot_no_frags s)
       /\ ids = [FRAG 1]
       /\ NoDup ids.
Proof.
  intros s. subst s. split; [exact no_bounce_contract |].
  pose proof (single_impact_run no_bounce) as Hres.
  pose proof (run_resolve no_bounce Fragmentation single_impact _ _
                impact_event 2 [] single_impact_valid
                (single_impact_fits Fragmentation) Hres
                (run_stop no_bounce Fragmentation _)) as Hrun.
  rewrite app_nil_r in Hrun.
  destruct (identifiers_of_a_run no_bounce no_bounce_contract Fragmentation
              _ _ _ Hrun) as (Hle & Hids & Hlen & Hnd).
  eexists _, _. split; [exact Hrun |]. split; [exact Hle |].
  split; [exact Hids |]. split; [| exact Hnd].
  rewrite Hids. unfold single_impact_result, print_collision_array;
    cbn [tot_no_frags].
  destruct (final_frame Fragmentation single_impact (impact_params 1.5e-8))
    as (_ & _ & _ & -> & _).
  unfold Synth.tot, Synth.big_frags.
  destruct (single_no_frags) as [_ Hn]. unfold single_impact. rewrite Hn.
  change (Mslr (impact_params 1.5e-8)) with 0.
  rewrite decide_False by lra. reflexivity.
Defined.
